(** * Webm2MP4: the conversion pipeline of [src/components/webm-converter.tsx]

    A shallow embedding of [runConversion] and of the helpers it uses.

    Conventions of the embedding.
    - A JavaScript [number] that the code computes with is a rational [Q]
      (finite doubles, idealised: no rounding error, no NaN); a number that
      the code has already rounded or counted is a [Z], a queue length a
      [nat].
    - [undefined] and [null] are [None]; the operators [??] and [||] are
      written out ([JS.nullish], [JS.orElse]).
    - JavaScript truthiness of a number is "different from zero".
    - The component's React state, the local variables that the closures of
      [runConversion] mutate and the encoder queues are an explicit state
      [St]; every observable call is logged, in order, in its [trace].
    - The browser is the environment [Env]: what feature detection answers,
      which awaited promise rejects, what the tracks deliver and in which
      order the event loop runs the two encode tasks, the progress timer and
      the encoders. *)

From Stdlib Require Import ZArith QArith Qround Qminmax List String Bool Lia Lqa Sorted.
Import ListNotations.
Open Scope Z_scope.

(** ** JavaScript helpers *)

Module JS.

(** [Math.round]: the nearest integer, ties towards plus infinity. *)
Definition round (x : Q) : Z := Qfloor (x + (1 # 2)).

(** [Math.floor]. *)
Definition floor (x : Q) : Z := Qfloor x.

(** [!!x] for a number. *)
Definition truthy (x : Q) : bool := negb (Qeq_bool x 0).

(** [!!x] for a possibly missing number. *)
Definition truthyOpt (x : option Q) : bool :=
  match x with
  | Some q => truthy q
  | None => false
  end.

(** [a ?? b]. *)
Definition nullish {A : Type} (a : option A) (b : A) : A :=
  match a with
  | Some v => v
  | None => b
  end.

(** [a || b] on numbers. *)
Definition orElse (a b : Q) : Q := if truthy a then a else b.

(** [a % b] on integers: the sign follows the dividend. *)
Definition rem (a b : Z) : Z := Z.rem a b.

(** What a [catch] clause receives. *)
Inductive Thrown :=
| Error (message : string)
| NonError.

End JS.

(** ** Presets (lines 12-55) *)

Module QualityPreset.
Inductive Id := high | balanced | small.
Record t := {
  id : Id;
  label : string;
  bitrateScale : Q;
  hint : string
}.
End QualityPreset.

Module SpeedPreset.
Inductive Id := fast | standard | quality.
(** The latency modes ["realtime"] and ["quality"]. *)
Inductive LatencyMode := realtime | quality_.
Record t := {
  id : Id;
  label : string;
  latencyMode : LatencyMode;
  gopSeconds : Q;
  hint : string
}.
End SpeedPreset.

Definition qualityPresets : list QualityPreset.t :=
  [ {| QualityPreset.id := QualityPreset.high;
       QualityPreset.label := "High";
       QualityPreset.bitrateScale := 135 # 100;
       QualityPreset.hint := "More detail, larger file" |};
    {| QualityPreset.id := QualityPreset.balanced;
       QualityPreset.label := "Balanced";
       QualityPreset.bitrateScale := 1;
       QualityPreset.hint := "Best for most clips" |};
    {| QualityPreset.id := QualityPreset.small;
       QualityPreset.label := "Small";
       QualityPreset.bitrateScale := 7 # 10;
       QualityPreset.hint := "Smaller file, softer look" |} ].

Definition speedPresets : list SpeedPreset.t :=
  [ {| SpeedPreset.id := SpeedPreset.fast;
       SpeedPreset.label := "Faster";
       SpeedPreset.latencyMode := SpeedPreset.realtime;
       SpeedPreset.gopSeconds := 15 # 10;
       SpeedPreset.hint := "Lower latency, larger file" |};
    {| SpeedPreset.id := SpeedPreset.standard;
       SpeedPreset.label := "Standard";
       SpeedPreset.latencyMode := SpeedPreset.realtime;
       SpeedPreset.gopSeconds := 25 # 10;
       SpeedPreset.hint := "Good balance" |};
    {| SpeedPreset.id := SpeedPreset.quality;
       SpeedPreset.label := "Sharper";
       SpeedPreset.latencyMode := SpeedPreset.quality_;
       SpeedPreset.gopSeconds := 4;
       SpeedPreset.hint := "Better compression, slower" |} ].

(** The presets by position: [qualityPresets[i]], [speedPresets[i]]. *)
Definition qualityPreset (i : nat) : QualityPreset.t :=
  nth i qualityPresets
    {| QualityPreset.id := QualityPreset.balanced; QualityPreset.label := "";
       QualityPreset.bitrateScale := 1; QualityPreset.hint := "" |}.

Definition speedPreset (i : nat) : SpeedPreset.t :=
  nth i speedPresets
    {| SpeedPreset.id := SpeedPreset.standard; SpeedPreset.label := "";
       SpeedPreset.latencyMode := SpeedPreset.realtime;
       SpeedPreset.gopSeconds := 25 # 10; SpeedPreset.hint := "" |}.

(** The user's choices: the [quality], [speed] and [includeAudio] state. *)
Record Settings := {
  quality : QualityPreset.t;
  speed : SpeedPreset.t;
  includeAudio : bool
}.

(** ** Parameter derivation (lines 92, 265-274, 473) *)

(** [evenDimension] (line 92). *)
Definition evenDimension (value : Q) : Z :=
  Z.max 2 (JS.floor (value / 2) * 2).

(** What the video track settings and the video element say about the
    picture. *)
Record VideoSource := {
  settingsWidth : option Q;      (* videoSettings.width *)
  settingsHeight : option Q;     (* videoSettings.height *)
  settingsFrameRate : option Q;  (* videoSettings.frameRate *)
  videoWidth : Q;                (* videoElement.videoWidth *)
  videoHeight : Q                (* videoElement.videoHeight *)
}.

Definition widthSource (v : VideoSource) : Q :=
  JS.nullish (settingsWidth v) (JS.orElse (videoWidth v) 0%Q).

Definition heightSource (v : VideoSource) : Q :=
  JS.nullish (settingsHeight v) (JS.orElse (videoHeight v) 0%Q).

Definition width (v : VideoSource) : Z :=
  evenDimension (JS.orElse (widthSource v) 1280).

Definition height (v : VideoSource) : Z :=
  evenDimension (JS.orElse (heightSource v) 720).

Definition frameRate (v : VideoSource) : Q :=
  JS.nullish (settingsFrameRate v) 30%Q.

Definition baseBitrate (v : VideoSource) : Z :=
  Z.max 1500000
    (JS.round (inject_Z (width v) * inject_Z (height v) * frameRate v * (7 # 100))).

Definition videoBitrate (v : VideoSource) (q : QualityPreset.t) : Z :=
  JS.round (inject_Z (baseBitrate v) * QualityPreset.bitrateScale q).

Definition audioBitrate (q : QualityPreset.t) : Z :=
  match QualityPreset.id q with
  | QualityPreset.high => 192000
  | QualityPreset.small => 96000
  | QualityPreset.balanced => 128000
  end.

Definition keyInterval (v : VideoSource) (s : SpeedPreset.t) : Z :=
  Z.max 1 (JS.round (frameRate v * SpeedPreset.gopSeconds s)).


(** ** Encoder configurations and negotiation (lines 333-377) *)

Module VideoEncoderConfig.
Inductive HardwareAcceleration := prefer_hardware.
Record t := {
  codec : string;
  width : Z;
  height : Z;
  bitrate : Z;
  framerate : Q;
  latencyMode : option SpeedPreset.LatencyMode;
  hardwareAcceleration : option HardwareAcceleration
}.
End VideoEncoderConfig.

(** The answer of [VideoEncoder.isConfigSupported]. *)
Module VideoEncoderSupport.
Record t := {
  supported : bool;
  config : option VideoEncoderConfig.t
}.
End VideoEncoderSupport.

Module AudioEncoderConfig.
Record t := {
  codec : string;
  sampleRate : Q;
  numberOfChannels : Q;
  bitrate : Z
}.
End AudioEncoderConfig.

Definition codecCandidates : list string :=
  ["avc1.42E01E"; "avc1.4D401E"; "avc1.640028"; "avc1.42001E"]%string.

(** One candidate: [{ codec, ...videoBaseConfig, latencyMode?, hardwareAcceleration? }]. *)
Definition videoConfig (v : VideoSource) (cfg : Settings) (codec : string)
    (latency hardware : bool) : VideoEncoderConfig.t :=
  {| VideoEncoderConfig.codec := codec;
     VideoEncoderConfig.width := width v;
     VideoEncoderConfig.height := height v;
     VideoEncoderConfig.bitrate := videoBitrate v (quality cfg);
     VideoEncoderConfig.framerate := frameRate v;
     VideoEncoderConfig.latencyMode :=
       if latency then Some (SpeedPreset.latencyMode (speed cfg)) else None;
     VideoEncoderConfig.hardwareAcceleration :=
       if hardware then Some VideoEncoderConfig.prefer_hardware else None |}.

(** The loop of lines 343-364: four pushes per codec. *)
Definition videoConfigCandidates (v : VideoSource) (cfg : Settings)
    : list VideoEncoderConfig.t :=
  flat_map
    (fun codec =>
       [ videoConfig v cfg codec true true;
         videoConfig v cfg codec true false;
         videoConfig v cfg codec false true;
         videoConfig v cfg codec false false ])
    codecCandidates.

(** The loop of lines 366-373: the first supported candidate, in the
    platform's own form when it returns one. *)
Fixpoint chooseVideoConfig
    (isConfigSupported : VideoEncoderConfig.t -> VideoEncoderSupport.t)
    (candidates : list VideoEncoderConfig.t) : option VideoEncoderConfig.t :=
  match candidates with
  | [] => None
  | candidate :: rest =>
      let support := isConfigSupported candidate in
      if VideoEncoderSupport.supported support
      then Some (JS.nullish (VideoEncoderSupport.config support) candidate)
      else chooseVideoConfig isConfigSupported rest
  end.

(** The platform refuses the candidate. *)
Definition unsupported (isConfigSupported : VideoEncoderConfig.t -> VideoEncoderSupport.t)
    (c : VideoEncoderConfig.t) : Prop :=
  VideoEncoderSupport.supported (isConfigSupported c) = false.

(** ** Media units, actions and the state of a run *)

(** A [VideoFrame] pulled from the video reader; [timestamp] is in
    microseconds. *)
Module VideoFrame.
Record t := {
  id : nat;
  timestamp : Z
}.
End VideoFrame.

(** An [AudioData] pulled from the audio reader. *)
Module AudioData.
Record t := {
  id : nat;
  sampleRate : Q;
  numberOfChannels : Q;
  timestamp : Z
}.
End AudioData.

(** The second argument of [encode], when there is one. *)
Record EncodeOptions := {
  keyFrame : bool
}.

Inductive TrackClass := Video | Audio.

(** The audio description the muxer is constructed with. *)
Record MuxerAudio := {
  muxerSampleRate : Q;
  muxerChannels : Q
}.

(** The calls of a run that the outside can observe, in source order of
    first appearance. *)
Inductive Action :=
| SetError (message : option string)
| SetIsConverting (b : bool)
| SetProgress (p : option Z)
| SetOutputUrl (present : bool)
| SetOutputSize (present : bool)
| CreateObjectURL
| AppendVideoElement
| SetStatus (status : string)
| SetDuration (seconds : Q)
| Play
| ReadAudio
| CloseAudioData (data : AudioData.t)
| NewMuxer (w h : Z) (audio : option MuxerAudio)
| ConfigureVideoEncoder (config : VideoEncoderConfig.t)
| ConfigureAudioEncoder (config : AudioEncoderConfig.t)
| SetInterval
| EncodeVideo (frame : VideoFrame.t) (options : option EncodeOptions)
| EncodeAudio (data : AudioData.t) (options : option EncodeOptions)
| CloseVideoFrame (frame : VideoFrame.t)
| WaitForBreathingRoom (class : TrackClass)
| Pause
| StopVideoTrack
| StopAudioTrack
| FlushVideoEncoder
| CloseVideoEncoder
| FlushAudioEncoder
| CloseAudioEncoder
| MuxerFinalize
| ConsoleError
| ClearInterval
| ClearSrc
| RemoveVideoElement
| RevokeObjectURL.

(** The mutable part of a run. [progress] is the React state; the other
    fields are the [let] variables of [runConversion], the clock of the
    video element and the two [encodeQueueSize] counters. *)
Record St := {
  progress : option Z;
  progressTimer : bool;            (* progressTimer !== null *)
  progressOffsetUs : option Z;
  videoFrameCount : Z;
  bufferedAudio : option AudioData.t;
  currentTime : Q;                 (* videoElement.currentTime *)
  videoQueue : nat;                (* videoEncoder.encodeQueueSize *)
  audioQueue : nat;                (* audioEncoder.encodeQueueSize *)
  trace : list Action
}.

(** The state a run starts from: the locals as declared, the encoders
    idle, the progress left by whatever happened before. *)
Definition initialSt (previous : option Z) : St :=
  {| progress := previous;
     progressTimer := false;
     progressOffsetUs := None;
     videoFrameCount := 0;
     bufferedAudio := None;
     currentTime := 0;
     videoQueue := 0;
     audioQueue := 0;
     trace := [] |}.

Definition withProgress (p : option Z) (s : St) : St :=
  {| progress := p; progressTimer := progressTimer s;
     progressOffsetUs := progressOffsetUs s; videoFrameCount := videoFrameCount s;
     bufferedAudio := bufferedAudio s; currentTime := currentTime s;
     videoQueue := videoQueue s; audioQueue := audioQueue s; trace := trace s |}.

Definition withProgressTimer (b : bool) (s : St) : St :=
  {| progress := progress s; progressTimer := b;
     progressOffsetUs := progressOffsetUs s; videoFrameCount := videoFrameCount s;
     bufferedAudio := bufferedAudio s; currentTime := currentTime s;
     videoQueue := videoQueue s; audioQueue := audioQueue s; trace := trace s |}.

Definition withProgressOffsetUs (o : option Z) (s : St) : St :=
  {| progress := progress s; progressTimer := progressTimer s;
     progressOffsetUs := o; videoFrameCount := videoFrameCount s;
     bufferedAudio := bufferedAudio s; currentTime := currentTime s;
     videoQueue := videoQueue s; audioQueue := audioQueue s; trace := trace s |}.

Definition withVideoFrameCount (n : Z) (s : St) : St :=
  {| progress := progress s; progressTimer := progressTimer s;
     progressOffsetUs := progressOffsetUs s; videoFrameCount := n;
     bufferedAudio := bufferedAudio s; currentTime := currentTime s;
     videoQueue := videoQueue s; audioQueue := audioQueue s; trace := trace s |}.

Definition withBufferedAudio (b : option AudioData.t) (s : St) : St :=
  {| progress := progress s; progressTimer := progressTimer s;
     progressOffsetUs := progressOffsetUs s; videoFrameCount := videoFrameCount s;
     bufferedAudio := b; currentTime := currentTime s;
     videoQueue := videoQueue s; audioQueue := audioQueue s; trace := trace s |}.

Definition withCurrentTime (t : Q) (s : St) : St :=
  {| progress := progress s; progressTimer := progressTimer s;
     progressOffsetUs := progressOffsetUs s; videoFrameCount := videoFrameCount s;
     bufferedAudio := bufferedAudio s; currentTime := t;
     videoQueue := videoQueue s; audioQueue := audioQueue s; trace := trace s |}.

Definition withVideoQueue (n : nat) (s : St) : St :=
  {| progress := progress s; progressTimer := progressTimer s;
     progressOffsetUs := progressOffsetUs s; videoFrameCount := videoFrameCount s;
     bufferedAudio := bufferedAudio s; currentTime := currentTime s;
     videoQueue := n; audioQueue := audioQueue s; trace := trace s |}.

Definition withAudioQueue (n : nat) (s : St) : St :=
  {| progress := progress s; progressTimer := progressTimer s;
     progressOffsetUs := progressOffsetUs s; videoFrameCount := videoFrameCount s;
     bufferedAudio := bufferedAudio s; currentTime := currentTime s;
     videoQueue := videoQueue s; audioQueue := n; trace := trace s |}.

Definition withTrace (t : list Action) (s : St) : St :=
  {| progress := progress s; progressTimer := progressTimer s;
     progressOffsetUs := progressOffsetUs s; videoFrameCount := videoFrameCount s;
     bufferedAudio := bufferedAudio s; currentTime := currentTime s;
     videoQueue := videoQueue s; audioQueue := audioQueue s; trace := t |}.

(** ** The monad of the run: state that survives a [throw] *)

Inductive Res (A : Type) :=
| Ok (a : A)
| Throw (e : JS.Thrown).

Arguments Ok {A} a.
Arguments Throw {A} e.

Definition M (A : Type) : Type := St -> Res A * St.

Definition ret {A : Type} (a : A) : M A := fun s => (Ok a, s).

Definition bind {A B : Type} (m : M A) (k : A -> M B) : M B :=
  fun s =>
    match m s with
    | (Ok a, s') => k a s'
    | (Throw e, s') => (Throw e, s')
    end.

Declare Scope run_scope.
Delimit Scope run_scope with run.
Notation "x <- m ;; k" := (bind m (fun x => k))
  (at level 61, m at next level, right associativity) : run_scope.
Notation "m ;; k" := (bind m (fun _ => k))
  (at level 61, right associativity) : run_scope.
Open Scope run_scope.

(** [throw new Error(message)]. *)
Definition throw {A : Type} (message : string) : M A :=
  fun s => (Throw (JS.Error message), s).

(** A rejection with whatever the platform rejected with. *)
Definition reject {A : Type} (e : JS.Thrown) : M A :=
  fun s => (Throw e, s).

Definition gets {A : Type} (f : St -> A) : M A := fun s => (Ok (f s), s).

Definition modify (f : St -> St) : M unit := fun s => (Ok tt, f s).

(** An observable call. *)
Definition emit (a : Action) : M unit :=
  modify (fun s => withTrace (trace s ++ [a]) s).

Definition when (b : bool) (m : M unit) : M unit :=
  if b then m else ret tt.

(** A [for ... of] loop whose body may throw. *)
Fixpoint forEach {A : Type} (body : A -> M unit) (l : list A) : M unit :=
  match l with
  | [] => ret tt
  | x :: rest => body x ;; forEach body rest
  end.

(** [setProgress(f)]: React applies the updaters in the order queued. *)
Definition setProgress (f : option Z -> option Z) : M unit :=
  p <- gets (fun s => f (progress s)) ;;
  modify (withProgress p) ;;
  emit (SetProgress p).

Definition setStatus (status : string) : M unit := emit (SetStatus status).

Definition setError (message : option string) : M unit := emit (SetError message).

(** [resetOutput] (lines 136-140). *)
Definition resetOutput : M unit :=
  emit (SetOutputUrl false) ;;
  emit (SetOutputSize false) ;;
  setProgress (fun _ => None).

(** ** The environment of a run *)

(** What the event loop runs while [runConversion] is suspended, once the
    encode tasks have been launched. *)
Inductive Event :=
| VideoRead (frame : VideoFrame.t)   (* [videoReader.read()] resolves with a frame *)
| AudioRead (data : AudioData.t)     (* [audioReader.read()] resolves with a sample *)
| TimerTick (clock : Q)              (* the 200 ms interval fires; the clock reads [clock] *)
| VideoDequeue                       (* the video encoder takes a pending unit off its queue *)
| AudioDequeue.                      (* the audio encoder takes a pending unit off its queue *)

Record AudioTrackSettings := {
  settingsSampleRate : option Q;     (* audioSettings.sampleRate *)
  settingsChannelCount : option Q    (* audioSettings.channelCount *)
}.

Record Env := {
  (* the component's state when [runConversion] is called *)
  inputFile : bool;                  (* inputFile !== null *)
  inputUrl : bool;                   (* inputUrl !== null *)
  duration : option Q;
  (* feature detection *)
  supportsVideoCodecs : bool;
  supportsAudioCodecs : bool;
  (* the platform, in the order the run asks *)
  muxerImport : option JS.Thrown;    (* what [import("mp4-muxer")] rejects with, if it does *)
  metadataLoads : bool;              (* [loadedmetadata] rather than [error] *)
  elementDuration : option Q;        (* [videoElement.duration] when it is finite *)
  captureStream : bool;              (* a stream was captured *)
  videoTrack : option VideoSource;   (* the first video track, with the picture size *)
  trackProcessor : bool;             (* [MediaStreamTrackProcessor] exists *)
  audioTrack : option AudioTrackSettings;
  playAllowed : bool;                (* [videoElement.play()] resolves *)
  firstAudio : option AudioData.t;   (* the first [audioReader.read()], when not done *)
  isVideoConfigSupported : VideoEncoderConfig.t -> VideoEncoderSupport.t;
  isAudioConfigSupported : AudioEncoderConfig.t -> bool;
  playbackEvents : list Event;       (* until [ended] or [error] fires *)
  playbackEnded : bool;              (* [ended] rather than [error] *)
  drainEvents : list Event;          (* until both tasks have seen the end of their stream *)
  videoFlushEvents : list Event;     (* during [await videoEncoder.flush()] *)
  audioFlushEvents : list Event      (* during [await audioEncoder.flush()] *)
}.

(** [durationSeconds] (lines 237-239). *)
Definition durationSeconds (env : Env) : option Q :=
  match elementDuration env with
  | Some d => Some d
  | None => duration env
  end.

(** ** Progress (lines 452-464) *)

(** The percentage of lines 460-462 for a decode timestamp. *)
Definition percentOfTime (timeSeconds durationSeconds : Q) : Z :=
  Z.min 100 (JS.round ((timeSeconds / durationSeconds) * 100)).

Definition updateProgress (durationSeconds : option Q) (timestampUs : option Z)
    : M unit :=
  match durationSeconds with
  | Some d =>
      if JS.truthy d then
        clock <- gets currentTime ;;
        timeSeconds <-
          match timestampUs with
          | Some ts =>
              offset <- gets progressOffsetUs ;;
              when (match offset with None => true | Some _ => false end)
                   (modify (withProgressOffsetUs (Some ts))) ;;
              offset' <- gets progressOffsetUs ;;
              ret (Qmax 0 (inject_Z (ts - JS.nullish offset' ts) / 1000000))
          | None => ret clock
          end ;;
        let pct := percentOfTime timeSeconds d in
        setProgress (fun prev => Some (Z.max (JS.nullish prev 0) pct))
      else ret tt
  | None => ret tt
  end.

(** ** The encode tasks (lines 472-510) *)

(** What the closures of the encode phase have captured. *)
Record Ctx := {
  ctxDuration : option Q;   (* durationSeconds *)
  ctxKeyInterval : Z;       (* keyInterval *)
  ctxAudioEnabled : bool;   (* audioEnabled *)
  ctxAudioReader : bool;    (* audioReader !== null *)
  ctxAudioEncoder : bool    (* audioEncoder !== null *)
}.

(** [videoEncoder.encode(frame, options)]: one more pending unit. *)
Definition encodeVideo (frame : VideoFrame.t) (options : option EncodeOptions) : M unit :=
  emit (EncodeVideo frame options) ;;
  modify (fun s => withVideoQueue (S (videoQueue s)) s).

(** [audioEncoder.encode(data)]. *)
Definition encodeAudio (data : AudioData.t) (options : option EncodeOptions) : M unit :=
  emit (EncodeAudio data options) ;;
  modify (fun s => withAudioQueue (S (audioQueue s)) s).

(** One turn of the loop of [videoTask], from the frame to the next
    [await] (lines 480-487). *)
Definition videoStep (ctx : Ctx) (frame : VideoFrame.t) : M unit :=
  modify (fun s => withVideoFrameCount (videoFrameCount s + 1) s) ;;
  count <- gets videoFrameCount ;;
  encodeVideo frame (Some {| keyFrame := JS.rem count (ctxKeyInterval ctx) =? 0 |}) ;;
  updateProgress (ctxDuration ctx) (Some (VideoFrame.timestamp frame)) ;;
  emit (CloseVideoFrame frame) ;;
  pending <- gets videoQueue ;;
  when (12 <? pending)%nat (emit (WaitForBreathingRoom Video)).

(** One turn of the loop of [audioTask] (lines 502-508). *)
Definition audioStep (ctx : Ctx) (data : AudioData.t) : M unit :=
  encodeAudio data None ;;
  updateProgress (ctxDuration ctx) (Some (AudioData.timestamp data)) ;;
  emit (CloseAudioData data) ;;
  pending <- gets audioQueue ;;
  when (20 <? pending)%nat (emit (WaitForBreathingRoom Audio)).

(** Whether [audioTask] gets past its guard (line 492). *)
Definition audioTaskRuns (ctx : Ctx) : bool :=
  ctxAudioEnabled ctx && ctxAudioReader ctx && ctxAudioEncoder ctx.

(** [audioTask] up to its first [await]: the buffered sample goes first
    (lines 492-498). *)
Definition audioTaskStart (ctx : Ctx) : M unit :=
  when (audioTaskRuns ctx)
    (buffered <- gets bufferedAudio ;;
     match buffered with
     | Some data =>
         encodeAudio data None ;;
         updateProgress (ctxDuration ctx) (Some (AudioData.timestamp data)) ;;
         emit (CloseAudioData data) ;;
         modify (withBufferedAudio None)
     | None => ret tt
     end).

(** One turn of the event loop. A read only resolves for a task that is
    waiting on it, the timer only fires when it was set. *)
Definition handleEvent (ctx : Ctx) (tasks : bool) (e : Event) : M unit :=
  match e with
  | VideoRead frame => when tasks (videoStep ctx frame)
  | AudioRead data => when (tasks && audioTaskRuns ctx) (audioStep ctx data)
  | TimerTick clock =>
      timer <- gets progressTimer ;;
      when timer
        (modify (withCurrentTime clock) ;;
         updateProgress (ctxDuration ctx) None)
  | VideoDequeue => modify (fun s => withVideoQueue (Nat.pred (videoQueue s)) s)
  | AudioDequeue => modify (fun s => withAudioQueue (Nat.pred (audioQueue s)) s)
  end.

(** ** The phases of [runConversion] (lines 173-558) *)

(** The audio variables that the run refines while it probes the track:
    [includeAudioTrack], [audioReader], [audioSampleRate], [audioChannels]. *)
Record AudioProbe := {
  includeAudioTrack : bool;
  audioReader : bool;               (* audioReader !== null *)
  audioSampleRate : option Q;
  audioChannels : option Q
}.

Definition isSome {A : Type} (o : option A) : bool :=
  match o with
  | Some _ => true
  | None => false
  end.

(** [!audioSampleRate || !audioChannels]. *)
Definition attributesUnknown (p : AudioProbe) : bool :=
  negb (JS.truthyOpt (audioSampleRate p)) || negb (JS.truthyOpt (audioChannels p)).

(** Before the [try] (lines 184-200). *)
Definition prologue (env : Env) : M unit :=
  setError None ;;
  emit (SetIsConverting true) ;;
  setProgress (fun _ => Some 0) ;;
  resetOutput ;;
  when (negb (inputUrl env)) (emit CreateObjectURL) ;;
  emit AppendVideoElement.

(** The audio variables as the track settings give them (lines 290-305):
    a reader exists, and the settings are read, only when audio is wanted
    and the stream has an audio track. *)
Definition trackProbe (cfg : Settings) (env : Env) : AudioProbe :=
  match audioTrack env with
  | Some a =>
      if includeAudio cfg
      then {| includeAudioTrack := true; audioReader := true;
              audioSampleRate := settingsSampleRate a;
              audioChannels := settingsChannelCount a |}
      else {| includeAudioTrack := false; audioReader := false;
              audioSampleRate := None; audioChannels := None |}
  | None => {| includeAudioTrack := false; audioReader := false;
               audioSampleRate := None; audioChannels := None |}
  end.

(** From the start of the [try] to the start of playback (lines 233-312). *)
Definition openSource (cfg : Settings) (env : Env) : M (VideoSource * AudioProbe) :=
  setStatus "Preparing codecs" ;;
  match muxerImport env with
  | Some e => reject e
  | None => ret tt
  end ;;
  (if metadataLoads env then ret tt else throw "Failed to load video metadata.") ;;
  match durationSeconds env with
  | Some d => when (JS.truthy d && negb (JS.truthyOpt (duration env))) (emit (SetDuration d))
  | None => ret tt
  end ;;
  (if captureStream env then ret tt
   else throw "captureStream is not available in this browser.") ;;
  match videoTrack env with
  | None => throw "No video track found in this file."
  | Some v =>
      (if trackProcessor env then ret tt
       else throw "MediaStreamTrackProcessor is not available in this browser.") ;;
      setStatus "Starting playback" ;;
      emit Play ;;
      (if playAllowed env then ret tt
       else throw "Playback was blocked. Click convert again to allow it.") ;;
      ret (v, trackProbe cfg env)
  end.

(** Learning the audio attributes from the first sample, and giving audio
    up when they stay unknown (lines 314-331). *)
Definition analyzeAudio (env : Env) (p : AudioProbe) : M AudioProbe :=
  p1 <-
    (if includeAudioTrack p && audioReader p && attributesUnknown p then
       setStatus "Analyzing audio" ;;
       emit ReadAudio ;;
       match firstAudio env with
       | Some first =>
           modify (withBufferedAudio (Some first)) ;;
           ret {| includeAudioTrack := includeAudioTrack p;
                  audioReader := audioReader p;
                  audioSampleRate := Some (AudioData.sampleRate first);
                  audioChannels := Some (AudioData.numberOfChannels first) |}
       | None => ret p
       end
     else ret p) ;;
  if includeAudioTrack p1 && attributesUnknown p1 then
    buffered <- gets bufferedAudio ;;
    match buffered with
    | Some data => emit (CloseAudioData data) ;; modify (withBufferedAudio None)
    | None => ret tt
    end ;;
    setStatus "Audio track not detected, exporting video only" ;;
    ret {| includeAudioTrack := false;
           audioReader := audioReader p1;
           audioSampleRate := audioSampleRate p1;
           audioChannels := audioChannels p1 |}
  else ret p1.

(** The audio encoder configuration of lines 379-394, [None] when audio is
    off or AAC is refused. *)
Definition negotiateAudio (cfg : Settings) (env : Env) (p : AudioProbe)
    : M (option AudioEncoderConfig.t) :=
  let audioEnabled :=
    includeAudioTrack p && JS.truthyOpt (audioSampleRate p)
    && JS.truthyOpt (audioChannels p) in
  match audioSampleRate p, audioChannels p with
  | Some rate, Some channels =>
      if audioEnabled && JS.truthy rate && JS.truthy channels then
        let audioEncoderConfig :=
          {| AudioEncoderConfig.codec := "mp4a.40.2";
             AudioEncoderConfig.sampleRate := rate;
             AudioEncoderConfig.numberOfChannels := channels;
             AudioEncoderConfig.bitrate := audioBitrate (quality cfg) |} in
        if isAudioConfigSupported env audioEncoderConfig
        then ret (Some audioEncoderConfig)
        else setStatus "AAC not supported, exporting video only" ;; ret None
      else ret None
  | _, _ => ret None
  end.

(** Negotiation, the muxer and the encoders (lines 333-450). The result is
    what the encode tasks capture. *)
Definition configureEncoders (cfg : Settings) (env : Env) (v : VideoSource)
    (p : AudioProbe) : M Ctx :=
  setStatus "Configuring encoders" ;;
  match chooseVideoConfig (isVideoConfigSupported env) (videoConfigCandidates v cfg) with
  | None => throw "H.264 encoding is not supported in this browser."
  | Some chosenVideoConfig =>
      audioEncoderConfig <- negotiateAudio cfg env p ;;
      let audioEnabled := isSome audioEncoderConfig in
      emit (NewMuxer (width v) (height v)
              match audioEncoderConfig with
              | Some c =>
                  Some {| muxerSampleRate := AudioEncoderConfig.sampleRate c;
                          muxerChannels := AudioEncoderConfig.numberOfChannels c |}
              | None => None
              end) ;;
      emit (ConfigureVideoEncoder chosenVideoConfig) ;;
      match audioEncoderConfig with
      | Some c => emit (ConfigureAudioEncoder c)
      | None => ret tt
      end ;;
      ret {| ctxDuration := durationSeconds env;
             ctxKeyInterval := keyInterval v (speed cfg);
             ctxAudioEnabled := audioEnabled;
             ctxAudioReader := audioReader p;
             ctxAudioEncoder := audioEnabled |}
  end.

(** The timer, the two tasks, the wait for the end of playback, and the
    flush of the encoders (lines 466-530). *)
Definition encode (env : Env) (ctx : Ctx) : M unit :=
  when (JS.truthyOpt (ctxDuration ctx))
    (modify (withProgressTimer true) ;; emit SetInterval) ;;
  setStatus (if ctxAudioEnabled ctx then "Encoding video + audio" else "Encoding video") ;;
  audioTaskStart ctx ;;
  forEach (handleEvent ctx true) (playbackEvents env) ;;
  (if playbackEnded env then ret tt else throw "Playback failed.") ;;
  emit Pause ;;
  emit StopVideoTrack ;;
  when (isSome (audioTrack env)) (emit StopAudioTrack) ;;
  forEach (handleEvent ctx true) (drainEvents env) ;;
  emit FlushVideoEncoder ;;
  forEach (handleEvent ctx false) (videoFlushEvents env) ;;
  emit CloseVideoEncoder ;;
  when (ctxAudioEncoder ctx)
    (emit FlushAudioEncoder ;;
     forEach (handleEvent ctx false) (audioFlushEvents env) ;;
     emit CloseAudioEncoder).

(** Lines 532-539. *)
Definition finalize : M unit :=
  setStatus "Finalizing MP4" ;;
  emit MuxerFinalize ;;
  emit (SetOutputSize true) ;;
  emit (SetOutputUrl true) ;;
  setStatus "Conversion complete" ;;
  setProgress (fun _ => Some 100).

(** The body of the [try] (lines 233-539). *)
Definition tryBlock (cfg : Settings) (env : Env) : M unit :=
  opened <- openSource cfg env ;;
  probe <- analyzeAudio env (snd opened) ;;
  ctx <- configureEncoders cfg env (fst opened) probe ;;
  encode env ctx ;;
  finalize.

(** [err instanceof Error ? err.message : ...] (lines 542-543). *)
Definition errorMessage (e : JS.Thrown) : string :=
  match e with
  | JS.Error message => message
  | JS.NonError => "Conversion failed. Try another file or a different browser."
  end.

(** The [catch] clause (lines 540-545). *)
Definition catchBlock (e : JS.Thrown) : M unit :=
  emit ConsoleError ;;
  setError (Some (errorMessage e)) ;;
  setStatus "Conversion failed".

(** [stopProgressTimer] (lines 225-230). *)
Definition stopProgressTimer : M unit :=
  timer <- gets progressTimer ;;
  when timer (emit ClearInterval ;; modify (withProgressTimer false)).

(** The [finally] clause (lines 546-557). *)
Definition finallyBlock (env : Env) : M unit :=
  stopProgressTimer ;;
  emit Pause ;;
  emit ClearSrc ;;
  emit RemoveVideoElement ;;
  when (negb (inputUrl env)) (emit RevokeObjectURL) ;;
  emit (SetIsConverting false).

(** How a call of [runConversion] ends. *)
Inductive Outcome :=
| NotStarted
| Succeeded
| Failed (message : string).

Definition runConversion (cfg : Settings) (env : Env) (s : St) : Outcome * St :=
  if negb (inputFile env) then (NotStarted, s)
  else if negb (supportsVideoCodecs env) then
    (NotStarted,
     snd (setError (Some "WebCodecs or captureStream are not available in this browser."%string) s))
  else if includeAudio cfg && negb (supportsAudioCodecs env) then
    (NotStarted,
     snd (setError (Some "Audio WebCodecs are not available. Disable audio or switch browser."%string) s))
  else
    match tryBlock cfg env (snd (prologue env s)) with
    | (Ok _, s') => (Succeeded, snd (finallyBlock env s'))
    | (Throw e, s') => (Failed (errorMessage e), snd ((catchBlock e ;; finallyBlock env) s'))
    end.

(** The run gets as far as configuring its encoders: it is not refused
    before the [try], and nothing throws up to the start of playback. *)
Definition opens (cfg : Settings) (env : Env) : bool :=
  inputFile env && supportsVideoCodecs env
  && (negb (includeAudio cfg) || supportsAudioCodecs env)
  && negb (isSome (muxerImport env)) && metadataLoads env
  && captureStream env && isSome (videoTrack env) && trackProcessor env
  && playAllowed env.

(** ** Reading a trace *)

(** The values [setProgress] produced, in order. *)
Definition progressLog (t : list Action) : list (option Z) :=
  flat_map (fun a => match a with SetProgress p => [p] | _ => [] end) t.

(** The options of the video units submitted, in order. *)
Definition videoSubmissions (t : list Action) : list (option EncodeOptions) :=
  flat_map (fun a => match a with EncodeVideo _ o => [o] | _ => [] end) t.

(** The options of the audio units submitted, in order. *)
Definition audioSubmissions (t : list Action) : list (option EncodeOptions) :=
  flat_map (fun a => match a with EncodeAudio _ o => [o] | _ => [] end) t.

(** The audio samples released, in order. *)
Definition audioReleases (t : list Action) : list AudioData.t :=
  flat_map (fun a => match a with CloseAudioData d => [d] | _ => [] end) t.

(** [prev ?? 0], the reading of an unreported progress that line 463 uses. *)
Definition reported (p : option Z) : Z := JS.nullish p 0.

(** ** A small program logic for [M] *)

(** [hoare P m Q E]: from a state in [P], [m] either returns [a] in a state
    in [Q a], or throws [e] in a state in [E e]. Every computation of [M]
    is total, so this is total correctness. *)
Definition hoare {A : Type} (P : St -> Prop) (m : M A)
    (Q : A -> St -> Prop) (E : JS.Thrown -> St -> Prop) : Prop :=
  forall s, P s ->
    match m s with
    | (Ok a, s') => Q a s'
    | (Throw e, s') => E e s'
    end.

(** [inv I m]: [m] keeps [I], whatever it returns or throws. *)
Definition inv {A : Type} (I : St -> Prop) (m : M A) : Prop :=
  hoare I m (fun _ => I) (fun _ => I).

(** [returns m Q E]: the result of [m] is in [Q], what it throws is in [E],
    from any state. *)
Definition returns {A : Type} (m : M A) (Q : A -> Prop) (E : JS.Thrown -> Prop) : Prop :=
  hoare (fun _ => True) m (fun a _ => Q a) (fun e _ => E e).

(** [m] cannot throw. *)
Definition total {A : Type} (m : M A) : Prop :=
  returns m (fun _ => True) (fun _ => False).


(** ** Invariants of a run *)

(** The progress values reported so far never went down, none is above the
    value the state holds, and that value is at most 100. *)
Definition progressOrdered (s : St) : Prop :=
  StronglySorted Z.le (map reported (progressLog (trace s))) /\
  Forall (fun p => reported p <= reported (progress s)) (progressLog (trace s)) /\
  reported (progress s) <= 100.

(** The last progress reported is 100, and it is the value the state
    holds. *)
Definition finished (s : St) : Prop :=
  progress s = Some 100 /\
  exists earlier, progressLog (trace s) = earlier ++ [Some 100].

(** Nothing was reported since the reset at the start of the run. *)
Definition unreported (s : St) : Prop :=
  progress s = None /\ progressLog (trace s) = [Some 0; None].

(** Since the reset at the start of the run every report was a number, and
    the state holds the last one. *)
Definition numbersOnly (s : St) : Prop :=
  exists values,
    progressLog (trace s) = Some 0 :: None :: map Some values /\
    progress s = last (map Some values) None.

(** Nothing was reported between the reset at the start of the run and
    the 100 at its end. *)
Definition completed (s : St) : Prop :=
  progress s = Some 100 /\ progressLog (trace s) = [Some 0; None; Some 100].

(** The options that go with the [n]-th video frame, counted from 1, for a
    keyframe interval. *)
Definition scheduledOptions (interval : Z) (n : nat) : option EncodeOptions :=
  Some {| keyFrame := JS.rem (Z.of_nat n) interval =? 0 |}.

(** Every video unit so far was submitted with the options of its
    position, and every audio unit without options. *)
Definition onSchedule (interval : Z) (s : St) : Prop :=
  0 <= videoFrameCount s /\
  videoSubmissions (trace s)
  = map (scheduledOptions interval) (seq 1 (Z.to_nat (videoFrameCount s))) /\
  Forall (fun options => options = None) (audioSubmissions (trace s)).

(** The actions that put the audio encoder or an audio track of the
    muxer to use. *)
Definition usesAudio (a : Action) : bool :=
  match a with
  | EncodeAudio _ _ => true
  | ConfigureAudioEncoder _ => true
  | FlushAudioEncoder => true
  | CloseAudioEncoder => true
  | NewMuxer _ _ (Some _) => true
  | _ => false
  end.

Definition audioUse (t : list Action) : list Action := filter usesAudio t.

(** Audio is not in use: no encoder, no audio in the muxer, no sample held;
    the samples released so far are [released]. *)
Definition audioOff (released : list AudioData.t) (s : St) : Prop :=
  audioReleases (trace s) = released /\
  audioUse (trace s) = [] /\
  bufferedAudio s = None.

(** The status was shown at some point. *)
Definition said (status : string) (s : St) : Prop :=
  In (SetStatus status) (trace s).

(** The first audio sample, when there is one, does not tell the sample
    rate or the channel count. *)
Definition firstSampleUnknown (env : Env) : bool :=
  match firstAudio env with
  | Some first =>
      negb (JS.truthy (AudioData.sampleRate first))
      || negb (JS.truthy (AudioData.numberOfChannels first))
  | None => true
  end.

(** The sample the run holds after its first read of the audio track. *)
Definition pulled (env : Env) : list AudioData.t :=
  match firstAudio env with
  | Some first => [first]
  | None => []
  end.

(** The calls that stop a media track or close an encoder. *)
Definition isStop (a : Action) : bool :=
  match a with
  | StopVideoTrack => true
  | StopAudioTrack => true
  | CloseVideoEncoder => true
  | CloseAudioEncoder => true
  | _ => false
  end.

Definition stops (t : list Action) : list Action := filter isStop t.

Definition isFinalize (a : Action) : bool :=
  match a with
  | MuxerFinalize => true
  | _ => false
  end.

Definition finalizations (t : list Action) : list Action := filter isFinalize t.

(** No track was stopped, no encoder closed, the muxer not finalized. *)
Definition leftOpen (s : St) : Prop :=
  stops (trace s) = [] /\ finalizations (trace s) = [].

(** The video encoder was configured with [config]. *)
Definition configured (config : VideoEncoderConfig.t) (s : St) : Prop :=
  In (ConfigureVideoEncoder config) (trace s).

(** What the [finally] clause always does last. *)
Definition finallyTail (env : Env) : list Action :=
  [Pause; ClearSrc; RemoveVideoElement]
  ++ (if negb (inputUrl env) then [RevokeObjectURL] else [])
  ++ [SetIsConverting false].

(** The track classes whose task gave control back to the scheduler, in
    order. *)
Definition yields (t : list Action) : list TrackClass :=
  flat_map (fun a => match a with WaitForBreathingRoom c => [c] | _ => [] end) t.

(** Nothing is pending in either encoder. *)
Definition idle (s : St) : Prop :=
  videoQueue s = 0%nat /\ audioQueue s = 0%nat.

(** The run up to the launch of the encode tasks (lines 184-450). *)
Definition beforeEncode (cfg : Settings) (env : Env) : M Ctx :=
  prologue env ;;
  opened <- openSource cfg env ;;
  probe <- analyzeAudio env (snd opened) ;;
  configureEncoders cfg env (fst opened) probe.

(** ** Sample inputs *)

Definition frame (i : nat) (ts : Z) : VideoFrame.t :=
  {| VideoFrame.id := i; VideoFrame.timestamp := ts |}.

Definition sample (i : nat) (rate channels : Q) (ts : Z) : AudioData.t :=
  {| AudioData.id := i; AudioData.sampleRate := rate;
     AudioData.numberOfChannels := channels; AudioData.timestamp := ts |}.

(** A 1280x720 source at [fps] frames per second. *)
Definition hd720 (fps : Q) : VideoSource :=
  {| settingsWidth := Some 1280%Q; settingsHeight := Some 720%Q;
     settingsFrameRate := Some fps; videoWidth := 1280; videoHeight := 720 |}.



Definition balancedStandard (audio : bool) : Settings :=
  {| quality := qualityPreset 1; speed := speedPreset 1; includeAudio := audio |}.


(** A platform that accepts every configuration as it is. *)
Definition supportAll (c : VideoEncoderConfig.t) : VideoEncoderSupport.t :=
  {| VideoEncoderSupport.supported := true; VideoEncoderSupport.config := None |}.

(** A platform without any H.264 encoder. *)
Definition supportNone (c : VideoEncoderConfig.t) : VideoEncoderSupport.t :=
  {| VideoEncoderSupport.supported := false; VideoEncoderSupport.config := None |}.

(** A run over a 1280x720, 30 frames per second source that is already
    shown in the page, on a platform where everything the run needs
    exists. *)
Definition sampleEnv (known : option Q) (audio : option AudioTrackSettings)
    (first : option AudioData.t)
    (support : VideoEncoderConfig.t -> VideoEncoderSupport.t)
    (events : list Event) (ended : bool) (rest : list Event) : Env :=
  {| inputFile := true; inputUrl := true; duration := None;
     supportsVideoCodecs := true; supportsAudioCodecs := true;
     muxerImport := None; metadataLoads := true; elementDuration := known;
     captureStream := true; videoTrack := Some (hd720 30); trackProcessor := true;
     audioTrack := audio; playAllowed := true; firstAudio := first;
     isVideoConfigSupported := support;
     isAudioConfigSupported := fun _ => true;
     playbackEvents := events; playbackEnded := ended; drainEvents := rest;
     videoFlushEvents := []; audioFlushEvents := [] |}.

(** Audio track settings that say nothing. *)
Definition silentSettings : AudioTrackSettings :=
  {| settingsSampleRate := None; settingsChannelCount := None |}.

(** Two frames during playback, one more while the tasks drain. *)
Definition threeFrames : Env :=
  sampleEnv (Some 10%Q) None None supportAll
    [VideoRead (frame 1 0); TimerTick (1 # 2); VideoRead (frame 2 5000000)]
    true [VideoRead (frame 3 9990000)].

(** The same source when its duration is not known. *)
Definition unknownDuration : Env :=
  sampleEnv None None None supportAll
    [VideoRead (frame 1 0); TimerTick (1 # 2); VideoRead (frame 2 5000000)]
    true [VideoRead (frame 3 9990000)].

(** The same source on a platform without H.264. *)
Definition noEncoder : Env :=
  sampleEnv (Some 10%Q) None None supportNone [] true [].

(** Playback fails after two frames. *)
Definition playbackFails : Env :=
  sampleEnv (Some 10%Q) None None supportAll
    [VideoRead (frame 1 0); VideoRead (frame 2 33333)] false [].

(** The first audio sample carries no usable attributes. *)
Definition deafSample : AudioData.t := sample 0 0 0 0.

Definition audioUnknown : Env :=
  sampleEnv (Some 10%Q) (Some silentSettings) (Some deafSample) supportAll
    [VideoRead (frame 1 0); AudioRead (sample 1 48000 2 0)] true [].

(** A 1280x720 source at one frame per second: with the standard preset
    the keyframe interval is [round(2.5) = 3]. Four frames are read. *)
Definition lowRate : Env :=
  {| inputFile := true; inputUrl := false; duration := None;
     supportsVideoCodecs := true; supportsAudioCodecs := true;
     muxerImport := None; metadataLoads := true; elementDuration := Some 4%Q;
     captureStream := true; videoTrack := Some (hd720 1); trackProcessor := true;
     audioTrack := Some {| settingsSampleRate := Some 48000%Q;
                           settingsChannelCount := Some 2%Q |};
     playAllowed := true; firstAudio := None;
     isVideoConfigSupported := supportAll;
     isAudioConfigSupported := fun _ => true;
     playbackEvents :=
       [VideoRead (frame 1 0); AudioRead (sample 1 48000 2 0);
        VideoRead (frame 2 1000000); VideoRead (frame 3 2000000)];
     playbackEnded := true;
     drainEvents := [VideoRead (frame 4 3000000)];
     videoFlushEvents := []; audioFlushEvents := [] |}.

(** What the encode tasks of the sample runs have captured. *)
Definition sampleCtx (audio : bool) : Ctx :=
  {| ctxDuration := Some 10%Q; ctxKeyInterval := 75;
     ctxAudioEnabled := audio; ctxAudioReader := audio; ctxAudioEncoder := audio |}.

(** A state in which [pending] units wait in each encoder queue. *)
Definition busySt (pending : nat) : St :=
  withAudioQueue pending (withVideoQueue pending (initialSt None)).

(** The state at the launch of the audio task when the first sample was
    buffered. *)
Definition bufferedSt : St :=
  withBufferedAudio (Some (sample 0 48000 2 0)) (initialSt None).

(** The first audio sample tells the attributes, but the platform has no
    H.264 encoder. *)
Definition audioThenNoEncoder : Env :=
  sampleEnv (Some 10%Q) (Some silentSettings) (Some (sample 0 48000 2 0)) supportNone
    [] true [].

(** ** Further readings of a trace and of the event lists *)



(** The samples submitted to the audio encoder, in order. *)
Definition audioSubmitted (t : list Action) : list AudioData.t :=
  flat_map (fun a => match a with EncodeAudio d _ => [d] | _ => [] end) t.



(** The values given to [setError], in order. *)
Definition errorLog (t : list Action) : list (option string) :=
  flat_map (fun a => match a with SetError m => [m] | _ => [] end) t.

(** The values given to [setStatus], in order. *)
Definition statusLog (t : list Action) : list string :=
  flat_map (fun a => match a with SetStatus m => [m] | _ => [] end) t.

(** The values given to [setIsConverting], in order. *)
Definition convertingLog (t : list Action) : list bool :=
  flat_map (fun a => match a with SetIsConverting b => [b] | _ => [] end) t.

Definition isUrlCall (a : Action) : bool :=
  match a with
  | CreateObjectURL => true
  | RevokeObjectURL => true
  | _ => false
  end.

(** The calls that create or revoke the working URL, in order. *)
Definition urlLog (t : list Action) : list Action := filter isUrlCall t.

Definition isIntervalCall (a : Action) : bool :=
  match a with
  | SetInterval => true
  | ClearInterval => true
  | _ => false
  end.

(** The calls that set or clear the progress interval, in order. *)
Definition intervalLog (t : list Action) : list Action := filter isIntervalCall t.



(** The configurations given to the audio encoder, in order. *)
Definition audioConfigs (t : list Action) : list AudioEncoderConfig.t :=
  flat_map (fun a => match a with ConfigureAudioEncoder c => [c] | _ => [] end) t.


(** ** Further invariants *)


(** The samples submitted so far are [samples], the samples released are
    [dropped] followed by [samples], and none is held. *)
Definition samplesDone (dropped samples : list AudioData.t) (s : St) : Prop :=
  audioSubmitted (trace s) = samples /\
  audioReleases (trace s) = dropped ++ samples /\
  bufferedAudio s = None.

(** The progress interval is not set, and was never. *)
Definition timerUnset (s : St) : Prop :=
  progressTimer s = false /\ intervalLog (trace s) = [].

(** The progress interval was set at most once, and not cleared. *)
Definition timerPending (known : bool) (s : St) : Prop :=
  timerUnset s \/
  (progressTimer s = true /\ intervalLog (trace s) = [SetInterval] /\ known = true).

(** The working URL calls so far. *)
Definition urlCalls (calls : list Action) (s : St) : Prop :=
  urlLog (trace s) = calls.

(** The error was cleared at the start of the run and not set since. *)
Definition noError (s : St) : Prop := errorLog (trace s) = [None].



(** [setIsConverting] was called with these values. *)
Definition converting (calls : list bool) (s : St) : Prop :=
  convertingLog (trace s) = calls.

(** The state a run leaves when its [finally] clause has run: the trace
    ends with the calls of that clause, the progress interval is cleared,
    and [isConverting] went to [true] and back to [false]. *)
Definition cleanedUp (env : Env) (s : St) : Prop :=
  (exists before, trace s = before ++ finallyTail env) /\
  progressTimer s = false /\
  convertingLog (trace s) = [true; false].

(** The last status shown is [status]. *)
Definition showing (status : string) (s : St) : Prop :=
  exists earlier, statusLog (trace s) = earlier ++ [status].

(** The errors set so far. *)
Definition errorsAre (errors : list (option string)) (s : St) : Prop :=
  errorLog (trace s) = errors.

(** The sample that the run reads to learn the audio attributes, when it
    reads one: audio is wanted, the track exists, and its settings leave the
    sample rate or the channel count unknown (lines 314-321). *)
Definition analysed (cfg : Settings) (env : Env) : option AudioData.t :=
  if includeAudioTrack (trackProbe cfg env) && audioReader (trackProbe cfg env)
     && attributesUnknown (trackProbe cfg env)
  then firstAudio env
  else None.

Definition optionList {A : Type} (o : option A) : list A :=
  match o with
  | Some a => [a]
  | None => []
  end.

(** No sample was submitted or released, and [held] is what
    [bufferedAudio] holds. *)
Definition audioHeld (held : option AudioData.t) (s : St) : Prop :=
  audioSubmitted (trace s) = [] /\
  audioReleases (trace s) = [] /\
  bufferedAudio s = held.

(** The audio state when the probe of the audio track is over: audio is
    still wanted, a reader exists and the sample read is held; or audio was
    given up and the sample read was released. *)
Definition afterAnalysis (cfg : Settings) (env : Env) (p : AudioProbe) (s : St) : Prop :=
  if includeAudioTrack p
  then audioReader p = true /\ audioHeld (analysed cfg env) s
  else samplesDone (optionList (analysed cfg env)) [] s.

(** No audio encoder was configured. *)
Definition audioUnconfigured (s : St) : Prop := audioConfigs (trace s) = [].

(** An audio encoder was configured. *)
Definition audioConfigured (s : St) : Prop := audioConfigs (trace s) <> [].

(** The AAC configuration that the run asks the platform about when the
    first sample told the attributes (lines 381-386). *)
Definition aacConfig (cfg : Settings) (first : AudioData.t) : AudioEncoderConfig.t :=
  {| AudioEncoderConfig.codec := "mp4a.40.2";
     AudioEncoderConfig.sampleRate := AudioData.sampleRate first;
     AudioEncoderConfig.numberOfChannels := AudioData.numberOfChannels first;
     AudioEncoderConfig.bitrate := audioBitrate (quality cfg) |}.

(** A source whose audio track settings say nothing and whose first sample
    tells 48 kHz stereo, on a platform that refuses AAC. *)
Definition aacRefused : Env :=
  {| inputFile := true; inputUrl := true; duration := None;
     supportsVideoCodecs := true; supportsAudioCodecs := true;
     muxerImport := None; metadataLoads := true; elementDuration := Some 10%Q;
     captureStream := true; videoTrack := Some (hd720 30); trackProcessor := true;
     audioTrack := Some silentSettings; playAllowed := true;
     firstAudio := Some (sample 0 48000 2 0);
     isVideoConfigSupported := supportAll;
     isAudioConfigSupported := fun _ => false;
     playbackEvents := [VideoRead (frame 1 0); AudioRead (sample 1 48000 2 0)];
     playbackEnded := true; drainEvents := [];
     videoFlushEvents := []; audioFlushEvents := [] |}.

(** The timestamps of the units submitted to either encoder, in order. *)
Definition unitTimestamps (t : list Action) : list Z :=
  flat_map
    (fun a =>
       match a with
       | EncodeVideo f _ => [VideoFrame.timestamp f]
       | EncodeAudio d _ => [AudioData.timestamp d]
       | _ => []
       end)
    t.

(** [progressOffsetUs] is the timestamp of the first unit submitted, and
    unset when none was. *)
Definition offsetIsFirst (s : St) : Prop :=
  progressOffsetUs s = hd_error (unitTimestamps (trace s)).

(** A unit with timestamp [ts] was just submitted, and the progress update
    that follows the submission has not run yet. *)
Definition offsetDue (ts : Z) (s : St) : Prop :=
  hd_error (unitTimestamps (trace s)) = Some (JS.nullish (progressOffsetUs s) ts).

(** [progressOffsetUs] is unset. *)
Definition offsetUnset (s : St) : Prop := progressOffsetUs s = None.

(** ** The encoder output callbacks (lines 415-444) *)

Section Output.

Variables Chunk Meta : Type.

(** What one call of an [output] callback does: it adds the chunk to the
    muxer with the metadata it holds, or throws. *)
Inductive Delivered :=
| Added (chunk : Chunk) (meta : Meta)
| Missing (message : string).

(** One call of [output], with [held] the captured [videoMeta] (or
    [audioMeta]) before it: [if (meta) held = meta], then
    [if (!held) throw new Error(message)], then [addChunk(chunk, held)].
    The first component is the captured variable after the call. *)
Definition output (message : string) (held : option Meta) (chunk : Chunk)
    (meta : option Meta) : option Meta * Delivered :=
  let held' :=
    match meta with
    | Some m => Some m
    | None => held
    end in
  (held',
   match held' with
   | Some m => Added chunk m
   | None => Missing message
   end).

(** The calls that an encoder makes, one after the other; what a call
    throws ends that call only. *)
Fixpoint outputs (message : string) (held : option Meta)
    (calls : list (Chunk * option Meta)) : list Delivered :=
  match calls with
  | [] => []
  | (chunk, meta) :: rest =>
      snd (output message held chunk meta)
      :: outputs message (fst (output message held chunk meta)) rest
  end.

(** None of the calls up to position [i] carries metadata. *)
Definition noMetadata (calls : list (Chunk * option Meta)) (i : nat) : Prop :=
  forall k chunk meta,
    (k <= i)%nat -> nth_error calls k = Some (chunk, meta) -> meta = None.

(** [meta] is the metadata that the calls up to position [i] delivered
    last. *)
Definition latestMetadata (calls : list (Chunk * option Meta)) (i : nat) (meta : Meta)
    : Prop :=
  exists j chunk,
    (j <= i)%nat /\ nth_error calls j = Some (chunk, Some meta) /\
    forall k chunk' meta',
      (j < k <= i)%nat -> nth_error calls k = Some (chunk', meta') -> meta' = None.

End Output.

Arguments Added {Chunk Meta} chunk meta.
Arguments Missing {Chunk Meta} message.
Arguments output {Chunk Meta} message held chunk meta.
Arguments outputs {Chunk Meta} message held calls.
Arguments noMetadata {Chunk Meta} calls i.
Arguments latestMetadata {Chunk Meta} calls i meta.

(** ** File names (lines 145-146 and 809)

    File names and MIME types are lists of characters, taken over ASCII:
    [toLowerCase] and the case folding of the [i] flag of a regular
    expression are then the ASCII ones. *)

From Stdlib Require Import Ascii.

Definition Name := list ascii.

Definition isUpper (c : ascii) : bool :=
  (65 <=? nat_of_ascii c)%nat && (nat_of_ascii c <=? 90)%nat.

Definition isLower (c : ascii) : bool :=
  (97 <=? nat_of_ascii c)%nat && (nat_of_ascii c <=? 122)%nat.

Definition lowerChar (c : ascii) : ascii :=
  if isUpper c then ascii_of_nat (nat_of_ascii c + 32) else c.

Definition upperChar (c : ascii) : ascii :=
  if isLower c then ascii_of_nat (nat_of_ascii c - 32) else c.

(** [s.toLowerCase()]. *)
Definition toLowerCase (s : Name) : Name := map lowerChar s.

Definition sameName (a b : Name) : bool :=
  if list_eq_dec ascii_dec a b then true else false.

(** [s.endsWith(suffix)]. *)
Definition endsWith (s suffix : Name) : bool :=
  (List.length suffix <=? List.length s)%nat
  && sameName (skipn (List.length s - List.length suffix) s) suffix.

(** [file.type === "video/webm" || file.name.toLowerCase().endsWith(".webm")]
    (lines 145-146). *)
Definition looksLikeWebm (type name : Name) : bool :=
  sameName type (list_ascii_of_string "video/webm")
  || endsWith (toLowerCase name) (list_ascii_of_string ".webm").

(** The error that [handleFile] leaves (lines 144-149): it is cleared, and
    set again when the file does not look like WebM. *)
Definition handleFileError (type name : Name) : option string :=
  if looksLikeWebm type name
  then None
  else Some "This file doesn't look like WebM, but we'll try converting it."%string.

(** [/\.webm$/i.test(name)]: the pattern is anchored at the end of the
    input, so it can only match the last five characters; under the [i]
    flag two characters match when their upper-case forms are equal. *)
Definition matchesWebm (name : Name) : bool :=
  (5 <=? List.length name)%nat
  && sameName (map upperChar (skipn (List.length name - 5) name))
       (list_ascii_of_string ".WEBM").

(** [name.replace(/\.webm$/i, ".mp4")]: the match, if any, is replaced. *)
Definition replaceWebm (name : Name) : Name :=
  if matchesWebm name
  then firstn (List.length name - 5) name ++ list_ascii_of_string ".mp4"
  else name.

(** The [download] attribute of the link (line 809). *)
Definition downloadName (inputFile : option Name) : Name :=
  match inputFile with
  | Some name => replaceWebm name
  | None => list_ascii_of_string "video.mp4"
  end.

(** ** [formatDuration] (lines 65-70) *)

From Stdlib Require Import DecimalString.

(** A number that may not be finite. *)
Inductive Num :=
| Finite (q : Q)
| NaN
| Infinite (negative : bool).

(** [!!x]: zero and [NaN] are falsy. *)
Definition truthyNum (x : Num) : bool :=
  match x with
  | Finite q => JS.truthy q
  | NaN => false
  | Infinite _ => true
  end.

(** [Number.isFinite(x)]. *)
Definition isFinite (x : Num) : bool :=
  match x with
  | Finite _ => true
  | _ => false
  end.

(** The integer part of a number, towards zero. *)
Definition trunc (x : Q) : Z := Z.quot (Qnum x) (Zpos (Qden x)).

(** [a % b] on numbers: the sign follows the dividend. *)
Definition remainderQ (a b : Q) : Q := a - b * inject_Z (trunc (a / b)).

(** [z.toString()] for an integer that prints without an exponent. *)
Definition toStringZ (z : Z) : string := NilZero.string_of_int (Z.to_int z).

(** [s.padStart(width, fill)] for a one-character [fill]. *)
Definition padStart (width : nat) (fill : string) (s : string) : string :=
  (String.concat "" (repeat fill (width - String.length s)) ++ s)%string.

(** What [formatDuration] shows: the dash, or [`${minutes}:${remainder}`]
    with the remainder already padded. *)
Inductive Shown :=
| Dash
| Clock (minutes : Z) (remainder : string).

Definition formatDuration (seconds : option Num) : Shown :=
  match seconds with
  | None => Dash
  | Some x =>
      if negb (truthyNum x) || negb (isFinite x) then Dash
      else
        match x with
        | Finite q =>
            Clock (JS.floor (q / 60))
                  (padStart 2 "0" (toStringZ (JS.floor (remainderQ q 60))))
        | _ => Dash
        end
  end.

(** ** The state of the page and its handlers (lines 101-171, 237-242,
    560-574)

    The handlers only call setters with values, so the state after a
    handler is the state with each field at the last value set. An object
    URL is the number the platform gave it. *)

Module Page.

Record File := {
  name : Name;
  type : Name
}.

Record t := {
  inputFile : option File;
  inputUrl : option nat;
  outputUrl : option nat;
  outputSize : option Q;
  duration : option Num;
  isDragging : bool;
  progress : option Z;
  status : string;
  error : option string
}.

(** The state when the component mounts (lines 102-110). *)
Definition initial : t :=
  {| inputFile := None; inputUrl := None; outputUrl := None; outputSize := None;
     duration := None; isDragging := false; progress := None;
     status := "Ready"; error := None |}.

(** [resetOutput] (lines 136-140). *)
Definition resetOutput (p : t) : t :=
  {| inputFile := inputFile p; inputUrl := inputUrl p; outputUrl := None;
     outputSize := None; duration := duration p; isDragging := isDragging p;
     progress := None; status := status p; error := error p |}.

(** [handleFile] (lines 142-156); [url] is what [URL.createObjectURL]
    returns. *)
Definition handleFile (file : File) (url : nat) (p : t) : t :=
  let p1 := resetOutput p in
  {| inputFile := Some file; inputUrl := Some url; outputUrl := outputUrl p1;
     outputSize := outputSize p1; duration := duration p1;
     isDragging := isDragging p1; progress := progress p1;
     status := "Ready to convert";
     error := handleFileError (type file) (name file) |}.

(** [handleFileInput] (lines 158-162): [files?.[0]]. *)
Definition handleFileInput (files : list File) (url : nat) (p : t) : t :=
  match files with
  | [] => p
  | file :: _ => handleFile file url p
  end.

(** [handleDrop] (lines 164-171). *)
Definition handleDrop (files : list File) (url : nat) (p : t) : t :=
  let p1 :=
    {| inputFile := inputFile p; inputUrl := inputUrl p; outputUrl := outputUrl p;
       outputSize := outputSize p; duration := duration p; isDragging := false;
       progress := progress p; status := status p; error := error p |} in
  match files with
  | [] => p1
  | file :: _ => handleFile file url p1
  end.

(** [handleClear] (lines 560-567). *)
Definition handleClear (p : t) : t :=
  let p1 := resetOutput p in
  {| inputFile := None; inputUrl := None; outputUrl := outputUrl p1;
     outputSize := outputSize p1; duration := None; isDragging := isDragging p1;
     progress := progress p1; status := "Ready"; error := None |}.

Definition setDuration (d : Num) (p : t) : t :=
  {| inputFile := inputFile p; inputUrl := inputUrl p; outputUrl := outputUrl p;
     outputSize := outputSize p; duration := Some d; isDragging := isDragging p;
     progress := progress p; status := status p; error := error p |}.

(** [onLoadedMetadata] of the preview (lines 569-574). *)
Definition onLoadedMetadata (videoDuration : Num) (p : t) : t :=
  if isFinite videoDuration then setDuration videoDuration p else p.

(** What [runConversion] does to the duration (lines 237-242):
    [durationSeconds] is the duration of the element when it is finite and
    the state otherwise, and it is stored when it is truthy and the state
    is not. *)
Definition durationSeconds (elementDuration : Num) (p : t) : option Num :=
  if isFinite elementDuration then Some elementDuration else duration p.

Definition truthyDuration (d : option Num) : bool :=
  match d with
  | Some x => truthyNum x
  | None => false
  end.

Definition storeDuration (elementDuration : Num) (p : t) : t :=
  match durationSeconds elementDuration p with
  | Some d =>
      if truthyNum d && negb (truthyDuration (duration p))
      then setDuration d p
      else p
  | None => p
  end.

(** What happens to the page. *)
Inductive Event :=
| FileInput (files : list File) (url : nat)
| Drop (files : list File) (url : nat)
| Clear
| LoadedMetadata (videoDuration : Num)
| Converting (elementDuration : Num).

Definition step (p : t) (e : Event) : t :=
  match e with
  | FileInput files url => handleFileInput files url p
  | Drop files url => handleDrop files url p
  | Clear => handleClear p
  | LoadedMetadata videoDuration => onLoadedMetadata videoDuration p
  | Converting elementDuration => storeDuration elementDuration p
  end.

(** The page after a sequence of events, from its mount. *)
Definition after (events : list Event) : t := fold_left step events initial.

(** The duration is missing or finite, and the file and its URL are there
    together. *)
Definition wellFormed (p : t) : Prop :=
  (duration p = None \/ exists q, duration p = Some (Finite q)) /\
  (inputFile p = None <-> inputUrl p = None).

End Page.
Section Rules.

Context {A B : Type}.

Lemma hoare_ret (P : St -> Prop) (a : A) Q E :
  (forall s, P s -> Q a s) -> hoare P (ret a) Q E.
Proof. intros H s HP. simpl. auto. Qed.

Lemma hoare_bind (P : St -> Prop) (m : M A) (k : A -> M B) Q R E :
  hoare P m Q E -> (forall a, hoare (Q a) (k a) R E) -> hoare P (bind m k) R E.
Proof.
  intros Hm Hk s HP. unfold bind. specialize (Hm s HP).
  destruct (m s) as [[a | e] s']; [apply (Hk a s' Hm) | exact Hm].
Qed.

Lemma hoare_conseq (P P' : St -> Prop) (m : M A) (Q Q' : A -> St -> Prop)
    (E E' : JS.Thrown -> St -> Prop) :
  hoare P m Q E ->
  (forall s, P' s -> P s) ->
  (forall a s, Q a s -> Q' a s) ->
  (forall e s, E e s -> E' e s) ->
  hoare P' m Q' E'.
Proof.
  intros Hm HP HQ HE s HP'. specialize (Hm s (HP s HP')).
  destruct (m s) as [[a | e] s']; auto.
Qed.

Lemma hoare_and (P P' : St -> Prop) (m : M A) (Q Q' : A -> St -> Prop)
    (E E' : JS.Thrown -> St -> Prop) :
  hoare P m Q E -> hoare P' m Q' E' ->
  hoare (fun s => P s /\ P' s) m (fun a s => Q a s /\ Q' a s)
        (fun e s => E e s /\ E' e s).
Proof.
  intros H H' s [HP HP']. specialize (H s HP). specialize (H' s HP').
  destruct (m s) as [[a | e] s']; auto.
Qed.

Lemma hoare_false (m : M A) Q E : hoare (fun _ => False) m Q E.
Proof. intros s []. Qed.

Lemma hoare_throw (P : St -> Prop) (message : string) (Q : A -> St -> Prop) E :
  (forall s, P s -> E (JS.Error message) s) -> hoare P (throw message) Q E.
Proof. intros H s HP. simpl. auto. Qed.

Lemma hoare_reject (P : St -> Prop) (e : JS.Thrown) (Q : A -> St -> Prop) E :
  (forall s, P s -> E e s) -> hoare P (reject e) Q E.
Proof. intros H s HP. simpl. auto. Qed.

Lemma hoare_gets (P : St -> Prop) (f : St -> A) Q E :
  (forall s, P s -> Q (f s) s) -> hoare P (gets f) Q E.
Proof. intros H s HP. simpl. auto. Qed.

End Rules.

Lemma hoare_modify (P : St -> Prop) (f : St -> St) Q E :
  (forall s, P s -> Q tt (f s)) -> hoare P (modify f) Q E.
Proof. intros H s HP. simpl. auto. Qed.

Lemma hoare_emit (P : St -> Prop) (a : Action) Q E :
  (forall s, P s -> Q tt (withTrace (trace s ++ [a]) s)) -> hoare P (emit a) Q E.
Proof. intros H. apply hoare_modify. exact H. Qed.

Section Invariants.

Variable I : St -> Prop.

Lemma inv_ret {A : Type} (a : A) : inv I (ret a).
Proof. apply hoare_ret. auto. Qed.

Lemma inv_bind {A B : Type} (m : M A) (k : A -> M B) :
  inv I m -> (forall a, inv I (k a)) -> inv I (bind m k).
Proof. intros Hm Hk. eapply hoare_bind; [exact Hm | exact Hk]. Qed.

Lemma inv_throw {A : Type} (message : string) : inv I (@throw A message).
Proof. apply hoare_throw. auto. Qed.

Lemma inv_reject {A : Type} (e : JS.Thrown) : inv I (@reject A e).
Proof. apply hoare_reject. auto. Qed.

Lemma inv_gets {A : Type} (f : St -> A) : inv I (gets f).
Proof. apply hoare_gets. auto. Qed.

Lemma inv_modify (f : St -> St) : (forall s, I s -> I (f s)) -> inv I (modify f).
Proof. intros H. apply hoare_modify. exact H. Qed.

Lemma inv_emit (a : Action) :
  (forall s, I s -> I (withTrace (trace s ++ [a]) s)) -> inv I (emit a).
Proof. intros H. apply hoare_emit. exact H. Qed.

Lemma inv_when (b : bool) (m : M unit) : inv I m -> inv I (when b m).
Proof. intros H. destruct b; [exact H | apply inv_ret]. Qed.

Lemma inv_forEach {A : Type} (body : A -> M unit) (l : list A) :
  (forall x, inv I (body x)) -> inv I (forEach body l).
Proof.
  intros H. induction l as [| x rest IH]; simpl.
  - apply inv_ret.
  - apply inv_bind; [apply H | intros _; exact IH].
Qed.

(** The state that [m] leaves is in [I] when the one it starts from is. *)
Lemma inv_snd {A : Type} (m : M A) (s : St) : inv I m -> I s -> I (snd (m s)).
Proof.
  intros H HI. specialize (H s HI). destruct (m s) as [[a | e] s']; exact H.
Qed.

End Invariants.

Section Results.

Lemma returns_ret {A : Type} (a : A) (Q : A -> Prop) E : Q a -> returns (ret a) Q E.
Proof. intros H. apply hoare_ret. auto. Qed.

Lemma returns_bind {A B : Type} (m : M A) (k : A -> M B) (Q : A -> Prop)
    (R : B -> Prop) E :
  returns m Q E -> (forall a, Q a -> returns (k a) R E) -> returns (bind m k) R E.
Proof.
  intros Hm Hk. eapply hoare_bind; [exact Hm |].
  intros a s Ha. apply (Hk a Ha s I).
Qed.

Lemma returns_weaken {A : Type} (m : M A) (Q Q' : A -> Prop) (E E' : JS.Thrown -> Prop) :
  returns m Q E -> (forall a, Q a -> Q' a) -> (forall e, E e -> E' e) ->
  returns m Q' E'.
Proof. intros H HQ HE. eapply hoare_conseq; [exact H | auto | auto | auto]. Qed.

Lemma returns_throw {A : Type} (message : string) (Q : A -> Prop) (E : JS.Thrown -> Prop) :
  E (JS.Error message) -> returns (@throw A message) Q E.
Proof. intros H. apply hoare_throw. auto. Qed.

Lemma returns_reject {A : Type} (e : JS.Thrown) (Q : A -> Prop) (E : JS.Thrown -> Prop) :
  E e -> returns (@reject A e) Q E.
Proof. intros H. apply hoare_reject. auto. Qed.

Lemma total_ret {A : Type} (a : A) : total (ret a).
Proof. apply returns_ret. exact I. Qed.

Lemma total_bind {A B : Type} (m : M A) (k : A -> M B) :
  total m -> (forall a, total (k a)) -> total (bind m k).
Proof. intros Hm Hk. eapply returns_bind; [exact Hm | intros a _; apply Hk]. Qed.

Lemma total_gets {A : Type} (f : St -> A) : total (gets f).
Proof. apply hoare_gets. auto. Qed.

Lemma total_modify (f : St -> St) : total (modify f).
Proof. apply hoare_modify. auto. Qed.

Lemma total_when (b : bool) (m : M unit) : total m -> total (when b m).
Proof. intros H. destruct b; [exact H | apply total_ret]. Qed.

Lemma total_forEach {A : Type} (body : A -> M unit) (l : list A) :
  (forall x, total (body x)) -> total (forEach body l).
Proof.
  intros H. induction l as [| x rest IH]; simpl.
  - apply total_ret.
  - apply total_bind; [apply H | intros _; exact IH].
Qed.

(** A computation that cannot throw returns. *)
Lemma total_ok {A : Type} (m : M A) (s : St) : total m -> exists a, fst (m s) = Ok a.
Proof.
  intros H. specialize (H s I). destruct (m s) as [[a | e] s']; [exists a; reflexivity | contradiction].
Qed.

(** A total computation in front changes neither the result nor what is
    thrown behind it. *)
Lemma returns_after {A B : Type} (m : M A) (k : A -> M B) (R : B -> Prop) E :
  total m -> (forall a, returns (k a) R E) -> returns (bind m k) R E.
Proof.
  intros Hm Hk. eapply returns_bind with (Q := fun _ => True).
  - eapply returns_weaken; [exact Hm | auto | intros e []].
  - intros a _. apply Hk.
Qed.

End Results.

(** Structural steps shared by the proofs below. [leaf] closes what is
    particular to the invariant at hand. *)
Ltac inv_step leaf :=
  lazymatch goal with
  | |- inv _ (ret _) => apply inv_ret
  | |- inv _ (bind _ _) => apply inv_bind; [ | intros ? ]
  | |- inv _ (throw _) => apply inv_throw
  | |- inv _ (reject _) => apply inv_reject
  | |- inv _ (gets _) => apply inv_gets
  | |- inv _ (when _ _) => apply inv_when
  | |- inv _ (forEach _ _) => apply inv_forEach; intros ?
  | |- inv _ (modify _) => apply inv_modify; leaf
  | |- inv _ (emit _) => apply inv_emit; leaf
  | |- inv _ (setStatus _) => apply inv_emit; leaf
  | |- inv _ (setError _) => apply inv_emit; leaf
  | |- inv _ (if ?b then _ else _) => destruct b
  | |- inv _ (match ?x with _ => _ end) => destruct x
  | |- inv _ (let _ := _ in _) => cbv zeta
  end.

Ltac inv_auto special leaf := repeat first [ special | inv_step leaf ].

Ltac fold_inv :=
  match goal with |- hoare ?I ?m _ _ => change (inv I m) end.

Ltac total_step :=
  lazymatch goal with
  | |- total (ret _) => apply total_ret
  | |- total (bind _ _) => apply total_bind; [ | intros ? ]
  | |- total (gets _) => apply total_gets
  | |- total (when _ _) => apply total_when
  | |- total (forEach _ _) => apply total_forEach; intros ?
  | |- total (modify _) => apply total_modify
  | |- total (emit _) => apply total_modify
  | |- total (setStatus _) => apply total_modify
  | |- total (setError _) => apply total_modify
  | |- total (if ?b then _ else _) => destruct b
  | |- total (match ?x with _ => _ end) => destruct x
  | |- total (let _ := _ in _) => cbv zeta
  end.

Lemma returns_total {A : Type} (m : M A) (E : JS.Thrown -> Prop) :
  total m -> returns m (fun _ => True) E.
Proof. intros H. eapply returns_weaken; [exact H | auto | intros e []]. Qed.

Ltac returns_step :=
  lazymatch goal with
  | |- returns (ret _) _ _ => apply returns_ret
  | |- returns (bind _ _) _ _ =>
      eapply returns_bind with (Q := fun _ => True); [ | intros ? _ ]
  | |- returns (throw _) _ _ => apply returns_throw
  | |- returns (reject _) _ _ => apply returns_reject
  | |- returns (if ?b then _ else _) _ _ => destruct b
  | |- returns (match ?x with _ => _ end) _ _ => destruct x
  | |- returns (let _ := _ in _) _ _ => cbv zeta
  | |- returns _ (fun _ => True) _ => apply returns_total; repeat total_step
  end.

(** ** Arithmetic of the derived parameters *)


Lemma round_inject_Z (z : Z) : JS.round (inject_Z z) = z.
Proof.
  unfold JS.round. apply Z.le_antisymm.
  - apply Z.lt_succ_r. rewrite Zlt_Qlt.
    apply Qle_lt_trans with (inject_Z z + (1 # 2))%Q; [apply Qfloor_le |].
    unfold Z.succ. rewrite inject_Z_plus. change (inject_Z 1) with 1%Q. lra.
  - rewrite <- (Qfloor_Z z) at 1. apply Qfloor_resp_le. lra.
Qed.







Lemma rem_zero_divide (count interval : Z) :
  0 < interval -> 0 <= count ->
  ((JS.rem count interval =? 0) = true <-> (interval | count)).
Proof.
  intros Hi Hc. unfold JS.rem. rewrite Z.eqb_eq.
  rewrite Z.rem_mod_nonneg by lia.
  split.
  - intros H. apply Z.mod_divide; [lia | exact H].
  - intros H. apply Z.mod_divide in H; [exact H | lia].
Qed.

(** ** Negotiation *)

Lemma chooseVideoConfig_none isConfigSupported candidates :
  chooseVideoConfig isConfigSupported candidates = None <->
  Forall (unsupported isConfigSupported) candidates.
Proof.
  unfold unsupported. induction candidates as [| c rest IH]; simpl.
  - split; [constructor | reflexivity].
  - destruct (VideoEncoderSupport.supported (isConfigSupported c)) eqn:Hc.
    + split; [discriminate |]. intros H. inversion H; subst. congruence.
    + rewrite IH. split.
      * intros H. constructor; assumption.
      * intros H. inversion H; assumption.
Qed.

Lemma chooseVideoConfig_some isConfigSupported candidates chosen :
  chooseVideoConfig isConfigSupported candidates = Some chosen <->
  exists before candidate after,
    candidates = before ++ candidate :: after /\
    Forall (unsupported isConfigSupported) before /\
    VideoEncoderSupport.supported (isConfigSupported candidate) = true /\
    chosen = JS.nullish (VideoEncoderSupport.config (isConfigSupported candidate)) candidate.
Proof.
  unfold unsupported. induction candidates as [| c rest IH]; simpl.
  - split; [discriminate |].
    intros (before & candidate & after & H & _). destruct before; discriminate.
  - destruct (VideoEncoderSupport.supported (isConfigSupported c)) eqn:Hc.
    + split.
      * intros H. injection H as <-. exists [], c, rest. repeat split; auto.
      * intros (before & candidate & after & H & Hb & Hs & ->).
        destruct before as [| b before]; simpl in H; injection H as -> ->.
        -- reflexivity.
        -- inversion Hb; subst. congruence.
    + rewrite IH. split.
      * intros (before & candidate & after & -> & Hb & Hs & ->).
        exists (c :: before), candidate, after. repeat split; auto.
      * intros (before & candidate & after & H & Hb & Hs & ->).
        destruct before as [| b before]; simpl in H; injection H as -> ->.
        -- congruence.
        -- inversion Hb; subst. exists before, candidate, after. repeat split; auto.
Qed.

Lemma chooseVideoConfig_ext f g candidates :
  (forall c, In c candidates -> g c = f c) ->
  chooseVideoConfig g candidates = chooseVideoConfig f candidates.
Proof.
  induction candidates as [| c rest IH]; intros H; simpl; [reflexivity |].
  rewrite (H c (or_introl eq_refl)).
  destruct (VideoEncoderSupport.supported (f c)); [reflexivity |].
  apply IH. intros c' Hc'. apply H. right. exact Hc'.
Qed.

(** ** Which phases can throw, and what they return *)

Lemma total_setProgress f : total (setProgress f).
Proof. unfold setProgress. repeat total_step. Qed.

Lemma total_updateProgress d ts : total (updateProgress d ts).
Proof.
  unfold updateProgress.
  repeat first [apply total_setProgress | total_step].
Qed.

Lemma total_videoStep ctx frame : total (videoStep ctx frame).
Proof.
  unfold videoStep, encodeVideo.
  repeat first [apply total_updateProgress | total_step].
Qed.

Lemma total_audioStep ctx data : total (audioStep ctx data).
Proof.
  unfold audioStep, encodeAudio.
  repeat first [apply total_updateProgress | total_step].
Qed.

Lemma total_audioTaskStart ctx : total (audioTaskStart ctx).
Proof.
  unfold audioTaskStart, encodeAudio.
  repeat first [apply total_updateProgress | total_step].
Qed.

Lemma total_handleEvent ctx tasks e : total (handleEvent ctx tasks e).
Proof.
  unfold handleEvent.
  repeat first [apply total_updateProgress | apply total_videoStep
               | apply total_audioStep | total_step].
Qed.

Lemma total_analyzeAudio env p : total (analyzeAudio env p).
Proof. unfold analyzeAudio. repeat total_step. Qed.

Lemma total_negotiateAudio cfg env p : total (negotiateAudio cfg env p).
Proof. unfold negotiateAudio. repeat total_step. Qed.

Lemma total_finalize : total finalize.
Proof. unfold finalize. repeat first [apply total_setProgress | total_step]. Qed.

Lemma total_catchBlock e : total (catchBlock e).
Proof. unfold catchBlock. repeat total_step. Qed.

Lemma total_finallyBlock env : total (finallyBlock env).
Proof. unfold finallyBlock, stopProgressTimer. repeat total_step. Qed.

Lemma total_prologue env : total (prologue env).
Proof.
  unfold prologue, resetOutput. repeat first [apply total_setProgress | total_step].
Qed.

Ltac total_auto :=
  repeat first
    [ apply total_setProgress | apply total_updateProgress | apply total_videoStep
    | apply total_audioStep | apply total_audioTaskStart | apply total_handleEvent
    | apply total_analyzeAudio | apply total_negotiateAudio | apply total_finalize
    | total_step ].

(** [encode] throws exactly when playback errors. *)
Lemma returns_encode env ctx :
  returns (encode env ctx)
    (fun _ => playbackEnded env = true)
    (fun e => playbackEnded env = false /\ e = JS.Error "Playback failed.").
Proof.
  unfold encode.
  apply returns_after; [total_auto | intros _].
  apply returns_after; [total_auto | intros _].
  apply returns_after; [total_auto | intros _].
  apply returns_after; [total_auto | intros _].
  destruct (playbackEnded env).
  - apply returns_after; [total_auto | intros _].
    eapply returns_weaken with (Q := fun _ => True) (E := fun _ => False);
      [| auto | intros e []].
    match goal with |- returns ?m _ _ => change (total m) end.
    total_auto.
  - eapply returns_bind with (Q := fun _ => False); [| intros ? []].
    apply returns_throw. auto.
Qed.

(** [configureEncoders] throws exactly when no candidate is supported. *)
Lemma returns_configureEncoders cfg env v p :
  returns (configureEncoders cfg env v p)
    (fun ctx =>
       chooseVideoConfig (isVideoConfigSupported env) (videoConfigCandidates v cfg) <> None /\
       ctxDuration ctx = durationSeconds env /\
       ctxKeyInterval ctx = keyInterval v (speed cfg) /\
       ctxAudioEncoder ctx = ctxAudioEnabled ctx /\
       (includeAudioTrack p = false -> ctxAudioEnabled ctx = false))
    (fun e =>
       chooseVideoConfig (isVideoConfigSupported env) (videoConfigCandidates v cfg) = None /\
       e = JS.Error "H.264 encoding is not supported in this browser.").
Proof.
  unfold configureEncoders.
  apply returns_after; [total_auto | intros _].
  destruct (chooseVideoConfig _ _) as [chosen |].
  - eapply returns_bind with
      (Q := fun c => includeAudioTrack p = false -> c = None).
    + unfold negotiateAudio.
      destruct (audioSampleRate p) as [rate |], (audioChannels p) as [channels |];
        try (apply returns_ret; reflexivity).
      destruct (includeAudioTrack p); simpl.
      * eapply returns_weaken with (Q := fun _ => True) (E := fun _ => False);
          [| intros ? _ ?; discriminate | intros ? []].
        match goal with |- returns ?m _ _ => change (total m) end.
        total_auto.
      * apply returns_ret. reflexivity.
    + intros c Hc.
      apply returns_after; [total_auto | intros _].
      apply returns_after; [total_auto | intros _].
      apply returns_after; [total_auto | intros _].
      apply returns_ret. simpl. repeat split; try discriminate.
      intros Hp. rewrite (Hc Hp). reflexivity.
  - apply returns_throw. auto.
Qed.

(** When the run [opens], [openSource] returns the first video track and
    the audio variables as the track settings give them. *)
Lemma returns_openSource cfg env v :
  opens cfg env = true -> videoTrack env = Some v ->
  returns (openSource cfg env)
    (fun r => fst r = v /\ snd r = trackProbe cfg env)
    (fun _ => False).
Proof.
  unfold opens. intros Hopen Hv.
  repeat (apply andb_true_iff in Hopen; destruct Hopen as [Hopen ?]).
  unfold openSource. rewrite Hv.
  destruct (muxerImport env); [discriminate |].
  destruct (metadataLoads env), (captureStream env), (trackProcessor env),
    (playAllowed env); try discriminate.
  do 9 (apply returns_after; [total_auto | intros _]).
  apply returns_ret. split; reflexivity.
Qed.

(** [openSource] only ever returns the first video track. *)
Lemma returns_openSource_track cfg env :
  returns (openSource cfg env)
    (fun r => videoTrack env = Some (fst r))
    (fun _ => True).
Proof.
  unfold openSource.
  repeat (eapply returns_bind with (Q := fun _ => True);
          [repeat returns_step; exact I | intros ? _]).
  destruct (videoTrack env) as [v |]; [| apply returns_throw; exact I].
  repeat (eapply returns_bind with (Q := fun _ => True);
          [repeat returns_step; exact I | intros ? _]).
  apply returns_ret. reflexivity.
Qed.

(** How the [try] block ends once the run [opens]. *)
Lemma returns_tryBlock cfg env v :
  opens cfg env = true -> videoTrack env = Some v ->
  returns (tryBlock cfg env)
    (fun _ =>
       chooseVideoConfig (isVideoConfigSupported env) (videoConfigCandidates v cfg) <> None /\
       playbackEnded env = true)
    (fun e =>
       (chooseVideoConfig (isVideoConfigSupported env) (videoConfigCandidates v cfg) = None /\
        e = JS.Error "H.264 encoding is not supported in this browser.") \/
       (chooseVideoConfig (isVideoConfigSupported env) (videoConfigCandidates v cfg) <> None /\
        playbackEnded env = false /\ e = JS.Error "Playback failed.")).
Proof.
  intros Hopen Hv. unfold tryBlock.
  eapply returns_bind.
  { eapply returns_weaken; [apply (returns_openSource cfg env v Hopen Hv) | | intros e []].
    intros r Hr. exact Hr. }
  intros [v' p] [Hfst _]. cbn [fst snd] in *. subst v'.
  apply returns_after; [total_auto | intros probe].
  eapply returns_bind with
    (Q := fun _ => chooseVideoConfig (isVideoConfigSupported env)
                     (videoConfigCandidates v cfg) <> None).
  { eapply returns_weaken; [apply returns_configureEncoders | | ].
    - intros ctx Hctx. exact (proj1 Hctx).
    - intros e He. left. exact He. }
  intros ctx Hchosen.
  eapply returns_bind with (Q := fun _ => playbackEnded env = true).
  { eapply returns_weaken; [apply returns_encode | | ].
    - intros u Hended. exact Hended.
    - intros e [Hended He]. right. auto. }
  intros u Hended.
  eapply returns_weaken with (Q := fun _ => True) (E := fun _ => False);
    [| auto | intros e []].
  apply total_finalize.
Qed.

(** The outcome of a run that [opens]. *)
Lemma outcome_opens cfg env v s :
  opens cfg env = true -> videoTrack env = Some v ->
  fst (runConversion cfg env s) =
  match chooseVideoConfig (isVideoConfigSupported env) (videoConfigCandidates v cfg) with
  | None => Failed "H.264 encoding is not supported in this browser."
  | Some _ => if playbackEnded env then Succeeded else Failed "Playback failed."
  end.
Proof.
  intros Hopen Hv.
  pose proof (returns_tryBlock cfg env v Hopen Hv (snd (prologue env s)) I) as Htry.
  unfold opens in Hopen.
  repeat (apply andb_true_iff in Hopen; destruct Hopen as [Hopen ?]).
  unfold runConversion.
  destruct (inputFile env); [| discriminate].
  destruct (supportsVideoCodecs env); [| discriminate]. simpl negb. cbv iota.
  match goal with
  | H : negb (includeAudio cfg) || supportsAudioCodecs env = true |- _ =>
      assert (Hpre : includeAudio cfg && negb (supportsAudioCodecs env) = false)
        by (destruct (includeAudio cfg), (supportsAudioCodecs env); simpl in *; congruence)
  end.
  rewrite Hpre.
  destruct (tryBlock cfg env (snd (prologue env s))) as [[[] | e] s'].
  - destruct Htry as [Hchosen Hended]. cbn [fst]. rewrite Hended.
    destruct (chooseVideoConfig _ _); [reflexivity | congruence].
  - cbn [fst]. destruct Htry as [[Hchosen ->] | (Hchosen & Hended & ->)].
    + rewrite Hchosen. reflexivity.
    + rewrite Hended. destruct (chooseVideoConfig _ _); [reflexivity | congruence].
Qed.

(** A run only succeeds after a video configuration was chosen. *)
Lemma succeeded_chosen cfg env s :
  fst (runConversion cfg env s) = Succeeded ->
  exists v chosen,
    videoTrack env = Some v /\
    chooseVideoConfig (isVideoConfigSupported env) (videoConfigCandidates v cfg) = Some chosen.
Proof.
  assert (Htry : returns (tryBlock cfg env)
            (fun _ => exists v chosen, videoTrack env = Some v /\
               chooseVideoConfig (isVideoConfigSupported env) (videoConfigCandidates v cfg)
               = Some chosen)
            (fun _ => True)).
  { unfold tryBlock. eapply returns_bind; [apply returns_openSource_track |].
    intros [v p] Hv. cbn [fst snd] in *.
    eapply returns_bind with (Q := fun _ => True).
    { apply returns_total. apply total_analyzeAudio. }
    intros probe _.
    eapply returns_bind with
      (Q := fun _ => chooseVideoConfig (isVideoConfigSupported env)
                       (videoConfigCandidates v cfg) <> None).
    { eapply returns_weaken; [apply returns_configureEncoders | | auto].
      intros ctx Hctx. exact (proj1 Hctx). }
    intros ctx Hchosen.
    eapply returns_weaken with (Q := fun _ => True) (E := fun _ => True); [| | auto].
    - eapply returns_bind with (Q := fun _ => True); [| intros ? _].
      + eapply returns_weaken; [apply returns_encode | auto | auto].
      + apply returns_total. apply total_finalize.
    - intros _ _. exists v.
      destruct (chooseVideoConfig _ _) as [chosen |]; [eauto | congruence]. }
  unfold runConversion.
  destruct (negb (inputFile env)); [discriminate |].
  destruct (negb (supportsVideoCodecs env)); [discriminate |].
  destruct (includeAudio cfg && negb (supportsAudioCodecs env)); [discriminate |].
  specialize (Htry (snd (prologue env s)) I).
  destruct (tryBlock cfg env (snd (prologue env s))) as [[[] | e] s'].
  - intros _. exact Htry.
  - discriminate.
Qed.

(** ** Progress *)

Lemma progressLog_app (t1 t2 : list Action) :
  progressLog (t1 ++ t2) = progressLog t1 ++ progressLog t2.
Proof. apply flat_map_app. Qed.

Lemma StronglySorted_snoc (l : list Z) (x : Z) :
  StronglySorted Z.le l -> Forall (fun y => y <= x) l -> StronglySorted Z.le (l ++ [x]).
Proof.
  induction l as [| y l IH]; intros Hs Hall; simpl.
  - constructor; constructor.
  - inversion Hs; subst. inversion Hall; subst. constructor.
    + apply IH; assumption.
    + apply Forall_app. split; [assumption | constructor; [assumption | constructor]].
Qed.

(** What is particular to an invariant that only reads [progress] and the
    [SetProgress] entries of the trace. *)
Ltac progress_leaf I :=
  let s := fresh "s" in
  let H := fresh "H" in
  intros s H;
  first
    [ exact H
    | unfold I in *; cbn [progress trace withTrace];
      rewrite progressLog_app; cbn [progressLog flat_map app];
      rewrite app_nil_r; exact H ].

Lemma ordered_setProgress (f : option Z -> option Z) :
  (forall p, reported p <= 100 -> reported p <= reported (f p) /\ reported (f p) <= 100) ->
  inv progressOrdered (setProgress f).
Proof.
  intros Hf s (Hsorted & Hall & Hmax).
  destruct (Hf (progress s) Hmax) as [Hup Hbound].
  unfold setProgress, bind, gets, modify, emit, progressOrdered; cbn.
  rewrite progressLog_app; cbn [progressLog flat_map app].
  assert (Hall' : Forall (fun p => reported p <= reported (f (progress s)))
                    (progressLog (trace s))).
  { eapply Forall_impl; [| exact Hall]. intros p Hp. cbn beta in Hp. lia. }
  repeat split.
  - rewrite map_app. apply StronglySorted_snoc; [exact Hsorted |].
    rewrite Forall_map. exact Hall'.
  - apply Forall_app. split; [exact Hall' |].
    constructor; [lia | constructor].
  - exact Hbound.
Qed.

Lemma percentOfTime_le (t d : Q) : percentOfTime t d <= 100.
Proof. unfold percentOfTime. lia. Qed.

Lemma ordered_updateProgress d ts : inv progressOrdered (updateProgress d ts).
Proof.
  unfold updateProgress.
  inv_auto
    ltac:(apply ordered_setProgress; intros p Hp; unfold reported in *; cbn;
          match goal with |- context [percentOfTime ?t ?d] =>
            pose proof (percentOfTime_le t d) end; lia)
    ltac:(progress_leaf progressOrdered).
Qed.

Lemma updateProgress_unknown d ts :
  JS.truthyOpt d = false -> updateProgress d ts = ret tt.
Proof.
  intros H. unfold updateProgress. destruct d as [d |]; [| reflexivity].
  simpl in H. rewrite H. reflexivity.
Qed.

(** With a known duration an update reports the larger of the previous
    value and the new percentage. *)
Lemma updateProgress_max d ts s :
  JS.truthyOpt d = true ->
  exists pct,
    pct <= 100 /\
    progress (snd (updateProgress d ts s)) = Some (Z.max (reported (progress s)) pct).
Proof.
  intros H. destruct d as [d |]; [| discriminate]. simpl in H.
  unfold updateProgress. rewrite H.
  destruct ts as [ts |].
  - destruct (progressOffsetUs s) as [offset |] eqn:Hoff.
    + exists (percentOfTime (Qmax 0 (inject_Z (ts - offset) / 1000000)) d).
      split; [apply percentOfTime_le |].
      unfold bind, gets, when, ret, setProgress, modify, emit. cbn. rewrite Hoff. cbn.
      rewrite Hoff. reflexivity.
    + exists (percentOfTime (Qmax 0 (inject_Z (ts - ts) / 1000000)) d).
      split; [apply percentOfTime_le |].
      unfold bind, gets, when, ret, setProgress, modify, emit. cbn. rewrite Hoff. cbn.
      reflexivity.
  - exists (percentOfTime (currentTime s) d).
    split; [apply percentOfTime_le | reflexivity].
Qed.

(** Unfolds the phases of a run down to the primitives of [M]. *)
Ltac unfold_phases :=
  unfold tryBlock, openSource, analyzeAudio, configureEncoders, negotiateAudio,
    encode, finalize, catchBlock, finallyBlock, stopProgressTimer, prologue,
    resetOutput, handleEvent, audioTaskStart, videoStep, audioStep,
    encodeVideo, encodeAudio.

Ltac ordered_auto :=
  inv_auto
    ltac:(first [ apply ordered_updateProgress
                | apply ordered_setProgress; intros ? ?; unfold reported in *; cbn; lia ])
    ltac:(progress_leaf progressOrdered).

Lemma ordered_tryBlock cfg env : inv progressOrdered (tryBlock cfg env).
Proof. unfold_phases. ordered_auto. Qed.

Lemma ordered_catchBlock e : inv progressOrdered (catchBlock e).
Proof. unfold_phases. ordered_auto. Qed.

Lemma ordered_finallyBlock env : inv progressOrdered (finallyBlock env).
Proof. unfold_phases. ordered_auto. Qed.

(** After the prologue nothing is reported, whatever was before. *)
Lemma prologue_unreported env previous :
  unreported (snd (prologue env (initialSt previous))).
Proof.
  unfold prologue, resetOutput, setProgress, setError, emit, modify, gets, when, bind, ret.
  destruct (inputUrl env); split; reflexivity.
Qed.

Lemma unreported_ordered s : unreported s -> progressOrdered s.
Proof.
  intros [Hp Hlog]. unfold progressOrdered. rewrite Hp, Hlog. cbn.
  repeat split;
    repeat first [ apply SSorted_cons | apply SSorted_nil
                 | apply Forall_cons | apply Forall_nil
                 | (unfold reported; cbn; lia) ].
Qed.

(** The three ways a call of [runConversion] goes. *)
Lemma runConversion_cases cfg env s :
  (fst (runConversion cfg env s) = NotStarted /\
   (snd (runConversion cfg env s) = s \/
    exists message,
      snd (runConversion cfg env s) = withTrace (trace s ++ [SetError message]) s)) \/
  (exists s',
     fst (tryBlock cfg env (snd (prologue env s))) = Ok tt /\
     s' = snd (tryBlock cfg env (snd (prologue env s))) /\
     runConversion cfg env s = (Succeeded, snd (finallyBlock env s'))) \/
  (exists e s',
     fst (tryBlock cfg env (snd (prologue env s))) = Throw e /\
     s' = snd (tryBlock cfg env (snd (prologue env s))) /\
     runConversion cfg env s
     = (Failed (errorMessage e), snd ((catchBlock e ;; finallyBlock env) s'))).
Proof.
  unfold runConversion.
  destruct (negb (inputFile env)).
  { left. split; [reflexivity | left; reflexivity]. }
  destruct (negb (supportsVideoCodecs env)).
  { left. split; [reflexivity | right; eexists; reflexivity]. }
  destruct (includeAudio cfg && negb (supportsAudioCodecs env)).
  { left. split; [reflexivity | right; eexists; reflexivity]. }
  right.
  destruct (tryBlock cfg env (snd (prologue env s))) as [[[] | e] s'].
  - left. exists s'. auto.
  - right. exists e, s'. auto.
Qed.

(** A run that is refused before its [try] reports nothing. *)
Lemma notStarted_log cfg env s :
  fst (runConversion cfg env s) = NotStarted ->
  progressLog (trace (snd (runConversion cfg env s))) = progressLog (trace s).
Proof.
  intros Hnot.
  destruct (runConversion_cases cfg env s)
    as [(_ & [-> | [message ->]]) | [(s' & _ & _ & Hrun) | (e & s' & _ & _ & Hrun)]];
    try (rewrite Hrun in Hnot; discriminate).
  - reflexivity.
  - cbn [trace withTrace]. rewrite progressLog_app. cbn. apply app_nil_r.
Qed.

(** [finalize] reports 100 last. *)
Lemma finalize_finished : hoare (fun _ => True) finalize (fun _ => finished) (fun _ _ => True).
Proof.
  intros s _. unfold finalize, setStatus, setProgress, emit, modify, gets, bind.
  cbn -[progressLog].
  split; [reflexivity |].
  cbn [trace withTrace].
  rewrite progressLog_app. cbn [progressLog flat_map app]. eauto.
Qed.

Lemma hoare_last {A B : Type} (m : M A) (k : A -> M B) (Q : B -> St -> Prop) :
  (forall a, hoare (fun _ => True) (k a) Q (fun _ _ => True)) ->
  hoare (fun _ => True) (bind m k) Q (fun _ _ => True).
Proof.
  intros Hk. eapply hoare_bind with (Q := fun _ _ => True); [| exact Hk].
  intros s _. destruct (m s) as [[a | e] s']; exact I.
Qed.

Lemma tryBlock_finished cfg env :
  hoare (fun _ => True) (tryBlock cfg env) (fun _ => finished) (fun _ _ => True).
Proof.
  unfold tryBlock.
  do 4 (apply hoare_last; intros ?).
  apply finalize_finished.
Qed.

Lemma finished_finallyBlock env : inv finished (finallyBlock env).
Proof. unfold_phases. inv_auto fail ltac:(progress_leaf finished). Qed.

Lemma finished_last s :
  finished s -> last (progressLog (trace s)) None = Some 100.
Proof. intros [_ [earlier ->]]. apply last_last. Qed.

Lemma hoare_inv_returns {A : Type} (I : St -> Prop) (m : M A) (Q : A -> Prop)
    (E : JS.Thrown -> Prop) :
  inv I m -> returns m Q E -> hoare I m (fun a s => I s /\ Q a) (fun _ s => I s).
Proof.
  intros Hinv Hret.
  eapply hoare_conseq; [apply (hoare_and _ _ _ _ _ _ _ Hinv Hret) | | | ]; cbn.
  - intros s Hs. auto.
  - intros a s H. exact H.
  - intros e s [H _]. exact H.
Qed.

(** A bind whose continuation keeps [I] for the results that [m] can
    return. *)
Lemma inv_bind_returns {A B : Type} (I : St -> Prop) (m : M A) (k : A -> M B)
    (Q : A -> Prop) (E : JS.Thrown -> Prop) :
  inv I m -> returns m Q E -> (forall a, Q a -> inv I (k a)) -> inv I (bind m k).
Proof.
  intros Hinv Hret Hk.
  eapply hoare_bind; [apply (hoare_inv_returns I m Q E Hinv Hret) |].
  intros a s [Hs Ha]. apply (Hk a Ha s Hs).
Qed.

(** Nothing is executed behind a [throw]. *)
Lemma inv_bind_throw {A B : Type} (I : St -> Prop) (message : string) (k : A -> M B) :
  inv I (bind (throw message) k).
Proof. intros s Hs. exact Hs. Qed.

(** *** A run whose duration is not known *)

Ltac unreported_auto Hunknown :=
  inv_auto
    ltac:(idtac;
          match goal with
          | |- inv _ (updateProgress _ _) =>
              rewrite (updateProgress_unknown _ _ Hunknown)
          end)
    ltac:(progress_leaf unreported).

Lemma unreported_openSource cfg env : inv unreported (openSource cfg env).
Proof. unfold_phases. inv_auto fail ltac:(progress_leaf unreported). Qed.

Lemma unreported_analyzeAudio env p : inv unreported (analyzeAudio env p).
Proof. unfold_phases. inv_auto fail ltac:(progress_leaf unreported). Qed.

Lemma unreported_configureEncoders cfg env v p :
  inv unreported (configureEncoders cfg env v p).
Proof. unfold_phases. inv_auto fail ltac:(progress_leaf unreported). Qed.

Lemma unreported_encode env ctx :
  JS.truthyOpt (ctxDuration ctx) = false -> inv unreported (encode env ctx).
Proof.
  intros Hunknown. unfold_phases. rewrite Hunknown.
  unreported_auto Hunknown.
Qed.

Lemma unreported_catchBlock e : inv unreported (catchBlock e).
Proof. unfold_phases. inv_auto fail ltac:(progress_leaf unreported). Qed.

Lemma unreported_finallyBlock env : inv unreported (finallyBlock env).
Proof. unfold_phases. inv_auto fail ltac:(progress_leaf unreported). Qed.

Lemma completed_finallyBlock env : inv completed (finallyBlock env).
Proof. unfold_phases. inv_auto fail ltac:(progress_leaf completed). Qed.

Lemma unreported_finalize :
  hoare unreported finalize (fun _ => completed) (fun _ => unreported).
Proof.
  intros s [Hp Hlog]. unfold finalize, setStatus, setProgress, emit, modify, gets, bind.
  cbn -[progressLog]. split; [reflexivity |].
  cbn [trace withTrace].
  repeat rewrite progressLog_app. cbn [progressLog flat_map app].
  rewrite Hlog. reflexivity.
Qed.

Lemma unreported_tryBlock cfg env :
  JS.truthyOpt (durationSeconds env) = false ->
  hoare unreported (tryBlock cfg env) (fun _ => completed) (fun _ => unreported).
Proof.
  intros Hunknown. unfold tryBlock.
  eapply hoare_bind; [apply unreported_openSource | intros opened].
  eapply hoare_bind; [apply unreported_analyzeAudio | intros probe].
  eapply hoare_bind.
  { eapply hoare_inv_returns;
      [apply unreported_configureEncoders | apply returns_configureEncoders]. }
  intros ctx. cbn beta.
  eapply hoare_bind with (Q := fun _ => unreported); [| intros _; apply unreported_finalize].
  intros s [Hs (_ & Hd & _)].
  apply (unreported_encode env ctx); [rewrite Hd; exact Hunknown | exact Hs].
Qed.

(** *** The shape of the log *)

Lemma numbers_setProgress (f : option Z -> option Z) :
  (forall p, exists x, f p = Some x) -> inv numbersOnly (setProgress f).
Proof.
  intros Hf s (values & Hlog & Hlast).
  destruct (Hf (progress s)) as [x Hx].
  unfold setProgress, bind, gets, modify, emit, numbersOnly.
  cbn -[progressLog last]. cbn [trace withTrace progress withProgress].
  rewrite progressLog_app. cbn [progressLog flat_map app]. rewrite Hlog, Hx.
  exists (values ++ [x]). rewrite map_app. cbn [map]. split.
  - reflexivity.
  - symmetry. apply last_last.
Qed.

Ltac numbers_auto :=
  inv_auto
    ltac:(apply numbers_setProgress; intros ?; eexists; reflexivity)
    ltac:(progress_leaf numbersOnly).

Lemma numbers_tryBlock cfg env : inv numbersOnly (tryBlock cfg env).
Proof. unfold_phases. unfold updateProgress. numbers_auto. Qed.

Lemma numbers_catchBlock e : inv numbersOnly (catchBlock e).
Proof. unfold_phases. numbers_auto. Qed.

Lemma numbers_finallyBlock env : inv numbersOnly (finallyBlock env).
Proof. unfold_phases. numbers_auto. Qed.

Lemma unreported_numbers s : unreported s -> numbersOnly s.
Proof. intros [Hp Hlog]. exists []. rewrite Hp, Hlog. split; reflexivity. Qed.

Lemma sorted_numbers (values : list Z) :
  StronglySorted Z.le (map reported (Some 0 :: None :: map Some values)) ->
  StronglySorted Z.le values /\ Forall (fun x => 0 <= x) values.
Proof.
  rewrite !map_cons, map_map. cbn [reported JS.nullish].
  rewrite map_id. intros Hsorted.
  inversion Hsorted as [| ? ? Hrest Hall]; subst.
  inversion Hrest as [| ? ? Hvalues Hall']; subst.
  split; [exact Hvalues | exact Hall'].
Qed.

(** The state a run leaves satisfies what its three blocks keep. *)
Lemma runConversion_inv (I : St -> Prop) cfg env previous :
  I (snd (prologue env (initialSt previous))) ->
  inv I (tryBlock cfg env) ->
  (forall e, inv I (catchBlock e)) ->
  inv I (finallyBlock env) ->
  fst (runConversion cfg env (initialSt previous)) <> NotStarted ->
  I (snd (runConversion cfg env (initialSt previous))).
Proof.
  intros Hstart Htry Hcatch Hfinally Hstarted.
  destruct (runConversion_cases cfg env (initialSt previous))
    as [[Hnot _] | [(s' & _ & -> & ->) | (e & s' & _ & -> & ->)]].
  - contradiction.
  - cbn [snd]. apply inv_snd; [exact Hfinally |].
    apply inv_snd; [exact Htry | exact Hstart].
  - cbn [snd]. apply inv_snd.
    + apply inv_bind; [apply Hcatch | intros _; exact Hfinally].
    + apply inv_snd; [exact Htry | exact Hstart].
Qed.

Lemma ordered_bounded s :
  progressOrdered s -> Forall (fun p => reported p <= 100) (progressLog (trace s)).
Proof.
  intros (_ & Hall & Hmax). eapply Forall_impl; [| exact Hall].
  intros p Hp. cbn beta in Hp. lia.
Qed.

(** ** The keyframe cadence *)

Lemma videoSubmissions_app (t1 t2 : list Action) :
  videoSubmissions (t1 ++ t2) = videoSubmissions t1 ++ videoSubmissions t2.
Proof. apply flat_map_app. Qed.

Lemma audioSubmissions_app (t1 t2 : list Action) :
  audioSubmissions (t1 ++ t2) = audioSubmissions t1 ++ audioSubmissions t2.
Proof. apply flat_map_app. Qed.

Ltac schedule_leaf :=
  let s := fresh "s" in
  let H := fresh "H" in
  intros s H;
  first
    [ exact H
    | unfold onSchedule in *; cbn [videoFrameCount trace withTrace];
      rewrite videoSubmissions_app, audioSubmissions_app;
      cbn [videoSubmissions audioSubmissions flat_map app];
      rewrite !app_nil_r; exact H ].

Lemma schedule_setProgress interval f : inv (onSchedule interval) (setProgress f).
Proof. unfold setProgress. inv_auto fail schedule_leaf. Qed.

Lemma schedule_updateProgress interval d ts :
  inv (onSchedule interval) (updateProgress d ts).
Proof.
  unfold updateProgress. inv_auto ltac:(apply schedule_setProgress) schedule_leaf.
Qed.

Lemma schedule_encodeAudio interval data :
  inv (onSchedule interval) (encodeAudio data None).
Proof.
  intros s (Hcount & Hvideo & Haudio).
  unfold encodeAudio, emit, modify, bind, onSchedule.
  cbn -[videoSubmissions audioSubmissions]. cbn [trace withTrace].
  rewrite videoSubmissions_app, audioSubmissions_app.
  cbn [videoSubmissions audioSubmissions flat_map app]. rewrite app_nil_r.
  repeat split; [exact Hcount | exact Hvideo |].
  apply Forall_app. split; [exact Haudio | repeat constructor].
Qed.

(** The frame counted [count] goes out with the options scheduled for
    [count]. *)
Lemma schedule_videoStep ctx frame :
  inv (onSchedule (ctxKeyInterval ctx)) (videoStep ctx frame).
Proof.
  unfold videoStep.
  eapply hoare_bind with
    (Q := fun _ s =>
       1 <= videoFrameCount s /\
       videoSubmissions (trace s)
       = map (scheduledOptions (ctxKeyInterval ctx))
           (seq 1 (Z.to_nat (videoFrameCount s - 1))) /\
       Forall (fun options => options = None) (audioSubmissions (trace s))).
  { apply hoare_modify. intros s (Hcount & Hvideo & Haudio).
    cbn [videoFrameCount trace withVideoFrameCount].
    replace (videoFrameCount s + 1 - 1) with (videoFrameCount s) by lia.
    repeat split; [lia | exact Hvideo | exact Haudio]. }
  intros _.
  eapply hoare_bind with
    (Q := fun count s =>
       count = videoFrameCount s /\
       1 <= videoFrameCount s /\
       videoSubmissions (trace s)
       = map (scheduledOptions (ctxKeyInterval ctx))
           (seq 1 (Z.to_nat (videoFrameCount s - 1))) /\
       Forall (fun options => options = None) (audioSubmissions (trace s))).
  { apply hoare_gets. intros s H. split; [reflexivity | exact H]. }
  intros count.
  eapply hoare_bind with (Q := fun _ => onSchedule (ctxKeyInterval ctx)).
  { intros s (-> & Hcount & Hvideo & Haudio).
    unfold encodeVideo, emit, modify, bind, onSchedule.
    cbn -[videoSubmissions audioSubmissions]. cbn [trace withTrace videoFrameCount].
    rewrite videoSubmissions_app, audioSubmissions_app.
    cbn [videoSubmissions audioSubmissions flat_map app]. rewrite app_nil_r.
    repeat split; [lia | | exact Haudio].
    rewrite Hvideo.
    replace (Z.to_nat (videoFrameCount s))
      with (S (Z.to_nat (videoFrameCount s - 1))) by lia.
    rewrite seq_S, map_app. cbn [map]. unfold scheduledOptions at 3.
    replace (Z.of_nat (1 + Z.to_nat (videoFrameCount s - 1)))
      with (videoFrameCount s) by lia.
    reflexivity. }
  intros _. fold_inv.
  inv_auto ltac:(apply schedule_updateProgress) schedule_leaf.
Qed.

Lemma schedule_handleEvent ctx tasks e :
  inv (onSchedule (ctxKeyInterval ctx)) (handleEvent ctx tasks e).
Proof.
  unfold handleEvent, audioStep.
  inv_auto
    ltac:(first [ apply schedule_videoStep | apply schedule_encodeAudio
                | apply schedule_updateProgress ])
    schedule_leaf.
Qed.

Ltac schedule_auto :=
  inv_auto
    ltac:(first [ apply schedule_handleEvent | apply schedule_encodeAudio
                | apply schedule_updateProgress | apply schedule_setProgress ])
    schedule_leaf.

Lemma schedule_encode env ctx : inv (onSchedule (ctxKeyInterval ctx)) (encode env ctx).
Proof. unfold encode, audioTaskStart. schedule_auto. Qed.

Lemma schedule_tryBlock cfg env v :
  videoTrack env = Some v ->
  inv (onSchedule (keyInterval v (speed cfg))) (tryBlock cfg env).
Proof.
  intros Hv. unfold tryBlock.
  eapply inv_bind_returns;
    [unfold openSource; schedule_auto | apply returns_openSource_track |].
  intros [v' p] Hv'. cbn [fst snd] in *.
  assert (v' = v) by congruence. subst v'.
  apply inv_bind; [unfold analyzeAudio; schedule_auto | intros probe].
  eapply inv_bind_returns;
    [unfold configureEncoders, negotiateAudio; schedule_auto
    | apply returns_configureEncoders |].
  intros ctx (_ & _ & Hinterval & _).
  rewrite <- Hinterval.
  apply inv_bind; [apply schedule_encode | intros _].
  unfold finalize. schedule_auto.
Qed.

Lemma schedule_prologue interval env : inv (onSchedule interval) (prologue env).
Proof. unfold prologue, resetOutput. schedule_auto. Qed.

Lemma schedule_catchBlock interval e : inv (onSchedule interval) (catchBlock e).
Proof. unfold catchBlock. schedule_auto. Qed.

Lemma schedule_finallyBlock interval env : inv (onSchedule interval) (finallyBlock env).
Proof. unfold finallyBlock, stopProgressTimer. schedule_auto. Qed.

(** The state a run leaves satisfies what every part of it keeps, when the
    state it starts from does. *)
Lemma runConversion_keeps (I : St -> Prop) cfg env s :
  I s ->
  (forall message s0, I s0 -> I (withTrace (trace s0 ++ [SetError message]) s0)) ->
  inv I (prologue env) ->
  inv I (tryBlock cfg env) ->
  (forall e, inv I (catchBlock e)) ->
  inv I (finallyBlock env) ->
  I (snd (runConversion cfg env s)).
Proof.
  intros Hs Herror Hprologue Htry Hcatch Hfinally.
  destruct (runConversion_cases cfg env s)
    as [(_ & [-> | [message ->]]) | [(s' & _ & -> & ->) | (e & s' & _ & -> & ->)]].
  - exact Hs.
  - apply Herror. exact Hs.
  - cbn [snd]. apply inv_snd; [exact Hfinally |].
    apply inv_snd; [exact Htry |]. apply inv_snd; [exact Hprologue | exact Hs].
  - cbn [snd]. apply inv_snd.
    + apply inv_bind; [apply Hcatch | intros _; exact Hfinally].
    + apply inv_snd; [exact Htry |]. apply inv_snd; [exact Hprologue | exact Hs].
Qed.

Lemma schedule_runConversion cfg env v previous :
  videoTrack env = Some v ->
  onSchedule (keyInterval v (speed cfg))
    (snd (runConversion cfg env (initialSt previous))).
Proof.
  intros Hv. apply runConversion_keeps.
  - repeat split; [cbn; lia | constructor].
  - intros message. schedule_leaf.
  - apply schedule_prologue.
  - apply schedule_tryBlock. exact Hv.
  - apply schedule_catchBlock.
  - apply schedule_finallyBlock.
Qed.

Lemma nth_error_seq_inv (start len n x : nat) :
  nth_error (seq start len) n = Some x -> x = (start + n)%nat.
Proof.
  intros H.
  assert (Hlt : (n < len)%nat).
  { rewrite <- (length_seq len start). apply nth_error_Some. congruence. }
  apply (nth_error_nth _ _ O) in H. rewrite seq_nth in H by exact Hlt. congruence.
Qed.

(** ** Audio given up *)

Lemma audioReleases_app (t1 t2 : list Action) :
  audioReleases (t1 ++ t2) = audioReleases t1 ++ audioReleases t2.
Proof. apply flat_map_app. Qed.

Lemma audioUse_app (t1 t2 : list Action) :
  audioUse (t1 ++ t2) = audioUse t1 ++ audioUse t2.
Proof. apply filter_app. Qed.

Ltac audio_leaf :=
  let s := fresh "s" in
  let H := fresh "H" in
  intros s H;
  first
    [ exact H
    | unfold audioOff in *; cbn [bufferedAudio trace withTrace];
      rewrite audioReleases_app, audioUse_app;
      cbn [audioReleases audioUse flat_map filter usesAudio app];
      rewrite !app_nil_r; exact H ].

Ltac said_leaf :=
  let s := fresh "s" in
  let H := fresh "H" in
  intros s H;
  first
    [ exact H
    | unfold said in *; cbn [trace withTrace]; apply in_or_app; left; exact H ].

(** A status that was shown stays in the trace. *)
Ltac said_auto :=
  unfold_phases; unfold updateProgress, setProgress; inv_auto fail said_leaf.

Lemma said_configureEncoders status cfg env v p :
  inv (said status) (configureEncoders cfg env v p).
Proof. said_auto. Qed.

Lemma said_encode status env ctx : inv (said status) (encode env ctx).
Proof. said_auto. Qed.

Lemma said_finalize status : inv (said status) finalize.
Proof. said_auto. Qed.

Lemma said_catchBlock status e : inv (said status) (catchBlock e).
Proof. said_auto. Qed.

Lemma said_finallyBlock status env : inv (said status) (finallyBlock env).
Proof. said_auto. Qed.

Lemma audioOff_setProgress released f : inv (audioOff released) (setProgress f).
Proof. unfold setProgress. inv_auto fail audio_leaf. Qed.

Lemma audioOff_updateProgress released d ts :
  inv (audioOff released) (updateProgress d ts).
Proof.
  unfold updateProgress. inv_auto ltac:(apply audioOff_setProgress) audio_leaf.
Qed.

Ltac audioOff_auto :=
  inv_auto
    ltac:(first [ apply audioOff_updateProgress | apply audioOff_setProgress ])
    audio_leaf.

Lemma audioOff_prologue released env : inv (audioOff released) (prologue env).
Proof. unfold_phases. audioOff_auto. Qed.

Lemma audioOff_openSource released cfg env : inv (audioOff released) (openSource cfg env).
Proof. unfold_phases. audioOff_auto. Qed.

Lemma audioOff_finalize released : inv (audioOff released) finalize.
Proof. unfold_phases. audioOff_auto. Qed.

Lemma audioOff_catchBlock released e : inv (audioOff released) (catchBlock e).
Proof. unfold_phases. audioOff_auto. Qed.

Lemma audioOff_finallyBlock released env : inv (audioOff released) (finallyBlock env).
Proof. unfold_phases. audioOff_auto. Qed.

Lemma audioOff_handleEvent released ctx tasks e :
  audioTaskRuns ctx = false ->
  inv (audioOff released) (handleEvent ctx tasks e).
Proof.
  intros Hruns. unfold handleEvent.
  destruct e as [frame | data | clock | |].
  - unfold videoStep, encodeVideo. audioOff_auto.
  - rewrite Hruns, andb_false_r. apply inv_ret.
  - audioOff_auto.
  - audioOff_auto.
  - audioOff_auto.
Qed.

Lemma audioOff_encode released env ctx :
  ctxAudioEnabled ctx = false -> ctxAudioEncoder ctx = false ->
  inv (audioOff released) (encode env ctx).
Proof.
  intros Henabled Hencoder.
  assert (Hruns : audioTaskRuns ctx = false)
    by (unfold audioTaskRuns; rewrite Henabled; reflexivity).
  unfold encode, audioTaskStart. rewrite Hruns, Hencoder, Henabled.
  inv_auto
    ltac:(first [ apply (audioOff_handleEvent released _ _ _ Hruns)
                | apply audioOff_updateProgress
                | match goal with |- inv _ (when false _) => apply inv_ret end ])
    audio_leaf.
Qed.

Lemma returns_negotiateAudio_off cfg env p :
  includeAudioTrack p = false ->
  returns (negotiateAudio cfg env p) (fun c => c = None) (fun _ => False).
Proof.
  intros Hoff. unfold negotiateAudio. rewrite Hoff. cbn [andb].
  destruct (audioSampleRate p), (audioChannels p); apply returns_ret; reflexivity.
Qed.

Lemma audioOff_configureEncoders released cfg env v p :
  includeAudioTrack p = false ->
  inv (audioOff released) (configureEncoders cfg env v p).
Proof.
  intros Hoff. unfold configureEncoders.
  apply inv_bind; [audioOff_auto | intros _].
  destruct (chooseVideoConfig _ _) as [chosen |]; [| apply inv_throw].
  eapply inv_bind_returns;
    [unfold negotiateAudio; audioOff_auto
    | apply (returns_negotiateAudio_off cfg env p Hoff) |].
  intros c ->. cbn iota. audioOff_auto.
Qed.

(** The probe that finds nothing: audio is switched off, and the sample it
    read, if any, is released on the spot. *)
Lemma analyzeAudio_gives_up env p :
  includeAudioTrack p = true -> audioReader p = true ->
  attributesUnknown p = true -> firstSampleUnknown env = true ->
  hoare (audioOff [])
    (analyzeAudio env p)
    (fun p' s =>
       audioOff (pulled env) s /\
       said "Audio track not detected, exporting video only" s /\
       includeAudioTrack p' = false)
    (fun _ _ => False).
Proof.
  intros Hinclude Hreader Hunknown Hfirst s (Hreleases & Huse & Hbuffered).
  unfold analyzeAudio. rewrite Hinclude, Hreader, Hunknown. cbn [andb].
  unfold firstSampleUnknown, pulled in *.
  destruct (firstAudio env) as [first |].
  - unfold bind, ret, gets, modify, emit, setStatus, attributesUnknown.
    cbn -[audioReleases audioUse]. rewrite Hfirst.
    cbn -[audioReleases audioUse]. unfold audioOff, said.
    cbn [trace withTrace bufferedAudio withBufferedAudio].
    rewrite !audioReleases_app, !audioUse_app.
    cbn [audioReleases audioUse flat_map filter usesAudio app].
    rewrite Hreleases, Huse.
    repeat split; try reflexivity.
    apply in_or_app. right. left. reflexivity.
  - unfold bind, ret, gets, modify, emit, setStatus.
    cbn -[audioReleases audioUse]. rewrite Hinclude, Hunknown.
    cbn -[audioReleases audioUse]. rewrite Hbuffered.
    cbn -[audioReleases audioUse]. unfold audioOff, said.
    cbn [trace withTrace bufferedAudio withBufferedAudio].
    rewrite !audioReleases_app, !audioUse_app.
    cbn [audioReleases audioUse flat_map filter usesAudio app].
    rewrite Hreleases, Huse.
    repeat split; try reflexivity; try assumption.
    apply in_or_app. right. left. reflexivity.
Qed.

Lemma inv_and {A : Type} (I1 I2 : St -> Prop) (m : M A) :
  inv I1 m -> inv I2 m -> inv (fun s => I1 s /\ I2 s) m.
Proof.
  intros H1 H2. eapply hoare_conseq; [apply (hoare_and _ _ _ _ _ _ _ H1 H2) | | | ];
    cbn; auto.
Qed.

(** A fact that does not depend on the state can be taken out of the
    precondition. *)
Lemma hoare_pure {A : Type} (fact : Prop) (P : St -> Prop) (m : M A) Q E :
  (fact -> hoare P m Q E) -> hoare (fun s => P s /\ fact) m Q E.
Proof. intros H s [HP Hfact]. apply (H Hfact s HP). Qed.

Lemma trackProbe_on cfg env a :
  includeAudio cfg = true -> audioTrack env = Some a ->
  trackProbe cfg env
  = {| includeAudioTrack := true; audioReader := true;
       audioSampleRate := settingsSampleRate a;
       audioChannels := settingsChannelCount a |}.
Proof. intros Hinclude Htrack. unfold trackProbe. rewrite Htrack, Hinclude. reflexivity. Qed.

(** The [try] block of a run whose audio attributes stay unknown. *)
Lemma tryBlock_gives_up cfg env v a :
  opens cfg env = true -> videoTrack env = Some v ->
  includeAudio cfg = true -> audioTrack env = Some a ->
  negb (JS.truthyOpt (settingsSampleRate a))
  || negb (JS.truthyOpt (settingsChannelCount a)) = true ->
  firstSampleUnknown env = true ->
  hoare (audioOff [])
    (tryBlock cfg env)
    (fun _ s =>
       audioOff (pulled env) s /\
       said "Audio track not detected, exporting video only" s)
    (fun _ s =>
       audioOff (pulled env) s /\
       said "Audio track not detected, exporting video only" s).
Proof.
  intros Hopen Hv Hinclude Htrack Hsettings Hfirst. unfold tryBlock.
  eapply hoare_bind with
    (Q := fun r s => audioOff [] s /\ snd r = trackProbe cfg env).
  { eapply hoare_conseq;
      [apply (hoare_and _ _ _ _ _ _ _ (audioOff_openSource [] cfg env)
                (returns_openSource cfg env v Hopen Hv)) | | | ]; cbn.
    - auto.
    - intros r s (Hs & _ & Hr). auto.
    - intros e s [_ []]. }
  intros [v' p]. cbn [fst snd]. apply hoare_pure. intros ->.
  rewrite (trackProbe_on cfg env a Hinclude Htrack).
  eapply hoare_bind.
  { eapply hoare_conseq;
      [eapply analyzeAudio_gives_up;
         [reflexivity | reflexivity | exact Hsettings | exact Hfirst] | | | ]; cbn.
    - auto.
    - intros p' s H. exact H.
    - intros e s []. }
  intros p'.
  eapply hoare_conseq with
    (P := fun s =>
       (audioOff (pulled env) s /\
        said "Audio track not detected, exporting video only" s)
       /\ includeAudioTrack p' = false);
    [| intros s (H1 & H2 & H3); auto | intros u s H; exact H | intros e s H; exact H].
  apply hoare_pure. intros Hoff.
  eapply hoare_bind with
    (Q := fun ctx s =>
       (audioOff (pulled env) s /\
        said "Audio track not detected, exporting video only" s)
       /\ (ctxAudioEnabled ctx = false /\ ctxAudioEncoder ctx = false)).
  { eapply hoare_conseq;
      [apply (hoare_and _ _ _ _ _ _ _
                (inv_and _ _ _ (audioOff_configureEncoders (pulled env) cfg env v' p' Hoff)
                   (said_configureEncoders
                      "Audio track not detected, exporting video only" cfg env v' p'))
                (returns_configureEncoders cfg env v' p')) | | | ]; cbn.
    - auto.
    - intros ctx s (Hs & _ & _ & _ & Henc & Hen).
      split; [exact Hs |]. rewrite Henc. auto.
    - intros e s [Hs _]. exact Hs. }
  intros ctx. apply hoare_pure. intros [Henabled Hencoder].
  apply inv_bind.
  - apply inv_and; [apply audioOff_encode; assumption | apply said_encode].
  - intros _. apply inv_and; [apply audioOff_finalize | apply said_finalize].
Qed.

(** ** What a failed run leaves open *)

Ltac open_leaf :=
  let s := fresh "s" in
  let H := fresh "H" in
  intros s H;
  first
    [ exact H
    | unfold leftOpen, stops, finalizations in *; cbn [trace withTrace];
      rewrite !filter_app; cbn [filter isStop isFinalize app];
      rewrite !app_nil_r; exact H ].

Ltac configured_leaf :=
  let s := fresh "s" in
  let H := fresh "H" in
  intros s H;
  first
    [ exact H
    | unfold configured in *; cbn [trace withTrace]; apply in_or_app; left; exact H ].

Ltac open_auto :=
  unfold_phases; unfold updateProgress, setProgress; inv_auto fail open_leaf.

Ltac configured_auto :=
  unfold_phases; unfold updateProgress, setProgress; inv_auto fail configured_leaf.

Lemma leftOpen_prologue env : inv leftOpen (prologue env).
Proof. open_auto. Qed.

Lemma leftOpen_openSource cfg env : inv leftOpen (openSource cfg env).
Proof. open_auto. Qed.

Lemma leftOpen_analyzeAudio env p : inv leftOpen (analyzeAudio env p).
Proof. open_auto. Qed.

Lemma leftOpen_negotiateAudio cfg env p : inv leftOpen (negotiateAudio cfg env p).
Proof. open_auto. Qed.

Lemma leftOpen_configureEncoders cfg env v p : inv leftOpen (configureEncoders cfg env v p).
Proof. open_auto. Qed.

Lemma leftOpen_catchBlock e : inv leftOpen (catchBlock e).
Proof. open_auto. Qed.

Lemma leftOpen_finallyBlock env : inv leftOpen (finallyBlock env).
Proof. open_auto. Qed.

Lemma leftOpen_handleEvent ctx tasks e : inv leftOpen (handleEvent ctx tasks e).
Proof. open_auto. Qed.

Lemma configured_handleEvent config ctx tasks e :
  inv (configured config) (handleEvent ctx tasks e).
Proof. configured_auto. Qed.

Lemma configured_catchBlock config e : inv (configured config) (catchBlock e).
Proof. configured_auto. Qed.

Lemma configured_finallyBlock config env : inv (configured config) (finallyBlock env).
Proof. configured_auto. Qed.

(** When playback fails, [encode] throws before it stops a track or closes
    an encoder. *)
Lemma encode_playback_fails (I : St -> Prop) env ctx :
  playbackEnded env = false ->
  inv I (modify (withProgressTimer true)) ->
  inv I (emit SetInterval) ->
  (forall status, inv I (setStatus status)) ->
  inv I (audioTaskStart ctx) ->
  (forall e, inv I (handleEvent ctx true e)) ->
  inv I (encode env ctx).
Proof.
  intros Hfails Htimer Hinterval Hstatus Hstart Hevent. unfold encode. rewrite Hfails.
  apply inv_bind;
    [apply inv_when; apply inv_bind; [exact Htimer | intros _; exact Hinterval] |].
  intros _. apply inv_bind; [apply Hstatus | intros _].
  apply inv_bind; [exact Hstart | intros _].
  apply inv_bind; [apply inv_forEach; exact Hevent | intros _].
  apply inv_bind_throw.
Qed.

Lemma leftOpen_encode_fails env ctx :
  playbackEnded env = false -> inv leftOpen (encode env ctx).
Proof.
  intros Hfails.
  apply encode_playback_fails;
    [exact Hfails | open_auto | open_auto | intros status; open_auto | open_auto
    | intros e; open_auto].
Qed.

Lemma configured_encode_fails config env ctx :
  playbackEnded env = false -> inv (configured config) (encode env ctx).
Proof.
  intros Hfails.
  apply encode_playback_fails;
    [exact Hfails | configured_auto | configured_auto | intros status; configured_auto
    | configured_auto | intros e; configured_auto].
Qed.

(** Once a configuration is chosen, [configureEncoders] configures the
    video encoder with it and does not throw. *)
Lemma configureEncoders_configures cfg env v p chosen :
  chooseVideoConfig (isVideoConfigSupported env) (videoConfigCandidates v cfg)
  = Some chosen ->
  hoare leftOpen
    (configureEncoders cfg env v p)
    (fun _ s => leftOpen s /\ configured chosen s)
    (fun _ _ => False).
Proof.
  intros Hchosen. unfold configureEncoders. rewrite Hchosen.
  eapply hoare_bind with (Q := fun _ => leftOpen).
  { apply hoare_emit. open_leaf. }
  intros _.
  eapply hoare_bind with (Q := fun _ => leftOpen).
  { eapply hoare_conseq with (E := fun (_ : JS.Thrown) s => leftOpen s /\ False);
      [apply (hoare_and _ _ _ _ _ _ _
                (leftOpen_negotiateAudio cfg env p)
                (total_negotiateAudio cfg env p)) | | | ]; cbn.
    - auto.
    - intros c s [Hs _]. exact Hs.
    - intros e s [_ []]. }
  intros audioEncoderConfig.
  eapply hoare_bind with (Q := fun _ => leftOpen).
  { apply hoare_emit. open_leaf. }
  intros _.
  eapply hoare_bind with (Q := fun _ s => leftOpen s /\ configured chosen s).
  { apply hoare_emit. intros s Hs. split.
    - revert s Hs. open_leaf.
    - unfold configured. cbn [trace withTrace]. apply in_or_app. right. left. reflexivity. }
  intros _.
  eapply hoare_bind with (Q := fun _ s => leftOpen s /\ configured chosen s).
  { destruct audioEncoderConfig as [c |].
    - apply hoare_emit. intros s [Hopen Hconf]. split.
      + clear Hconf. revert s Hopen. open_leaf.
      + clear Hopen. revert s Hconf. configured_leaf.
    - apply hoare_ret. auto. }
  intros _. apply hoare_ret. auto.
Qed.

(** The [finally] clause ends with the same calls every time. *)
Lemma finallyBlock_tail env s :
  exists before, trace (snd (finallyBlock env s)) = before ++ finallyTail env.
Proof.
  unfold finallyBlock, stopProgressTimer, finallyTail, when, bind, gets, modify, emit, ret.
  destruct (progressTimer s);
    [exists (trace s ++ [ClearInterval]) | exists (trace s)];
    destruct (negb (inputUrl env)); cbn; repeat rewrite <- app_assoc; reflexivity.
Qed.

Lemma inv_total {A : Type} (I : St -> Prop) (m : M A) :
  inv I m -> total m -> hoare I m (fun _ => I) (fun _ _ => False).
Proof.
  intros Hinv Htotal.
  eapply hoare_conseq; [apply (hoare_and _ _ _ _ _ _ _ Hinv Htotal) | | | ]; cbn.
  - auto.
  - intros a s [Hs _]. exact Hs.
  - intros e s [_ []].
Qed.

(** The [try] block of a run whose playback fails after the encoders were
    configured. *)
Lemma tryBlock_playback_fails cfg env v chosen :
  opens cfg env = true -> videoTrack env = Some v ->
  chooseVideoConfig (isVideoConfigSupported env) (videoConfigCandidates v cfg)
  = Some chosen ->
  playbackEnded env = false ->
  hoare leftOpen
    (tryBlock cfg env)
    (fun _ _ => False)
    (fun _ s => leftOpen s /\ configured chosen s).
Proof.
  intros Hopen Hv Hchosen Hfails. unfold tryBlock.
  eapply hoare_bind with (Q := fun r s => leftOpen s /\ fst r = v).
  { eapply hoare_conseq;
      [apply (hoare_and _ _ _ _ _ _ _ (leftOpen_openSource cfg env)
                (returns_openSource cfg env v Hopen Hv)) | | | ]; cbn.
    - auto.
    - intros r s (Hs & Hr & _). auto.
    - intros e s [_ []]. }
  intros [v' p]. cbn [fst snd]. apply hoare_pure. intros ->.
  eapply hoare_bind with (Q := fun _ => leftOpen).
  { eapply hoare_conseq;
      [apply (inv_total _ _ (leftOpen_analyzeAudio env p) (total_analyzeAudio env p))
      | | | ]; cbn; [auto | auto | intros e s []]. }
  intros probe.
  eapply hoare_bind with (Q := fun _ s => leftOpen s /\ configured chosen s).
  { eapply hoare_conseq;
      [apply (configureEncoders_configures cfg env v probe chosen Hchosen) | | | ];
      cbn; [auto | auto | intros e s []]. }
  intros ctx.
  eapply hoare_bind with (Q := fun _ _ => False); [| intros _; apply hoare_false].
  eapply hoare_conseq;
    [apply (hoare_and _ _ _ _ _ _ _
              (inv_and _ _ _ (leftOpen_encode_fails env ctx Hfails)
                 (configured_encode_fails chosen env ctx Hfails))
              (returns_encode env ctx)) | | | ]; cbn.
  - auto.
  - intros u s [_ Hended]. congruence.
  - intros e s [Hs _]. exact Hs.
Qed.

(** ** Backpressure *)

Lemma yields_app (t1 t2 : list Action) : yields (t1 ++ t2) = yields t1 ++ yields t2.
Proof. apply flat_map_app. Qed.

(** An update of the progress only appends [SetProgress] calls; it does
    not touch the queues or the buffered sample. *)
Lemma updateProgress_effect d ts s :
  exists s' middle,
    updateProgress d ts s = (Ok tt, s') /\
    trace s' = trace s ++ middle /\
    yields middle = [] /\
    videoQueue s' = videoQueue s /\
    audioQueue s' = audioQueue s.
Proof.
  unfold updateProgress.
  destruct d as [d |]; [| exists s, []; rewrite app_nil_r; repeat split].
  destruct (JS.truthy d); [| exists s, []; rewrite app_nil_r; repeat split].
  destruct ts as [ts |].
  - destruct (progressOffsetUs s) as [offset |] eqn:Hoffset.
    + unfold bind, gets, when, ret, setProgress, modify, emit. cbn.
      rewrite Hoffset. cbn. rewrite Hoffset.
      eexists _, [_]. repeat split.
    + unfold bind, gets, when, ret, setProgress, modify, emit. cbn.
      rewrite Hoffset. cbn.
      eexists _, [_]. repeat split.
  - unfold bind, gets, when, ret, setProgress, modify, emit. cbn.
    eexists _, [_]. repeat split.
Qed.

Lemma bind_ok {A B : Type} (m : M A) (k : A -> M B) (s s' : St) (a : A) :
  m s = (Ok a, s') -> bind m k s = k a s'.
Proof. intros H. unfold bind. rewrite H. reflexivity. Qed.

Lemma videoStep_effect ctx frame s :
  exists middle,
    trace (snd (videoStep ctx frame s))
    = trace s
      ++ EncodeVideo frame
           (Some {| keyFrame := JS.rem (videoFrameCount s + 1) (ctxKeyInterval ctx) =? 0 |})
         :: middle
      ++ (if (12 <? videoQueue (snd (videoStep ctx frame s)))%nat
          then [WaitForBreathingRoom Video] else []) /\
    yields middle = [] /\
    videoQueue (snd (videoStep ctx frame s)) = S (videoQueue s) /\
    audioQueue (snd (videoStep ctx frame s)) = audioQueue s.
Proof.
  assert (Hstep : exists s2 middle,
    trace s2
    = trace s
      ++ EncodeVideo frame
           (Some {| keyFrame := JS.rem (videoFrameCount s + 1) (ctxKeyInterval ctx) =? 0 |})
         :: middle /\
    yields middle = [] /\
    videoQueue s2 = S (videoQueue s) /\ audioQueue s2 = audioQueue s /\
    videoStep ctx frame s
    = when (12 <? videoQueue s2)%nat (emit (WaitForBreathingRoom Video)) s2).
  { unfold videoStep, encodeVideo.
    do 3 (erewrite bind_ok by reflexivity).
    match goal with
    | |- context [bind (updateProgress ?d ?ts) _ ?s1] =>
        destruct (updateProgress_effect d ts s1)
          as (s2 & middle & Hrun & Htrace & Hyields & Hvq & Haq);
        rewrite (bind_ok _ _ _ _ _ Hrun)
    end.
    do 2 (erewrite bind_ok by reflexivity).
    cbn [trace videoQueue audioQueue videoFrameCount withTrace withVideoQueue
           withVideoFrameCount] in *.
    exists (withTrace (trace s2 ++ [CloseVideoFrame frame]) s2),
      (middle ++ [CloseVideoFrame frame]).
    cbn [trace videoQueue audioQueue withTrace].
    rewrite Htrace, Hvq, Haq, yields_app, Hyields. cbn [yields flat_map app].
    repeat rewrite <- app_assoc. cbn [app]. repeat split. }
  destruct Hstep as (s2 & middle & Htrace & Hyields & Hvq & Haq & ->).
  exists middle. unfold when, emit, modify, ret.
  destruct (12 <? videoQueue s2)%nat eqn:Hfull;
    cbn [fst snd trace videoQueue audioQueue withTrace]; rewrite Hfull, Htrace.
  - rewrite <- app_assoc. cbn [app]. auto.
  - rewrite !app_nil_r. auto.
Qed.

Lemma audioStep_effect ctx data s :
  exists middle,
    trace (snd (audioStep ctx data s))
    = trace s
      ++ EncodeAudio data None :: middle
      ++ (if (20 <? audioQueue (snd (audioStep ctx data s)))%nat
          then [WaitForBreathingRoom Audio] else []) /\
    yields middle = [] /\
    audioQueue (snd (audioStep ctx data s)) = S (audioQueue s) /\
    videoQueue (snd (audioStep ctx data s)) = videoQueue s.
Proof.
  assert (Hstep : exists s2 middle,
    trace s2 = trace s ++ EncodeAudio data None :: middle /\
    yields middle = [] /\
    audioQueue s2 = S (audioQueue s) /\ videoQueue s2 = videoQueue s /\
    audioStep ctx data s
    = when (20 <? audioQueue s2)%nat (emit (WaitForBreathingRoom Audio)) s2).
  { unfold audioStep, encodeAudio.
    erewrite bind_ok by reflexivity.
    match goal with
    | |- context [bind (updateProgress ?d ?ts) _ ?s1] =>
        destruct (updateProgress_effect d ts s1)
          as (s2 & middle & Hrun & Htrace & Hyields & Hvq & Haq);
        rewrite (bind_ok _ _ _ _ _ Hrun)
    end.
    do 2 (erewrite bind_ok by reflexivity).
    cbn [trace videoQueue audioQueue withTrace withAudioQueue] in *.
    exists (withTrace (trace s2 ++ [CloseAudioData data]) s2),
      (middle ++ [CloseAudioData data]).
    cbn [trace videoQueue audioQueue withTrace].
    rewrite Htrace, Hvq, Haq, yields_app, Hyields. cbn [yields flat_map app].
    repeat rewrite <- app_assoc. cbn [app]. repeat split. }
  destruct Hstep as (s2 & middle & Htrace & Hyields & Haq & Hvq & ->).
  exists middle. unfold when, emit, modify, ret.
  destruct (20 <? audioQueue s2)%nat eqn:Hfull;
    cbn [fst snd trace videoQueue audioQueue withTrace]; rewrite Hfull, Htrace.
  - rewrite <- app_assoc. cbn [app]. auto.
  - rewrite !app_nil_r. auto.
Qed.

(** The buffered sample goes to an encoder that was just configured: one
    unit is pending afterwards, and the task does not yield. *)
Lemma audioTaskStart_effect ctx s :
  yields (trace (snd (audioTaskStart ctx s))) = yields (trace s) /\
  (audioQueue (snd (audioTaskStart ctx s)) <= S (audioQueue s))%nat /\
  videoQueue (snd (audioTaskStart ctx s)) = videoQueue s.
Proof.
  unfold audioTaskStart, when.
  destruct (audioTaskRuns ctx); [| cbn; auto].
  erewrite bind_ok by reflexivity.
  destruct (bufferedAudio s) as [data |]; [| cbn; auto].
  unfold encodeAudio.
  erewrite bind_ok by reflexivity.
  match goal with
  | |- context [bind (updateProgress ?d ?ts) _ ?s1] =>
      destruct (updateProgress_effect d ts s1)
        as (s2 & middle & Hrun & Htrace & Hyields & Hvq & Haq);
      rewrite (bind_ok _ _ _ _ _ Hrun)
  end.
  cbn [trace videoQueue audioQueue withTrace withAudioQueue] in *.
  unfold bind, emit, modify.
  cbn [fst snd trace videoQueue audioQueue withTrace withBufferedAudio].
  rewrite Htrace, Hvq, Haq, !yields_app, Hyields. cbn [yields flat_map app].
  rewrite !app_nil_r. auto.
Qed.

(** The timer and the encoders never make a task yield. *)
Lemma handleEvent_quiet ctx tasks e s :
  match e with
  | VideoRead _ => True
  | AudioRead _ => True
  | _ => yields (trace (snd (handleEvent ctx tasks e s))) = yields (trace s)
  end.
Proof.
  destruct e as [frame | data | clock | |]; try exact I; try reflexivity.
  unfold handleEvent, when.
  erewrite bind_ok by reflexivity.
  destruct (progressTimer s); [| reflexivity].
  erewrite bind_ok by reflexivity.
  match goal with
  | |- context [updateProgress ?d ?ts ?s1] =>
      destruct (updateProgress_effect d ts s1)
        as (s2 & middle & Hrun & Htrace & Hyields & _);
      rewrite Hrun
  end.
  cbn [snd trace withCurrentTime] in *.
  rewrite Htrace, yields_app, Hyields. apply app_nil_r.
Qed.

(** When negotiation fails after the first audio sample was buffered, the
    sample is still held when the run returns: nothing released it. *)
Example buffered_sample_kept :
  fst (runConversion (balancedStandard true) audioThenNoEncoder (initialSt None))
  = Failed "H.264 encoding is not supported in this browser." /\
  bufferedAudio (snd (runConversion (balancedStandard true) audioThenNoEncoder
                        (initialSt None)))
  = Some (sample 0 48000 2 0) /\
  audioReleases (trace (snd (runConversion (balancedStandard true) audioThenNoEncoder
                               (initialSt None))))
  = [].
Proof. repeat split. Qed.

Ltac idle_leaf :=
  let s := fresh "s" in
  let H := fresh "H" in
  intros s H; exact H.

(** No unit is submitted before the encode tasks are launched. *)
Lemma idle_beforeEncode cfg env : inv idle (beforeEncode cfg env).
Proof.
  unfold beforeEncode. unfold_phases. unfold setProgress.
  inv_auto fail idle_leaf.
Qed.

(** [beforeEncode] is the part of the run in front of [encode]. *)
Lemma beforeEncode_prefix cfg env s :
  (prologue env ;; tryBlock cfg env) s
  = (ctx <- beforeEncode cfg env ;; encode env ctx ;; finalize) s.
Proof.
  unfold beforeEncode, tryBlock, bind.
  destruct (prologue env s) as [[[] | e0] s0]; [| reflexivity].
  destruct (openSource cfg env s0) as [[opened | e1] s1]; [| reflexivity].
  destruct (analyzeAudio env (snd opened) s1) as [[probe | e2] s2]; [| reflexivity].
  destruct (configureEncoders cfg env (fst opened) probe s2) as [[ctx | e3] s3];
    reflexivity.
Qed.

(** * The claims *)






(** C10: the candidate list has exactly 16 configurations: for each codec
    string, in the order avc1.42E01E, avc1.4D401E, avc1.640028, avc1.42001E,
    the four variants (hardware preference and latency mode, latency mode
    only, hardware preference only, neither), so that the four variants of
    a codec come before any variant of the next one; every candidate
    carries the derived width, height, bitrate and frame rate. *)
Theorem C10_candidate_list (v : VideoSource) (cfg : Settings) :
  List.length (videoConfigCandidates v cfg) = 16%nat /\
  map (fun c => (VideoEncoderConfig.codec c,
                 isSome (VideoEncoderConfig.hardwareAcceleration c),
                 isSome (VideoEncoderConfig.latencyMode c)))
      (videoConfigCandidates v cfg)
  = [ ("avc1.42E01E", true, true); ("avc1.42E01E", false, true);
      ("avc1.42E01E", true, false); ("avc1.42E01E", false, false);
      ("avc1.4D401E", true, true); ("avc1.4D401E", false, true);
      ("avc1.4D401E", true, false); ("avc1.4D401E", false, false);
      ("avc1.640028", true, true); ("avc1.640028", false, true);
      ("avc1.640028", true, false); ("avc1.640028", false, false);
      ("avc1.42001E", true, true); ("avc1.42001E", false, true);
      ("avc1.42001E", true, false); ("avc1.42001E", false, false) ]%string /\
  map VideoEncoderConfig.codec (videoConfigCandidates v cfg)
  = flat_map (fun codec => repeat codec 4) codecCandidates /\
  Forall (fun c =>
            VideoEncoderConfig.width c = width v /\
            VideoEncoderConfig.height c = height v /\
            VideoEncoderConfig.bitrate c = videoBitrate v (quality cfg) /\
            VideoEncoderConfig.framerate c = frameRate v /\
            (VideoEncoderConfig.latencyMode c = None \/
             VideoEncoderConfig.latencyMode c = Some (SpeedPreset.latencyMode (speed cfg))))
         (videoConfigCandidates v cfg).
Proof.
  split; [reflexivity |]. split; [reflexivity |]. split.
  - reflexivity.
  - unfold videoConfigCandidates, codecCandidates. simpl.
    repeat (apply Forall_cons; [simpl; repeat split; auto |]).
    apply Forall_nil.
Qed.

(** C5: video negotiation returns the first candidate that the platform
    reports as supported, in the platform's own form of it when one is
    returned; it returns nothing exactly when no candidate is supported,
    and then the run fails; the choice depends only on the candidate list
    and on what the platform answers for its members. *)
Theorem C5_video_negotiation :
  (forall isConfigSupported candidates chosen,
     chooseVideoConfig isConfigSupported candidates = Some chosen <->
     exists before candidate after,
       candidates = before ++ candidate :: after /\
       Forall (unsupported isConfigSupported) before /\
       VideoEncoderSupport.supported (isConfigSupported candidate) = true /\
       chosen = JS.nullish (VideoEncoderSupport.config (isConfigSupported candidate))
                  candidate) /\
  (forall isConfigSupported candidates,
     chooseVideoConfig isConfigSupported candidates = None <->
     Forall (unsupported isConfigSupported) candidates) /\
  (forall f g candidates,
     (forall c, In c candidates -> g c = f c) ->
     chooseVideoConfig g candidates = chooseVideoConfig f candidates) /\
  (forall cfg env s,
     (forall v, videoTrack env = Some v ->
        Forall (unsupported (isVideoConfigSupported env)) (videoConfigCandidates v cfg)) ->
     fst (runConversion cfg env s) <> Succeeded) /\
  (forall cfg env v s,
     opens cfg env = true -> videoTrack env = Some v ->
     Forall (unsupported (isVideoConfigSupported env)) (videoConfigCandidates v cfg) ->
     fst (runConversion cfg env s)
     = Failed "H.264 encoding is not supported in this browser.").
Proof.
  split; [exact chooseVideoConfig_some |].
  split; [exact chooseVideoConfig_none |].
  split; [exact chooseVideoConfig_ext |].
  split.
  - intros cfg env s Hnone Hok.
    destruct (succeeded_chosen cfg env s Hok) as (v & chosen & Hv & Hchosen).
    specialize (Hnone v Hv). apply chooseVideoConfig_none in Hnone. congruence.
  - intros cfg env v s Hopen Hv Hnone.
    rewrite (outcome_opens cfg env v s Hopen Hv).
    apply chooseVideoConfig_none in Hnone. rewrite Hnone. reflexivity.
Qed.

Lemma C5_video_negotiation_witness :
  opens (balancedStandard false) noEncoder = true /\
  videoTrack noEncoder = Some (hd720 30) /\
  fst (runConversion (balancedStandard false) noEncoder (initialSt None))
  = Failed "H.264 encoding is not supported in this browser.".
Proof.
  split; [reflexivity |]. split; [reflexivity |].
  destruct C5_video_negotiation as (_ & _ & _ & _ & Hfatal).
  apply (Hfatal (balancedStandard false) noEncoder (hd720 30) (initialSt None));
    [reflexivity | reflexivity |].
  repeat constructor.
Defined.

(** C1: in a run whose source duration is known, the progress values
    reported ([null] read as 0, as the code reads it) never go down and never
    exceed 100; every update reports the larger of the previous value and
    the new percentage; after the reset at the start of the run ([0], then
    [null]) every report is a number between 0 and 100 and the numbers are
    in non-decreasing order; and a run that succeeds ends with progress
    exactly 100, reported last. *)
Theorem C1_progress_monotone (cfg : Settings) (env : Env) (previous : option Z) :
  JS.truthyOpt (durationSeconds env) = true ->
  StronglySorted Z.le
    (map reported (progressLog (trace (snd (runConversion cfg env (initialSt previous)))))) /\
  Forall (fun p => reported p <= 100)
    (progressLog (trace (snd (runConversion cfg env (initialSt previous))))) /\
  (forall timestampUs s,
     exists pct,
       pct <= 100 /\
       progress (snd (updateProgress (durationSeconds env) timestampUs s))
       = Some (Z.max (reported (progress s)) pct)) /\
  (fst (runConversion cfg env (initialSt previous)) <> NotStarted ->
   exists values,
     progressLog (trace (snd (runConversion cfg env (initialSt previous))))
     = Some 0 :: None :: map Some values /\
     StronglySorted Z.le values /\
     Forall (fun x => 0 <= x <= 100) values) /\
  (fst (runConversion cfg env (initialSt previous)) = Succeeded ->
   progress (snd (runConversion cfg env (initialSt previous))) = Some 100 /\
   last (progressLog (trace (snd (runConversion cfg env (initialSt previous))))) None
   = Some 100).
Proof.
  intros Hknown.
  assert (Hnumbers :
    fst (runConversion cfg env (initialSt previous)) <> NotStarted ->
    numbersOnly (snd (runConversion cfg env (initialSt previous)))).
  { apply runConversion_inv.
    - apply unreported_numbers. apply prologue_unreported.
    - apply numbers_tryBlock.
    - apply numbers_catchBlock.
    - apply numbers_finallyBlock. }
  assert (Hordered :
    fst (runConversion cfg env (initialSt previous)) <> NotStarted ->
    progressOrdered (snd (runConversion cfg env (initialSt previous)))).
  { apply runConversion_inv.
    - apply unreported_ordered. apply prologue_unreported.
    - apply ordered_tryBlock.
    - apply ordered_catchBlock.
    - apply ordered_finallyBlock. }
  assert (Hlog :
    fst (runConversion cfg env (initialSt previous)) = NotStarted ->
    progressLog (trace (snd (runConversion cfg env (initialSt previous)))) = []).
  { intros Hnot. rewrite (notStarted_log _ _ _ Hnot). reflexivity. }
  split; [| split; [| split; [| split]]].
  - destruct (fst (runConversion cfg env (initialSt previous))) eqn:Hout.
    + rewrite Hlog by reflexivity. constructor.
    + apply Hordered. discriminate.
    + apply Hordered. discriminate.
  - destruct (fst (runConversion cfg env (initialSt previous))) eqn:Hout.
    + rewrite Hlog by reflexivity. constructor.
    + apply ordered_bounded. apply Hordered. discriminate.
    + apply ordered_bounded. apply Hordered. discriminate.
  - intros timestampUs s. apply updateProgress_max. exact Hknown.
  - intros Hstarted.
    destruct (Hnumbers Hstarted) as (values & Hshape & _).
    destruct (Hordered Hstarted) as (Hsorted & _).
    pose proof (ordered_bounded _ (Hordered Hstarted)) as Hbound.
    rewrite Hshape in Hsorted, Hbound.
    destruct (sorted_numbers values Hsorted) as [Hvalues Hpositive].
    exists values. split; [exact Hshape |]. split; [exact Hvalues |].
    inversion Hbound as [| ? ? _ Hbound']; subst.
    inversion Hbound' as [| ? ? _ Hbound'']; subst.
    rewrite Forall_map in Hbound''.
    rewrite Forall_forall in *. intros x Hx.
    specialize (Hpositive x Hx). specialize (Hbound'' x Hx).
    unfold reported in Hbound''. cbn in Hbound''. lia.
  - intros Hok.
    assert (Hfinished : finished (snd (runConversion cfg env (initialSt previous)))).
    { destruct (runConversion_cases cfg env (initialSt previous))
        as [(Hnot & _) | [(s' & Hok' & -> & ->) | (e & s' & _ & _ & Hrun)]];
        [congruence | | rewrite Hrun in Hok; discriminate].
      apply (inv_snd finished); [apply finished_finallyBlock |].
      pose proof (tryBlock_finished cfg env (snd (prologue env (initialSt previous))) I)
        as Hfin.
      destruct (tryBlock cfg env (snd (prologue env (initialSt previous))))
        as [[[] | e] s'']; [exact Hfin | discriminate]. }
    split; [exact (proj1 Hfinished) | apply finished_last; exact Hfinished].
Qed.

Lemma C1_progress_monotone_witness :
  JS.truthyOpt (durationSeconds threeFrames) = true /\
  fst (runConversion (balancedStandard false) threeFrames (initialSt (Some 100)))
  = Succeeded /\
  progressLog (trace (snd (runConversion (balancedStandard false) threeFrames
                             (initialSt (Some 100)))))
  = [Some 0; None; Some 0; Some 5; Some 50; Some 100; Some 100] /\
  progress (snd (runConversion (balancedStandard false) threeFrames
                   (initialSt (Some 100)))) = Some 100.
Proof.
  assert (Hknown : JS.truthyOpt (durationSeconds threeFrames) = true) by reflexivity.
  destruct (C1_progress_monotone (balancedStandard false) threeFrames (Some 100) Hknown)
    as (_ & _ & _ & _ & Hdone).
  split; [exact Hknown |]. split; [reflexivity |]. split; [reflexivity |].
  apply Hdone. reflexivity.
Defined.

(** C6, as stated, fails: a run whose duration is unknown and that succeeds
    ends with progress 100, not with an unreported progress. *)
Lemma C6_counterexample :
  JS.truthyOpt (durationSeconds unknownDuration) = false /\
  fst (runConversion (balancedStandard false) unknownDuration (initialSt None))
  = Succeeded /\
  progress (snd (runConversion (balancedStandard false) unknownDuration (initialSt None)))
  = Some 100 /\
  progress (snd (runConversion (balancedStandard false) unknownDuration (initialSt None)))
  <> None.
Proof. repeat split; try reflexivity. discriminate. Qed.

(** C6, amended: in a run whose duration is unknown no progress update
    reports a value. After the reset at the start of the run the progress is
    unreported and stays so until the run ends: a run that fails ends with
    progress unreported, a run that succeeds sets it to 100 as its last
    report. *)
Theorem C6_progress_unknown_duration (cfg : Settings) (env : Env) (previous : option Z) :
  JS.truthyOpt (durationSeconds env) = false ->
  (forall timestampUs s, snd (updateProgress (durationSeconds env) timestampUs s) = s) /\
  match fst (runConversion cfg env (initialSt previous)) with
  | NotStarted =>
      progressLog (trace (snd (runConversion cfg env (initialSt previous)))) = []
  | Failed _ =>
      progress (snd (runConversion cfg env (initialSt previous))) = None /\
      progressLog (trace (snd (runConversion cfg env (initialSt previous))))
      = [Some 0; None]
  | Succeeded =>
      progress (snd (runConversion cfg env (initialSt previous))) = Some 100 /\
      progressLog (trace (snd (runConversion cfg env (initialSt previous))))
      = [Some 0; None; Some 100]
  end.
Proof.
  intros Hunknown. split.
  { intros timestampUs s. rewrite (updateProgress_unknown _ _ Hunknown). reflexivity. }
  pose proof (unreported_tryBlock cfg env Hunknown
                (snd (prologue env (initialSt previous)))
                (prologue_unreported env previous)) as Htry.
  destruct (runConversion_cases cfg env (initialSt previous))
    as [(Hnot & _) | [(s' & Hok & -> & ->) | (e & s' & Hthrow & -> & ->)]].
  - rewrite Hnot. rewrite (notStarted_log _ _ _ Hnot). reflexivity.
  - cbn [fst snd].
    destruct (tryBlock cfg env (snd (prologue env (initialSt previous))))
      as [[[] | e] s'']; [| discriminate].
    apply (inv_snd completed); [apply completed_finallyBlock | exact Htry].
  - cbn [fst snd].
    destruct (tryBlock cfg env (snd (prologue env (initialSt previous))))
      as [[[] | e'] s'']; [discriminate |].
    apply (inv_snd unreported); [| exact Htry].
    apply inv_bind; [apply unreported_catchBlock | intros _; apply unreported_finallyBlock].
Qed.

Lemma C6_progress_unknown_duration_witness :
  JS.truthyOpt (durationSeconds unknownDuration) = false /\
  match fst (runConversion (balancedStandard false) unknownDuration (initialSt (Some 40))) with
  | NotStarted => False
  | Failed _ => False
  | Succeeded =>
      progress (snd (runConversion (balancedStandard false) unknownDuration
                       (initialSt (Some 40)))) = Some 100 /\
      progressLog (trace (snd (runConversion (balancedStandard false) unknownDuration
                                 (initialSt (Some 40)))))
      = [Some 0; None; Some 100]
  end.
Proof.
  assert (Hunknown : JS.truthyOpt (durationSeconds unknownDuration) = false)
    by reflexivity.
  split; [exact Hunknown |].
  exact (proj2 (C6_progress_unknown_duration (balancedStandard false) unknownDuration
                  (Some 40) Hunknown)).
Defined.

(** C4: the keyframe interval is [max(1, round(frameRate * gopSeconds))]
    frames, hence at least 1; over a whole run the video unit submitted in
    position [n], counted from 1, carries a keyframe flag that is set
    exactly when [n] is a multiple of the interval; audio units are
    submitted without any options, hence without a keyframe flag. *)
Theorem C4_keyframe_cadence (cfg : Settings) (env : Env) (v : VideoSource)
    (previous : option Z) :
  videoTrack env = Some v ->
  keyInterval v (speed cfg)
  = Z.max 1 (JS.round (frameRate v * SpeedPreset.gopSeconds (speed cfg))) /\
  1 <= keyInterval v (speed cfg) /\
  (forall n options,
     nth_error (videoSubmissions (trace (snd (runConversion cfg env (initialSt previous))))) n
     = Some options ->
     exists flag,
       options = Some {| keyFrame := flag |} /\
       (flag = true <-> (keyInterval v (speed cfg) | Z.of_nat (S n)))) /\
  Forall (fun options => options = None)
    (audioSubmissions (trace (snd (runConversion cfg env (initialSt previous))))).
Proof.
  intros Hv.
  assert (Hmin : 1 <= keyInterval v (speed cfg)) by (unfold keyInterval; lia).
  destruct (schedule_runConversion cfg env v previous Hv) as (_ & Hvideo & Haudio).
  split; [reflexivity |]. split; [exact Hmin |]. split; [| exact Haudio].
  intros n options Hn. rewrite Hvideo, nth_error_map in Hn.
  destruct (nth_error (seq 1 _) n) as [position |] eqn:Hposition; [| discriminate].
  apply nth_error_seq_inv in Hposition. subst position.
  injection Hn as <-.
  exists (JS.rem (Z.of_nat (1 + n)) (keyInterval v (speed cfg)) =? 0).
  split; [reflexivity |].
  apply rem_zero_divide; lia.
Qed.

Lemma C4_keyframe_cadence_witness :
  videoTrack lowRate = Some (hd720 1) /\
  keyInterval (hd720 1) (speed (balancedStandard true)) = 3 /\
  videoSubmissions
    (trace (snd (runConversion (balancedStandard true) lowRate (initialSt None))))
  = [Some {| keyFrame := false |}; Some {| keyFrame := false |};
     Some {| keyFrame := true |}; Some {| keyFrame := false |}] /\
  (exists flag,
     Some {| keyFrame := true |} = Some {| keyFrame := flag |} /\
     (flag = true <->
      (keyInterval (hd720 1) (speed (balancedStandard true)) | Z.of_nat 3))) /\
  audioSubmissions
    (trace (snd (runConversion (balancedStandard true) lowRate (initialSt None))))
  = [None].
Proof.
  assert (Hv : videoTrack lowRate = Some (hd720 1)) by reflexivity.
  destruct (C4_keyframe_cadence (balancedStandard true) lowRate (hd720 1) None Hv)
    as (_ & _ & Hflags & _).
  split; [exact Hv |]. split; [reflexivity |]. split; [reflexivity |].
  split; [| reflexivity].
  apply (Hflags 2%nat). reflexivity.
Defined.

(** C7: when the run gets to the audio probe with the sample rate or the
    channel count missing from the track settings, and the first sample it
    pulls does not tell them either, audio is given up: the run shows
    "Audio track not detected, exporting video only", never configures an
    audio encoder, never submits an audio unit and builds the muxer without
    an audio track; it then ends as a video-only run does (it fails only if
    no video codec is supported or playback fails); and the sample it
    pulled is released exactly once, nothing else ever is, and nothing is
    left buffered. *)
Theorem C7_audio_given_up (cfg : Settings) (env : Env) (previous : option Z)
    (v : VideoSource) (a : AudioTrackSettings) :
  opens cfg env = true -> videoTrack env = Some v ->
  includeAudio cfg = true -> audioTrack env = Some a ->
  negb (JS.truthyOpt (settingsSampleRate a))
  || negb (JS.truthyOpt (settingsChannelCount a)) = true ->
  firstSampleUnknown env = true ->
  audioReleases (trace (snd (runConversion cfg env (initialSt previous)))) = pulled env /\
  audioUse (trace (snd (runConversion cfg env (initialSt previous)))) = [] /\
  bufferedAudio (snd (runConversion cfg env (initialSt previous))) = None /\
  said "Audio track not detected, exporting video only"
    (snd (runConversion cfg env (initialSt previous))) /\
  fst (runConversion cfg env (initialSt previous))
  = match chooseVideoConfig (isVideoConfigSupported env) (videoConfigCandidates v cfg) with
    | None => Failed "H.264 encoding is not supported in this browser."
    | Some _ => if playbackEnded env then Succeeded else Failed "Playback failed."
    end.
Proof.
  intros Hopen Hv Hinclude Htrack Hsettings Hfirst.
  pose proof (outcome_opens cfg env v (initialSt previous) Hopen Hv) as Hout.
  assert (Hstart : audioOff [] (snd (prologue env (initialSt previous)))).
  { apply inv_snd; [apply audioOff_prologue |]. repeat split. }
  pose proof (tryBlock_gives_up cfg env v a Hopen Hv Hinclude Htrack Hsettings Hfirst
                (snd (prologue env (initialSt previous))) Hstart) as Htry.
  assert (Hend :
    audioOff (pulled env) (snd (runConversion cfg env (initialSt previous))) /\
    said "Audio track not detected, exporting video only"
      (snd (runConversion cfg env (initialSt previous)))).
  { destruct (runConversion_cases cfg env (initialSt previous))
      as [(Hnot & _) | [(s' & Hok & -> & ->) | (e & s' & Hthrow & -> & ->)]].
    - rewrite Hnot in Hout.
      destruct (chooseVideoConfig _ _); [destruct (playbackEnded env) |]; discriminate.
    - cbn [snd].
      destruct (tryBlock cfg env (snd (prologue env (initialSt previous))))
        as [[[] | e] s'']; [| discriminate].
      apply (inv_snd (fun s => audioOff (pulled env) s /\ said _ s)); [| exact Htry].
      apply inv_and; [apply audioOff_finallyBlock | apply said_finallyBlock].
    - cbn [snd].
      destruct (tryBlock cfg env (snd (prologue env (initialSt previous))))
        as [[[] | e'] s'']; [discriminate |].
      apply (inv_snd (fun s => audioOff (pulled env) s /\ said _ s)); [| exact Htry].
      apply inv_bind.
      + apply inv_and; [apply audioOff_catchBlock | apply said_catchBlock].
      + intros _. apply inv_and; [apply audioOff_finallyBlock | apply said_finallyBlock]. }
  destruct Hend as [(Hreleases & Huse & Hbuffered) Hsaid].
  repeat split; assumption.
Qed.

Lemma C7_audio_given_up_witness :
  opens (balancedStandard true) audioUnknown = true /\
  firstSampleUnknown audioUnknown = true /\
  audioReleases
    (trace (snd (runConversion (balancedStandard true) audioUnknown (initialSt None))))
  = [deafSample] /\
  fst (runConversion (balancedStandard true) audioUnknown (initialSt None)) = Succeeded.
Proof.
  assert (Hopen : opens (balancedStandard true) audioUnknown = true) by reflexivity.
  assert (Hfirst : firstSampleUnknown audioUnknown = true) by reflexivity.
  destruct (C7_audio_given_up (balancedStandard true) audioUnknown None (hd720 30)
              silentSettings Hopen eq_refl eq_refl eq_refl eq_refl Hfirst)
    as (Hreleases & _ & _ & _ & Hout).
  split; [exact Hopen |]. split; [exact Hfirst |].
  split; [exact Hreleases | exact Hout].
Defined.

(** C8, on the code: when playback fails after the encoders were
    configured, the run ends as failed with "Playback failed."; its
    [finally] clause pauses the element, clears its source, removes it and
    revokes the working URL, and the muxer is never finalized; but no media
    track is stopped and no encoder is closed, although the video encoder
    was configured. *)
Theorem C8_failed_run_leaves_open (cfg : Settings) (env : Env) (previous : option Z)
    (v : VideoSource) (chosen : VideoEncoderConfig.t) :
  opens cfg env = true -> videoTrack env = Some v ->
  chooseVideoConfig (isVideoConfigSupported env) (videoConfigCandidates v cfg)
  = Some chosen ->
  playbackEnded env = false ->
  fst (runConversion cfg env (initialSt previous)) = Failed "Playback failed." /\
  configured chosen (snd (runConversion cfg env (initialSt previous))) /\
  stops (trace (snd (runConversion cfg env (initialSt previous)))) = [] /\
  finalizations (trace (snd (runConversion cfg env (initialSt previous)))) = [] /\
  exists before,
    trace (snd (runConversion cfg env (initialSt previous))) = before ++ finallyTail env.
Proof.
  intros Hopen Hv Hchosen Hfails.
  pose proof (outcome_opens cfg env v (initialSt previous) Hopen Hv) as Hout.
  rewrite Hchosen, Hfails in Hout.
  assert (Hstart : leftOpen (snd (prologue env (initialSt previous)))).
  { apply inv_snd; [apply leftOpen_prologue | split; reflexivity]. }
  pose proof (tryBlock_playback_fails cfg env v chosen Hopen Hv Hchosen Hfails
                (snd (prologue env (initialSt previous))) Hstart) as Htry.
  split; [exact Hout |].
  destruct (runConversion_cases cfg env (initialSt previous))
    as [(Hnot & _) | [(s' & Hok & -> & Hrun) | (e & s' & Hthrow & -> & Hrun)]].
  - congruence.
  - rewrite Hrun in Hout. discriminate.
  - rewrite Hrun. cbn [snd].
    destruct (tryBlock cfg env (snd (prologue env (initialSt previous))))
      as [[[] | e'] s'']; [contradiction |].
    cbn [snd].
    assert (Hend : leftOpen (snd ((catchBlock e ;; finallyBlock env) s'')) /\
                   configured chosen (snd ((catchBlock e ;; finallyBlock env) s''))).
    { apply (inv_snd (fun s => leftOpen s /\ configured chosen s)); [| exact Htry].
      apply inv_bind.
      - apply inv_and; [apply leftOpen_catchBlock | apply configured_catchBlock].
      - intros _. apply inv_and; [apply leftOpen_finallyBlock | apply configured_finallyBlock]. }
    destruct Hend as [[Hstops Hfinal] Hconfigured].
    repeat split; try assumption.
    change ((catchBlock e ;; finallyBlock env) s'')
      with (finallyBlock env (snd (catchBlock e s''))).
    apply finallyBlock_tail.
Qed.

Lemma C8_failed_run_leaves_open_witness :
  opens (balancedStandard false) playbackFails = true /\
  playbackEnded playbackFails = false /\
  fst (runConversion (balancedStandard false) playbackFails (initialSt None))
  = Failed "Playback failed." /\
  stops (trace (snd (runConversion (balancedStandard false) playbackFails (initialSt None))))
  = [] /\
  stops (trace (snd (runConversion (balancedStandard false) threeFrames (initialSt None))))
  = [StopVideoTrack; CloseVideoEncoder].
Proof.
  assert (Hopen : opens (balancedStandard false) playbackFails = true) by reflexivity.
  assert (Hfails : playbackEnded playbackFails = false) by reflexivity.
  destruct (C8_failed_run_leaves_open (balancedStandard false) playbackFails None
              (hd720 30)
              (videoConfig (hd720 30) (balancedStandard false) "avc1.42E01E" true true)
              Hopen eq_refl eq_refl Hfails)
    as (Hout & _ & Hstops & _).
  split; [exact Hopen |]. split; [exact Hfails |]. split; [exact Hout |].
  split; [exact Hstops | reflexivity].
Defined.

(** C9: in a turn of the video task the trace grows by the submission of
    the frame, the progress update and the release of the frame, and then by
    one yield exactly when more than 12 units are pending in the video
    encoder after the submission; the same holds for a turn of the audio
    task with 20; the buffered first sample goes to an idle encoder (no
    unit is pending when the tasks are launched), leaves at most one unit
    pending and is followed by no yield; timer ticks and encoder activity
    never make a task yield. *)
Theorem C9_backpressure (ctx : Ctx) (s : St) :
  (forall frame,
     exists middle,
       trace (snd (videoStep ctx frame s))
       = trace s
         ++ EncodeVideo frame
              (Some {| keyFrame :=
                         JS.rem (videoFrameCount s + 1) (ctxKeyInterval ctx) =? 0 |})
            :: middle
         ++ (if (12 <? videoQueue (snd (videoStep ctx frame s)))%nat
             then [WaitForBreathingRoom Video] else []) /\
       yields middle = [] /\
       videoQueue (snd (videoStep ctx frame s)) = S (videoQueue s)) /\
  (forall data,
     exists middle,
       trace (snd (audioStep ctx data s))
       = trace s
         ++ EncodeAudio data None :: middle
         ++ (if (20 <? audioQueue (snd (audioStep ctx data s)))%nat
             then [WaitForBreathingRoom Audio] else []) /\
       yields middle = [] /\
       audioQueue (snd (audioStep ctx data s)) = S (audioQueue s)) /\
  (audioQueue s = 0%nat ->
   yields (trace (snd (audioTaskStart ctx s))) = yields (trace s) /\
   (20 <? audioQueue (snd (audioTaskStart ctx s)))%nat = false) /\
  (forall cfg env previous,
     audioQueue (snd (beforeEncode cfg env (initialSt previous))) = 0%nat) /\
  (forall tasks e,
     match e with
     | VideoRead _ => True
     | AudioRead _ => True
     | _ => yields (trace (snd (handleEvent ctx tasks e s))) = yields (trace s)
     end).
Proof.
  split; [| split; [| split; [| split]]].
  - intros frame.
    destruct (videoStep_effect ctx frame s) as (middle & Htrace & Hyields & Hqueue & _).
    exists middle. auto.
  - intros data.
    destruct (audioStep_effect ctx data s) as (middle & Htrace & Hyields & Hqueue & _).
    exists middle. auto.
  - intros Hidle.
    destruct (audioTaskStart_effect ctx s) as (Hyields & Hqueue & _).
    split; [exact Hyields |].
    apply Nat.ltb_ge. rewrite Hidle in Hqueue. lia.
  - intros cfg env previous.
    apply (inv_snd idle (beforeEncode cfg env) (initialSt previous));
      [apply idle_beforeEncode | split; reflexivity].
  - intros tasks e. apply handleEvent_quiet.
Qed.

Lemma C9_backpressure_witness :
  audioQueue bufferedSt = 0%nat /\
  (yields (trace (snd (audioTaskStart (sampleCtx true) bufferedSt)))
   = yields (trace bufferedSt) /\
   (20 <? audioQueue (snd (audioTaskStart (sampleCtx true) bufferedSt)))%nat = false) /\
  audioSubmissions (trace (snd (audioTaskStart (sampleCtx true) bufferedSt))) = [None] /\
  yields (trace (snd (videoStep (sampleCtx false) (frame 1 0) (busySt 12)))) = [Video] /\
  yields (trace (snd (videoStep (sampleCtx false) (frame 1 0) (busySt 11)))) = [] /\
  yields (trace (snd (audioStep (sampleCtx true) (sample 1 48000 2 0) (busySt 20))))
  = [Audio] /\
  yields (trace (snd (audioStep (sampleCtx true) (sample 1 48000 2 0) (busySt 19)))) = [].
Proof.
  assert (Hidle : audioQueue bufferedSt = 0%nat) by reflexivity.
  destruct (C9_backpressure (sampleCtx true) bufferedSt) as (_ & _ & Hstart & _).
  split; [exact Hidle |]. split; [exact (Hstart Hidle) |].
  repeat split; reflexivity.
Defined.

(** * Further properties of the run *)

(** What is particular to an invariant that reads the trace through
    [flat_map] or [filter]. [unfolding] unfolds the invariant. *)
Ltac log_leaf unfolding :=
  let s := fresh "s" in
  let H := fresh "H" in
  intros s H;
  first
    [ exact H
    | unfolding; cbn [trace withTrace] in *;
      rewrite ?flat_map_app, ?filter_app; cbn; rewrite ?app_nil_r; exact H ].

(** A run that starts goes through its [try] block and then through its
    [finally] clause, with the [catch] clause in between when the block
    throws. *)
Lemma runConversion_hoare (A B : St -> Prop) (C : JS.Thrown -> St -> Prop)
    (Qs : St -> Prop) (Qf : JS.Thrown -> St -> Prop) cfg env s :
  A (snd (prologue env s)) ->
  hoare A (tryBlock cfg env) (fun _ => B) C ->
  (forall s', B s' -> Qs (snd (finallyBlock env s'))) ->
  (forall e s', C e s' -> Qf e (snd ((catchBlock e ;; finallyBlock env) s'))) ->
  match fst (runConversion cfg env s) with
  | NotStarted => True
  | Succeeded => Qs (snd (runConversion cfg env s))
  | Failed message =>
      exists e, message = errorMessage e /\ Qf e (snd (runConversion cfg env s))
  end.
Proof.
  intros Hstart Htry Hok Hthrow.
  specialize (Htry (snd (prologue env s)) Hstart).
  destruct (runConversion_cases cfg env s)
    as [(-> & _) | [(s' & Hres & -> & ->) | (e & s' & Hres & -> & ->)]].
  - exact I.
  - cbn [fst snd].
    destruct (tryBlock cfg env (snd (prologue env s))) as [[[] | e] s''];
      [| discriminate].
    apply Hok. exact Htry.
  - cbn [fst snd].
    destruct (tryBlock cfg env (snd (prologue env s))) as [[[] | e'] s''];
      [discriminate |].
    cbn [fst] in Hres. injection Hres as ->.
    exists e. split; [reflexivity |]. apply Hthrow. exact Htry.
Qed.

(** A run that is refused leaves the trace as it was, or adds the one
    error it shows. *)
Lemma notStarted_trace cfg env s :
  fst (runConversion cfg env s) = NotStarted ->
  trace (snd (runConversion cfg env s)) = trace s \/
  exists message, trace (snd (runConversion cfg env s)) = trace s ++ [SetError message].
Proof.
  intros Hnot.
  destruct (runConversion_cases cfg env s)
    as [(_ & [-> | [message ->]]) | [(s' & _ & _ & Hrun) | (e & s' & _ & _ & Hrun)]];
    try (rewrite Hrun in Hnot; discriminate).
  - left. reflexivity.
  - right. exists message. reflexivity.
Qed.

(** What an invariant gives when the computation throws can be weakened. *)
Lemma inv_weaken_throw {A : Type} (I E : St -> Prop) (m : M A) :
  inv I m -> (forall s, I s -> E s) -> hoare I m (fun _ => I) (fun _ => E).
Proof.
  intros Hinv HE. eapply hoare_conseq; [exact Hinv | | | ]; cbn; auto.
Qed.

(** ** The [finally] clause *)

Lemma finallyBlock_timer env s : progressTimer (snd (finallyBlock env s)) = false.
Proof.
  unfold finallyBlock, stopProgressTimer, when, bind, gets, modify, emit, ret.
  destruct (progressTimer s) eqn:Htimer, (negb (inputUrl env)); cbn; auto.
Qed.

Lemma catch_finally env e s :
  (catchBlock e ;; finallyBlock env) s = finallyBlock env (snd (catchBlock e s)).
Proof. reflexivity. Qed.

(** Keeps an invariant on the trace through any part of the run that does
    not emit what the invariant reads. *)
Ltac log_auto unfolding :=
  unfold_phases; unfold updateProgress, setProgress;
  inv_auto fail ltac:(log_leaf unfolding).

Lemma converting_tryBlock calls cfg env : inv (converting calls) (tryBlock cfg env).
Proof. log_auto ltac:(unfold converting, convertingLog). Qed.

Lemma converting_catchBlock calls e : inv (converting calls) (catchBlock e).
Proof. log_auto ltac:(unfold converting, convertingLog). Qed.

Lemma finallyBlock_cleans env s :
  converting [true] s -> cleanedUp env (snd (finallyBlock env s)).
Proof.
  intros Hconv. split; [apply finallyBlock_tail |]. split; [apply finallyBlock_timer |].
  unfold converting in Hconv.
  unfold finallyBlock, stopProgressTimer, when, bind, gets, modify, emit, ret.
  destruct (progressTimer s), (negb (inputUrl env)); cbn -[convertingLog];
    unfold convertingLog in *; rewrite ?flat_map_app; cbn; rewrite ?app_nil_r;
    rewrite Hconv; reflexivity.
Qed.

(** X1: a run that is refused before its [try] never touches
    [isConverting]; every other run, whether it succeeds or fails and
    wherever it fails, ends with the calls of its [finally] clause (pause,
    clear the source, remove the element, revoke the working URL if the run
    made it, [setIsConverting(false)]), with the progress interval cleared,
    and has set [isConverting] to [true] once and back to [false] once. *)
Theorem X1_finally_always_runs (cfg : Settings) (env : Env) (previous : option Z) :
  match fst (runConversion cfg env (initialSt previous)) with
  | NotStarted =>
      convertingLog (trace (snd (runConversion cfg env (initialSt previous)))) = []
  | Succeeded => cleanedUp env (snd (runConversion cfg env (initialSt previous)))
  | Failed _ => cleanedUp env (snd (runConversion cfg env (initialSt previous)))
  end.
Proof.
  pose proof (runConversion_hoare (converting [true]) (converting [true])
                (fun _ => converting [true]) (cleanedUp env) (fun _ => cleanedUp env)
                cfg env (initialSt previous)) as Hrun.
  destruct (fst (runConversion cfg env (initialSt previous))) eqn:Hout.
  - destruct (notStarted_trace cfg env (initialSt previous) Hout) as [-> | [m ->]];
      reflexivity.
  - apply Hrun.
    + unfold prologue, resetOutput, setProgress, setError, emit, modify, gets, when,
        bind, ret. destruct (inputUrl env); reflexivity.
    + apply converting_tryBlock.
    + intros s'. apply finallyBlock_cleans.
    + intros e s' Hs'. rewrite catch_finally. apply finallyBlock_cleans.
      apply (inv_snd _ _ _ (converting_catchBlock [true] e) Hs').
  - destruct Hrun as (e & _ & Hclean); [| | | | exact Hclean].
    + unfold prologue, resetOutput, setProgress, setError, emit, modify, gets, when,
        bind, ret. destruct (inputUrl env); reflexivity.
    + apply converting_tryBlock.
    + intros s'. apply finallyBlock_cleans.
    + intros e s' Hs'. rewrite catch_finally. apply finallyBlock_cleans.
      apply (inv_snd _ _ _ (converting_catchBlock [true] e) Hs').
Qed.

(** ** The working URL *)

Lemma urlCalls_tryBlock calls cfg env : inv (urlCalls calls) (tryBlock cfg env).
Proof. log_auto ltac:(unfold urlCalls, urlLog). Qed.

Lemma urlCalls_catchBlock calls e : inv (urlCalls calls) (catchBlock e).
Proof. log_auto ltac:(unfold urlCalls, urlLog). Qed.

Lemma urlCalls_prologue env previous :
  urlCalls (if inputUrl env then [] else [CreateObjectURL])
    (snd (prologue env (initialSt previous))).
Proof.
  unfold prologue, resetOutput, setProgress, setError, emit, modify, gets, when,
    bind, ret. destruct (inputUrl env); reflexivity.
Qed.

Lemma urlCalls_finallyBlock env s :
  urlCalls (if inputUrl env then [] else [CreateObjectURL]) s ->
  urlLog (trace (snd (finallyBlock env s)))
  = if inputUrl env then [] else [CreateObjectURL; RevokeObjectURL].
Proof.
  unfold urlCalls. intros Hcalls.
  unfold finallyBlock, stopProgressTimer, when, bind, gets, modify, emit, ret.
  destruct (progressTimer s), (inputUrl env); cbn -[urlLog];
    unfold urlLog in *; rewrite ?filter_app; cbn; rewrite ?app_nil_r;
    rewrite Hcalls; reflexivity.
Qed.

(** X2: the working URL is created by the run exactly when the component
    holds no input URL, and then it is revoked before the run returns,
    whether the run succeeds or fails; a run never revokes a URL it did not
    create, and a run that is refused creates none. *)
Theorem X2_working_url_balance (cfg : Settings) (env : Env) (previous : option Z) :
  urlLog (trace (snd (runConversion cfg env (initialSt previous))))
  = match fst (runConversion cfg env (initialSt previous)) with
    | NotStarted => []
    | _ => if inputUrl env then [] else [CreateObjectURL; RevokeObjectURL]
    end.
Proof.
  pose proof (runConversion_hoare
                (urlCalls (if inputUrl env then [] else [CreateObjectURL]))
                (urlCalls (if inputUrl env then [] else [CreateObjectURL]))
                (fun _ => urlCalls (if inputUrl env then [] else [CreateObjectURL]))
                (fun s => urlLog (trace s)
                          = if inputUrl env then [] else [CreateObjectURL; RevokeObjectURL])
                (fun _ s => urlLog (trace s)
                            = if inputUrl env then [] else [CreateObjectURL; RevokeObjectURL])
                cfg env (initialSt previous)
                (urlCalls_prologue env previous)
                (urlCalls_tryBlock _ cfg env)
                (urlCalls_finallyBlock env)) as Hrun.
  assert (Hcatch : forall e s',
    urlCalls (if inputUrl env then [] else [CreateObjectURL]) s' ->
    urlLog (trace (snd ((catchBlock e ;; finallyBlock env) s')))
    = if inputUrl env then [] else [CreateObjectURL; RevokeObjectURL]).
  { intros e s' Hs'. rewrite catch_finally. apply urlCalls_finallyBlock.
    apply (inv_snd _ _ _ (urlCalls_catchBlock _ e) Hs'). }
  specialize (Hrun Hcatch).
  destruct (fst (runConversion cfg env (initialSt previous))) eqn:Hout.
  - destruct (notStarted_trace cfg env (initialSt previous) Hout) as [-> | [m ->]];
      reflexivity.
  - exact Hrun.
  - destruct Hrun as (e & _ & Hlog). exact Hlog.
Qed.

(** ** The error and the status shown *)

Lemma noError_tryBlock cfg env : inv noError (tryBlock cfg env).
Proof. log_auto ltac:(unfold noError, errorLog). Qed.

Lemma noError_finallyBlock env : inv noError (finallyBlock env).
Proof. log_auto ltac:(unfold noError, errorLog). Qed.

Lemma errorsAre_finallyBlock errors env : inv (errorsAre errors) (finallyBlock env).
Proof. log_auto ltac:(unfold errorsAre, errorLog). Qed.

Lemma showing_finallyBlock status env : inv (showing status) (finallyBlock env).
Proof. log_auto ltac:(unfold showing, statusLog). Qed.

Lemma errorLog_app (t1 t2 : list Action) : errorLog (t1 ++ t2) = errorLog t1 ++ errorLog t2.
Proof. apply flat_map_app. Qed.

Lemma statusLog_app (t1 t2 : list Action) :
  statusLog (t1 ++ t2) = statusLog t1 ++ statusLog t2.
Proof. apply flat_map_app. Qed.

Lemma finalize_shows :
  hoare (fun _ => True) finalize (fun _ => showing "Conversion complete") (fun _ _ => True).
Proof.
  intros s _. unfold finalize, setStatus, setProgress, emit, modify, gets, bind.
  unfold showing. cbn -[statusLog]. cbn [trace withTrace].
  repeat rewrite statusLog_app. cbn [statusLog flat_map app].
  rewrite !app_nil_r. eauto.
Qed.

Lemma tryBlock_shows cfg env :
  hoare (fun _ => True) (tryBlock cfg env)
    (fun _ => showing "Conversion complete") (fun _ _ => True).
Proof.
  unfold tryBlock. do 4 (apply hoare_last; intros ?). apply finalize_shows.
Qed.

Lemma catchBlock_reports e s :
  noError s ->
  errorLog (trace (snd (catchBlock e s))) = [None; Some (errorMessage e)] /\
  showing "Conversion failed" (snd (catchBlock e s)).
Proof.
  unfold noError. intros Hnone.
  unfold catchBlock, setError, setStatus, emit, modify, bind, showing.
  cbn -[errorLog statusLog]. cbn [trace withTrace].
  repeat rewrite errorLog_app. repeat rewrite statusLog_app.
  cbn [errorLog statusLog flat_map app]. rewrite Hnone, !app_nil_r.
  split; [reflexivity | eauto].
Qed.

(** X3: a run that succeeds has cleared the error at its start, never sets
    one, and shows "Conversion complete" as its last status; a run that
    fails shows exactly one error, the message of what was thrown, and
    "Conversion failed" as its last status; a run that is refused changes
    no status. *)
Theorem X3_outcome_is_reported (cfg : Settings) (env : Env) (previous : option Z) :
  match fst (runConversion cfg env (initialSt previous)) with
  | NotStarted =>
      statusLog (trace (snd (runConversion cfg env (initialSt previous)))) = []
  | Succeeded =>
      errorLog (trace (snd (runConversion cfg env (initialSt previous)))) = [None] /\
      showing "Conversion complete" (snd (runConversion cfg env (initialSt previous)))
  | Failed message =>
      errorLog (trace (snd (runConversion cfg env (initialSt previous))))
      = [None; Some message] /\
      showing "Conversion failed" (snd (runConversion cfg env (initialSt previous)))
  end.
Proof.
  assert (Hrun : match fst (runConversion cfg env (initialSt previous)) with
                 | NotStarted => True
                 | Succeeded =>
                     errorLog (trace (snd (runConversion cfg env (initialSt previous))))
                     = [None] /\
                     showing "Conversion complete"
                       (snd (runConversion cfg env (initialSt previous)))
                 | Failed message =>
                     exists e, message = errorMessage e /\
                       (errorLog (trace (snd (runConversion cfg env (initialSt previous))))
                        = [None; Some (errorMessage e)] /\
                        showing "Conversion failed"
                          (snd (runConversion cfg env (initialSt previous))))
                 end).
  { apply (runConversion_hoare noError
             (fun s => noError s /\ showing "Conversion complete" s)
             (fun _ => noError)
             (fun s => errorLog (trace s) = [None] /\ showing "Conversion complete" s)
             (fun e s => errorLog (trace s) = [None; Some (errorMessage e)] /\
                         showing "Conversion failed" s)).
    - unfold prologue, resetOutput, setProgress, setError, emit, modify, gets, when,
        bind, ret. destruct (inputUrl env); reflexivity.
    - eapply hoare_conseq;
        [apply (hoare_and _ _ _ _ _ _ _ (noError_tryBlock cfg env) (tryBlock_shows cfg env))
        | | | ]; cbn; [auto | auto | intros e s [H _]; exact H].
    - intros s' [Hnone Hshow]. split.
      + apply (inv_snd _ _ _ (noError_finallyBlock env) Hnone).
      + apply (inv_snd _ _ _ (showing_finallyBlock _ env) Hshow).
    - intros e s' Hs'. rewrite catch_finally.
      destruct (catchBlock_reports e s' Hs') as [Herr Hshow]. split.
      + apply (inv_snd _ _ _ (errorsAre_finallyBlock _ env) Herr).
      + apply (inv_snd _ _ _ (showing_finallyBlock _ env) Hshow). }
  destruct (fst (runConversion cfg env (initialSt previous))) eqn:Hout.
  - destruct (notStarted_trace cfg env (initialSt previous) Hout) as [-> | [m ->]];
      reflexivity.
  - exact Hrun.
  - destruct Hrun as (e & -> & Hres). exact Hres.
Qed.

(** ** The progress interval *)

Ltac timer_leaf :=
  log_leaf ltac:(unfold timerPending, timerUnset, intervalLog in *).

Lemma timerUnset_pending known s : timerUnset s -> timerPending known s.
Proof. intros H. left. exact H. Qed.

Lemma timerUnset_configureEncoders cfg env v p :
  inv timerUnset (configureEncoders cfg env v p).
Proof. log_auto ltac:(unfold timerUnset, intervalLog in *). Qed.

Lemma timerPending_encode env ctx :
  hoare timerUnset (encode env ctx)
    (fun _ => timerPending (JS.truthyOpt (ctxDuration ctx)))
    (fun _ => timerPending (JS.truthyOpt (ctxDuration ctx))).
Proof.
  unfold encode.
  eapply hoare_bind with (Q := fun _ => timerPending (JS.truthyOpt (ctxDuration ctx))).
  { intros s [Htimer Hlog]. destruct (JS.truthyOpt (ctxDuration ctx)).
    - right. unfold when, bind, modify, emit. cbn -[intervalLog].
      cbn [trace withTrace withProgressTimer]. unfold intervalLog in *.
      rewrite filter_app, Hlog. repeat split.
    - cbn. left. split; assumption. }
  intros _. fold_inv.
  unfold audioTaskStart, handleEvent, videoStep, audioStep, encodeVideo, encodeAudio,
    updateProgress, setProgress.
  inv_auto fail timer_leaf.
Qed.

Lemma timerPending_finalize known : inv (timerPending known) finalize.
Proof. unfold finalize, setProgress. inv_auto fail timer_leaf. Qed.

Lemma timerPending_catchBlock known e : inv (timerPending known) (catchBlock e).
Proof. unfold catchBlock. inv_auto fail timer_leaf. Qed.

Lemma timerPending_tryBlock cfg env :
  hoare timerUnset (tryBlock cfg env)
    (fun _ => timerPending (JS.truthyOpt (durationSeconds env)))
    (fun _ => timerPending (JS.truthyOpt (durationSeconds env))).
Proof.
  unfold tryBlock.
  eapply hoare_bind with (Q := fun _ => timerUnset).
  { apply inv_weaken_throw; [| intros s; apply timerUnset_pending].
    log_auto ltac:(unfold timerUnset, intervalLog in *). }
  intros opened.
  eapply hoare_bind with (Q := fun _ => timerUnset).
  { apply inv_weaken_throw; [| intros s; apply timerUnset_pending].
    log_auto ltac:(unfold timerUnset, intervalLog in *). }
  intros probe.
  eapply hoare_bind with
    (Q := fun ctx s => timerUnset s /\ ctxDuration ctx = durationSeconds env).
  { eapply hoare_conseq;
      [apply (hoare_and _ _ _ _ _ _ _
                (timerUnset_configureEncoders cfg env (fst opened) probe)
                (returns_configureEncoders cfg env (fst opened) probe)) | | | ]; cbn.
    - auto.
    - intros ctx s (Hs & _ & Hd & _). auto.
    - intros e s [Hs _]. apply timerUnset_pending. exact Hs. }
  intros ctx. apply hoare_pure. intros Hd. rewrite <- Hd.
  eapply hoare_bind; [apply timerPending_encode | intros u].
  apply timerPending_finalize.
Qed.

Lemma timerPending_finallyBlock known env s :
  timerPending known s ->
  intervalLog (trace (snd (finallyBlock env s))) = [] \/
  (intervalLog (trace (snd (finallyBlock env s))) = [SetInterval; ClearInterval] /\
   known = true).
Proof.
  unfold finallyBlock, stopProgressTimer, when, bind, gets, modify, emit, ret.
  intros [[Htimer Hlog] | (Htimer & Hlog & Hknown)]; rewrite Htimer;
    destruct (negb (inputUrl env)); cbn -[intervalLog];
    unfold intervalLog in *; rewrite ?filter_app; cbn; rewrite ?app_nil_r;
    rewrite Hlog; auto.
Qed.

(** X4: in every run the progress interval is set at most once, only when
    the duration is known, and every interval that was set is cleared
    before the run returns, whether it succeeds or fails. *)
Theorem X4_progress_interval_cleared (cfg : Settings) (env : Env) (previous : option Z) :
  intervalLog (trace (snd (runConversion cfg env (initialSt previous)))) = [] \/
  (intervalLog (trace (snd (runConversion cfg env (initialSt previous))))
   = [SetInterval; ClearInterval] /\
   JS.truthyOpt (durationSeconds env) = true).
Proof.
  assert (Hrun := runConversion_hoare timerUnset
            (timerPending (JS.truthyOpt (durationSeconds env)))
            (fun _ => timerPending (JS.truthyOpt (durationSeconds env)))
            (fun s => intervalLog (trace s) = [] \/
                      (intervalLog (trace s) = [SetInterval; ClearInterval] /\
                       JS.truthyOpt (durationSeconds env) = true))
            (fun _ s => intervalLog (trace s) = [] \/
                        (intervalLog (trace s) = [SetInterval; ClearInterval] /\
                         JS.truthyOpt (durationSeconds env) = true))
            cfg env (initialSt previous)).
  assert (Hstart : timerUnset (snd (prologue env (initialSt previous)))).
  { unfold prologue, resetOutput, setProgress, setError, emit, modify, gets, when,
      bind, ret. destruct (inputUrl env); split; reflexivity. }
  specialize (Hrun Hstart (timerPending_tryBlock cfg env)
                (timerPending_finallyBlock _ env)).
  assert (Hcatch : forall e s',
    timerPending (JS.truthyOpt (durationSeconds env)) s' ->
    intervalLog (trace (snd ((catchBlock e ;; finallyBlock env) s'))) = [] \/
    (intervalLog (trace (snd ((catchBlock e ;; finallyBlock env) s')))
     = [SetInterval; ClearInterval] /\
     JS.truthyOpt (durationSeconds env) = true)).
  { intros e s' Hs'. rewrite catch_finally. apply timerPending_finallyBlock.
    apply (inv_snd _ _ _ (timerPending_catchBlock _ e) Hs'). }
  specialize (Hrun Hcatch).
  destruct (fst (runConversion cfg env (initialSt previous))) eqn:Hout.
  - left.
    destruct (notStarted_trace cfg env (initialSt previous) Hout) as [-> | [m ->]];
      reflexivity.
  - exact Hrun.
  - destruct Hrun as (e & _ & Hlog). exact Hlog.
Qed.

(** ** Frames: submitted in order, released once *)


(** A step that keeps [I] and cannot throw. *)
Lemma hoare_quiet {A : Type} (I : St -> Prop) (m : M A) (E : JS.Thrown -> St -> Prop) :
  inv I m -> total m -> hoare I m (fun _ => I) E.
Proof.
  intros Hinv Htotal.
  eapply hoare_conseq; [apply (inv_total I m Hinv Htotal) | | | ]; cbn;
    [auto | auto | intros e s []].
Qed.

(** What cannot throw meets any condition on what it throws. *)
Lemma hoare_never {A : Type} (P : St -> Prop) (m : M A) Q (E : JS.Thrown -> St -> Prop) :
  hoare P m Q (fun _ _ => False) -> hoare P m Q E.
Proof.
  intros H. eapply hoare_conseq; [exact H | | | ]; cbn; [auto | auto | intros e s []].
Qed.









(** The first step of a sequence keeps [I] and cannot throw. *)
Ltac quiet I keeping :=
  eapply hoare_bind with (Q := fun _ => I);
  [ apply hoare_quiet; [ keeping | total_auto ] | intros ? ].









(** ** Audio samples: the buffered one first, then in order *)

Ltac samples_leaf :=
  log_leaf ltac:(unfold samplesDone, audioHeld, audioUnconfigured, audioConfigured,
                   audioSubmitted, audioReleases, audioConfigs in *).

(** Runs the primitives of [M] in the goal and reads the trace. *)
Ltac samples_run Hsub Hrel Hbuf :=
  unfold setStatus, bind, gets, emit, modify, ret;
  cbn [bufferedAudio withBufferedAudio withTrace trace includeAudioTrack audioReader
       andb fst snd optionList];
  rewrite ?Hbuf;
  cbn [bufferedAudio withBufferedAudio withTrace trace includeAudioTrack audioReader
       andb fst snd optionList];
  unfold samplesDone, audioHeld, audioSubmitted, audioReleases in *;
  cbn [bufferedAudio withBufferedAudio withTrace trace];
  rewrite ?flat_map_app; cbn [flat_map app]; rewrite ?Hsub, ?Hrel;
  repeat split; auto.

Lemma trackProbe_reader cfg env :
  audioReader (trackProbe cfg env) = includeAudioTrack (trackProbe cfg env).
Proof. unfold trackProbe. destruct (audioTrack env), (includeAudio cfg); reflexivity. Qed.

Lemma analyzeAudio_after cfg env :
  hoare (audioHeld None) (analyzeAudio env (trackProbe cfg env))
    (afterAnalysis cfg env) (fun _ _ => False).
Proof.
  intros s (Hsub & Hrel & Hbuf).
  unfold analyzeAudio, afterAnalysis, analysed.
  rewrite (trackProbe_reader cfg env).
  destruct (includeAudioTrack (trackProbe cfg env)) eqn:Hinclude; cbn [andb].
  - destruct (attributesUnknown (trackProbe cfg env)) eqn:Hunknown.
    + destruct (firstAudio env) as [first |].
      * unfold bind at 1. unfold bind at 1. cbn [setStatus emit modify ret bind].
        cbn [includeAudioTrack andb].
        destruct (attributesUnknown
                    {| includeAudioTrack := true; audioReader := true;
                       audioSampleRate := Some (AudioData.sampleRate first);
                       audioChannels := Some (AudioData.numberOfChannels first) |});
          samples_run Hsub Hrel Hbuf.
      * unfold bind at 1. unfold bind at 1. cbn [setStatus emit modify ret bind].
        rewrite Hinclude, Hunknown. samples_run Hsub Hrel Hbuf.
    + unfold bind at 1. cbn [ret]. rewrite Hinclude, Hunknown.
      samples_run Hsub Hrel Hbuf.
      rewrite (trackProbe_reader cfg env), Hinclude. auto.
  - unfold bind at 1. cbn [ret]. rewrite Hinclude. samples_run Hsub Hrel Hbuf.
    rewrite Hinclude. auto.
Qed.

(** Runs the primitives of [M] in the goal, and reads the audio of the
    trace that results. *)
Ltac audio_run :=
  unfold setStatus, bind, gets, emit, modify, ret, throw, reject;
  cbn [isSome audioTaskRuns ctxAudioEnabled ctxAudioReader ctxAudioEncoder andb
       bufferedAudio withBufferedAudio withTrace trace fst snd];
  unfold audioHeld, samplesDone, audioSubmitted, audioReleases, audioConfigs in *;
  cbn [bufferedAudio trace withProgress withProgressTimer withProgressOffsetUs
       withVideoFrameCount withBufferedAudio withCurrentTime withVideoQueue
       withAudioQueue withTrace];
  rewrite ?flat_map_app; cbn [flat_map app]; rewrite ?app_nil_r.









(** Without the audio task, the encoding phase neither submits nor releases
    a sample, and leaves what is buffered where it is. *)
Ltac without_audio Hruns :=
  unfold encode, audioTaskStart; rewrite Hruns; cbn [when];
  inv_auto
    ltac:(idtac;
          match goal with
          | |- inv _ (handleEvent ?ctx ?tasks ?e) =>
              unfold handleEvent; rewrite Hruns, ?andb_false_r; cbn [andb when];
              unfold videoStep, encodeVideo, updateProgress, setProgress
          end)
    samples_leaf.

Lemma audioHeld_encode held env ctx :
  audioTaskRuns ctx = false -> inv (audioHeld held) (encode env ctx).
Proof. intros Hruns. without_audio Hruns. Qed.













Lemma audioHeld_finallyBlock held env : inv (audioHeld held) (finallyBlock env).
Proof. unfold finallyBlock, stopProgressTimer. inv_auto fail samples_leaf. Qed.

Lemma audioHeld_catchBlock held e : inv (audioHeld held) (catchBlock e).
Proof. unfold catchBlock. inv_auto fail samples_leaf. Qed.




(** ** The sample read for the probe, when audio is not encoded after all *)

(** When the first sample tells the attributes, the probe keeps audio on
    with the attributes of that sample. *)
Lemma returns_analyzeAudio_known cfg env first :
  analysed cfg env = Some first ->
  JS.truthy (AudioData.sampleRate first)
  && JS.truthy (AudioData.numberOfChannels first) = true ->
  returns (analyzeAudio env (trackProbe cfg env))
    (fun p => includeAudioTrack p = true /\
              audioSampleRate p = Some (AudioData.sampleRate first) /\
              audioChannels p = Some (AudioData.numberOfChannels first))
    (fun _ => False).
Proof.
  unfold analysed. intros Hread Hknown.
  destruct (includeAudioTrack (trackProbe cfg env) && audioReader (trackProbe cfg env)
            && attributesUnknown (trackProbe cfg env)) eqn:Hcond; [| discriminate].
  apply andb_true_iff in Hknown. destruct Hknown as [Hrate Hchannels].
  intros s _. unfold analyzeAudio. rewrite Hcond, Hread.
  apply andb_true_iff in Hcond. destruct Hcond as [Hcond _].
  apply andb_true_iff in Hcond. destruct Hcond as [Hinclude Hreader].
  unfold setStatus, bind, gets, emit, modify, ret.
  unfold attributesUnknown. cbn [audioSampleRate audioChannels JS.truthyOpt].
  rewrite Hinclude, Hrate, Hchannels. cbn. auto.
Qed.

Lemma audioHeld_analyzeAudio_known cfg env first :
  analysed cfg env = Some first ->
  JS.truthy (AudioData.sampleRate first)
  && JS.truthy (AudioData.numberOfChannels first) = true ->
  hoare (audioHeld None) (analyzeAudio env (trackProbe cfg env))
    (fun p s => audioHeld (Some first) s /\
                includeAudioTrack p = true /\
                audioSampleRate p = Some (AudioData.sampleRate first) /\
                audioChannels p = Some (AudioData.numberOfChannels first))
    (fun _ _ => False).
Proof.
  intros Hread Hknown.
  eapply hoare_conseq;
    [apply (hoare_and _ _ _ _ _ _ _
              (analyzeAudio_after cfg env)
              (returns_analyzeAudio_known cfg env first Hread Hknown)) | | | ]; cbn.
  - auto.
  - intros p s [Hafter (Hinclude & Hrate & Hchannels)].
    unfold afterAnalysis in Hafter. rewrite Hinclude, Hread in Hafter.
    destruct Hafter as [_ Hheld]. auto.
  - intros e s [[] _].
Qed.

(** The sample stays where it is when no video codec is supported, and
    when AAC is refused; in the second case the audio task will not run. *)
Lemma audioHeld_configureEncoders cfg env v p first :
  includeAudioTrack p = true ->
  audioSampleRate p = Some (AudioData.sampleRate first) ->
  audioChannels p = Some (AudioData.numberOfChannels first) ->
  JS.truthy (AudioData.sampleRate first)
  && JS.truthy (AudioData.numberOfChannels first) = true ->
  chooseVideoConfig (isVideoConfigSupported env) (videoConfigCandidates v cfg) = None \/
  isAudioConfigSupported env (aacConfig cfg first) = false ->
  hoare (audioHeld (Some first)) (configureEncoders cfg env v p)
    (fun ctx s => audioHeld (Some first) s /\ audioTaskRuns ctx = false)
    (fun _ => audioHeld (Some first)).
Proof.
  intros Hinclude Hrate Hchannels Hknown Hrefused s (Hs & Hr & Hb).
  apply andb_true_iff in Hknown. destruct Hknown as [Hr' Hc'].
  unfold configureEncoders, negotiateAudio. rewrite Hinclude, Hrate, Hchannels.
  cbn [JS.truthyOpt andb]. rewrite Hr', Hc'. cbn [andb].
  destruct (chooseVideoConfig _ _) as [chosen |].
  - destruct Hrefused as [Hnone | Haac]; [discriminate |].
    unfold aacConfig in Haac. rewrite Haac.
    audio_run. rewrite Hs, Hr. auto.
  - audio_run. auto.
Qed.

Lemma audioHeld_finalize held : inv (audioHeld held) finalize.
Proof. unfold finalize, setProgress. inv_auto fail samples_leaf. Qed.

Lemma audioHeld_openSource held cfg env : inv (audioHeld held) (openSource cfg env).
Proof. unfold openSource. inv_auto fail samples_leaf. Qed.

Lemma audioHeld_tryBlock cfg env v first :
  opens cfg env = true -> videoTrack env = Some v ->
  analysed cfg env = Some first ->
  JS.truthy (AudioData.sampleRate first)
  && JS.truthy (AudioData.numberOfChannels first) = true ->
  chooseVideoConfig (isVideoConfigSupported env) (videoConfigCandidates v cfg) = None \/
  isAudioConfigSupported env (aacConfig cfg first) = false ->
  hoare (audioHeld None) (tryBlock cfg env)
    (fun _ => audioHeld (Some first)) (fun _ => audioHeld (Some first)).
Proof.
  intros Hopen Hv Hread Hknown Hrefused. unfold tryBlock.
  eapply hoare_bind
    with (Q := fun opened s => audioHeld None s /\
                               (fst opened = v /\ snd opened = trackProbe cfg env)).
  { eapply hoare_conseq;
      [apply (hoare_and _ _ _ _ _ _ _
                (audioHeld_openSource None cfg env)
                (returns_openSource cfg env v Hopen Hv)) | | | ]; cbn.
    - auto.
    - auto.
    - intros e s [_ []]. }
  intros [v' p']. apply hoare_pure. cbn [fst snd]. intros [-> ->].
  eapply hoare_bind.
  { apply hoare_never. apply (audioHeld_analyzeAudio_known cfg env first Hread Hknown). }
  intros p. cbn beta.
  apply (hoare_conseq
           (fun s => audioHeld (Some first) s /\
                     (includeAudioTrack p = true /\
                      audioSampleRate p = Some (AudioData.sampleRate first) /\
                      audioChannels p = Some (AudioData.numberOfChannels first)))
           _ _ (fun _ => audioHeld (Some first)) _ (fun _ => audioHeld (Some first)));
    [| auto | auto | auto].
  apply hoare_pure. intros (Hinclude & Hrate & Hchannels).
  eapply hoare_bind;
    [apply (audioHeld_configureEncoders cfg env v p first Hinclude Hrate Hchannels
              Hknown Hrefused) |].
  intros ctx. cbn beta. apply hoare_pure. intros Hruns.
  eapply hoare_bind; [apply (audioHeld_encode (Some first) env ctx Hruns) |].
  intros u. apply audioHeld_finalize.
Qed.

(** X7: when the run read a first audio sample to learn the attributes,
    the sample told them, and then either no H.264 configuration is
    supported or the platform refuses AAC, the sample is never submitted and
    never closed: the run ends, failed in the first case and as a video-only
    run in the second, with the sample still held in [bufferedAudio]. *)
Theorem X7_probe_sample_never_closed (cfg : Settings) (env : Env) (previous : option Z)
    (v : VideoSource) (first : AudioData.t) :
  opens cfg env = true -> videoTrack env = Some v ->
  analysed cfg env = Some first ->
  JS.truthy (AudioData.sampleRate first)
  && JS.truthy (AudioData.numberOfChannels first) = true ->
  chooseVideoConfig (isVideoConfigSupported env) (videoConfigCandidates v cfg) = None \/
  isAudioConfigSupported env (aacConfig cfg first) = false ->
  bufferedAudio (snd (runConversion cfg env (initialSt previous))) = Some first /\
  audioReleases (trace (snd (runConversion cfg env (initialSt previous)))) = [] /\
  audioSubmitted (trace (snd (runConversion cfg env (initialSt previous)))) = [] /\
  fst (runConversion cfg env (initialSt previous))
  = match chooseVideoConfig (isVideoConfigSupported env) (videoConfigCandidates v cfg) with
    | None => Failed "H.264 encoding is not supported in this browser."
    | Some _ => if playbackEnded env then Succeeded else Failed "Playback failed."
    end.
Proof.
  intros Hopen Hv Hread Hknown Hrefused.
  pose proof (outcome_opens cfg env v (initialSt previous) Hopen Hv) as Hout.
  assert (Hrun := runConversion_hoare (audioHeld None) (audioHeld (Some first))
            (fun _ => audioHeld (Some first)) (audioHeld (Some first))
            (fun _ => audioHeld (Some first)) cfg env (initialSt previous)).
  assert (Hstart : audioHeld None (snd (prologue env (initialSt previous)))).
  { unfold prologue, resetOutput, setProgress, setError, emit, modify, gets, when,
      bind, ret. destruct (inputUrl env); repeat split; reflexivity. }
  specialize (Hrun Hstart (audioHeld_tryBlock cfg env v first Hopen Hv Hread Hknown Hrefused)
                (fun s' => inv_snd _ _ _ (audioHeld_finallyBlock _ env))).
  assert (Hcatch : forall e s',
    audioHeld (Some first) s' ->
    audioHeld (Some first) (snd ((catchBlock e ;; finallyBlock env) s'))).
  { intros e s' Hs'. rewrite catch_finally.
    apply (inv_snd _ _ _ (audioHeld_finallyBlock _ env)).
    apply (inv_snd _ _ _ (audioHeld_catchBlock _ e) Hs'). }
  specialize (Hrun Hcatch).
  assert (Hheld : audioHeld (Some first) (snd (runConversion cfg env (initialSt previous)))).
  { destruct (fst (runConversion cfg env (initialSt previous))) eqn:Hfst.
    - destruct (chooseVideoConfig _ _); [destruct (playbackEnded env) |]; discriminate.
    - exact Hrun.
    - destruct Hrun as (e & _ & Hs). exact Hs. }
  destruct Hheld as (Hs & Hr & Hb). auto.
Qed.

Lemma X7_probe_sample_never_closed_witness :
  opens (balancedStandard true) aacRefused = true /\
  analysed (balancedStandard true) aacRefused = Some (sample 0 48000 2 0) /\
  isAudioConfigSupported aacRefused
    (aacConfig (balancedStandard true) (sample 0 48000 2 0)) = false /\
  bufferedAudio (snd (runConversion (balancedStandard true) aacRefused (initialSt None)))
  = Some (sample 0 48000 2 0) /\
  audioReleases
    (trace (snd (runConversion (balancedStandard true) aacRefused (initialSt None)))) = [] /\
  fst (runConversion (balancedStandard true) aacRefused (initialSt None)) = Succeeded.
Proof.
  assert (Hopen : opens (balancedStandard true) aacRefused = true) by reflexivity.
  assert (Hread : analysed (balancedStandard true) aacRefused = Some (sample 0 48000 2 0))
    by reflexivity.
  assert (Haac : isAudioConfigSupported aacRefused
                   (aacConfig (balancedStandard true) (sample 0 48000 2 0)) = false)
    by reflexivity.
  destruct (X7_probe_sample_never_closed (balancedStandard true) aacRefused None
              (hd720 30) (sample 0 48000 2 0) Hopen eq_refl Hread eq_refl
              (or_intror Haac))
    as (Hb & Hr & _ & Hout).
  split; [exact Hopen |]. split; [exact Hread |]. split; [exact Haac |].
  split; [exact Hb |]. split; [exact Hr | exact Hout].
Defined.

(** ** Teardown: tracks, encoders, muxer *)











(** ** The percentage of the progress bar *)

Lemma round_le (x y : Q) : (x <= y)%Q -> JS.round x <= JS.round y.
Proof. intros H. unfold JS.round. apply Qfloor_resp_le. lra. Qed.

Lemma round_ge (x : Q) (z : Z) : z <= JS.round x <-> (inject_Z z - (1 # 2) <= x)%Q.
Proof.
  unfold JS.round. split.
  - intros H. rewrite Zle_Qle in H.
    pose proof (Qfloor_le (x + (1 # 2))). lra.
  - intros H. rewrite <- (Qfloor_Z z). apply Qfloor_resp_le. lra.
Qed.





(** ** The progress offset *)

Ltac offset_leaf :=
  log_leaf ltac:(unfold offsetIsFirst, offsetUnset, unitTimestamps in *).

Lemma unitTimestamps_app (t1 t2 : list Action) :
  unitTimestamps (t1 ++ t2) = unitTimestamps t1 ++ unitTimestamps t2.
Proof. apply flat_map_app. Qed.

Lemma offsetDue_submit (ts : Z) (a : Action) (s : St) :
  unitTimestamps [a] = [ts] ->
  offsetIsFirst s -> offsetDue ts (withTrace (trace s ++ [a]) s).
Proof.
  unfold offsetIsFirst, offsetDue. intros Ha Hs. cbn [trace withTrace progressOffsetUs].
  rewrite unitTimestamps_app, Ha, Hs.
  destruct (unitTimestamps (trace s)); reflexivity.
Qed.

Lemma offsetIsFirst_update d ts :
  JS.truthy d = true ->
  hoare (offsetDue ts) (updateProgress (Some d) (Some ts))
    (fun _ => offsetIsFirst) (fun _ _ => False).
Proof.
  intros Hd s Hs. unfold offsetDue in Hs. unfold updateProgress. rewrite Hd.
  unfold offsetIsFirst.
  destruct (progressOffsetUs s) as [offset |] eqn:Hoffset;
    unfold bind, gets, when, ret, setProgress, modify, emit; cbn;
    rewrite Hoffset; cbn; rewrite ?Hoffset; cbn;
    unfold unitTimestamps in *; rewrite flat_map_app; cbn; rewrite app_nil_r;
    rewrite Hs; reflexivity.
Qed.

Lemma offsetIsFirst_tick d : inv offsetIsFirst (updateProgress d None).
Proof. unfold updateProgress, setProgress. inv_auto fail offset_leaf. Qed.

Lemma offsetIsFirst_videoStep ctx frame d :
  ctxDuration ctx = Some d -> JS.truthy d = true ->
  hoare offsetIsFirst (videoStep ctx frame) (fun _ => offsetIsFirst) (fun _ _ => False).
Proof.
  intros Hctx Hd. unfold videoStep. rewrite Hctx.
  quiet offsetIsFirst ltac:(idtac; inv_auto fail offset_leaf).
  quiet offsetIsFirst ltac:(idtac; inv_auto fail offset_leaf).
  eapply hoare_bind with (Q := fun _ => offsetDue (VideoFrame.timestamp frame)).
  { intros s Hs. unfold encodeVideo, bind, emit, modify.
    exact (offsetDue_submit (VideoFrame.timestamp frame) (EncodeVideo frame _) s
             eq_refl Hs). }
  intros ?.
  eapply hoare_bind; [apply (offsetIsFirst_update d _ Hd) | intros ?].
  apply hoare_quiet; [| total_auto]. inv_auto fail offset_leaf.
Qed.

Lemma offsetIsFirst_audioStep ctx data d :
  ctxDuration ctx = Some d -> JS.truthy d = true ->
  hoare offsetIsFirst (audioStep ctx data) (fun _ => offsetIsFirst) (fun _ _ => False).
Proof.
  intros Hctx Hd. unfold audioStep. rewrite Hctx.
  eapply hoare_bind with (Q := fun _ => offsetDue (AudioData.timestamp data)).
  { intros s Hs. unfold encodeAudio, bind, emit, modify.
    exact (offsetDue_submit (AudioData.timestamp data) (EncodeAudio data None) s
             eq_refl Hs). }
  intros ?.
  eapply hoare_bind; [apply (offsetIsFirst_update d _ Hd) | intros ?].
  apply hoare_quiet; [| total_auto]. inv_auto fail offset_leaf.
Qed.

Lemma offsetIsFirst_audioTaskStart ctx d :
  ctxDuration ctx = Some d -> JS.truthy d = true ->
  hoare offsetIsFirst (audioTaskStart ctx) (fun _ => offsetIsFirst) (fun _ _ => False).
Proof.
  intros Hctx Hd. unfold audioTaskStart. rewrite Hctx.
  destruct (audioTaskRuns ctx); cbn [when]; [| apply hoare_ret; auto].
  eapply hoare_bind with (Q := fun _ => offsetIsFirst); [apply hoare_gets; auto |].
  intros [data |]; [| apply hoare_ret; auto].
  eapply hoare_bind with (Q := fun _ => offsetDue (AudioData.timestamp data)).
  { intros s Hs. unfold encodeAudio, bind, emit, modify.
    exact (offsetDue_submit (AudioData.timestamp data) (EncodeAudio data None) s
             eq_refl Hs). }
  intros ?.
  eapply hoare_bind; [apply (offsetIsFirst_update d _ Hd) | intros ?].
  apply hoare_quiet; [| total_auto]. inv_auto fail offset_leaf.
Qed.

Lemma offsetIsFirst_events ctx tasks events d :
  ctxDuration ctx = Some d -> JS.truthy d = true ->
  hoare offsetIsFirst (forEach (handleEvent ctx tasks) events)
    (fun _ => offsetIsFirst) (fun _ _ => False).
Proof.
  intros Hctx Hd. induction events as [| e rest IH]; cbn [forEach].
  - apply hoare_ret. auto.
  - eapply hoare_bind with (Q := fun _ => offsetIsFirst); [| intros ?; exact IH].
    destruct e as [frame | data | clock | |]; unfold handleEvent.
    + destruct tasks; cbn [when];
        [apply (offsetIsFirst_videoStep ctx frame d Hctx Hd) | apply hoare_ret; auto].
    + destruct (tasks && audioTaskRuns ctx); cbn [when];
        [apply (offsetIsFirst_audioStep ctx data d Hctx Hd) | apply hoare_ret; auto].
    + apply hoare_quiet; [| total_auto].
      inv_auto ltac:(apply offsetIsFirst_tick) offset_leaf.
    + apply hoare_quiet; [| total_auto]. inv_auto fail offset_leaf.
    + apply hoare_quiet; [| total_auto]. inv_auto fail offset_leaf.
Qed.

Lemma offsetIsFirst_encode env ctx d :
  ctxDuration ctx = Some d -> JS.truthy d = true ->
  inv offsetIsFirst (encode env ctx).
Proof.
  intros Hctx Hd. unfold encode.
  inv_auto
    ltac:(first
            [ apply hoare_never; apply (offsetIsFirst_audioTaskStart ctx d Hctx Hd)
            | apply hoare_never; apply (offsetIsFirst_events ctx _ _ d Hctx Hd) ])
    offset_leaf.
Qed.

Lemma offsetIsFirst_configureEncoders cfg env v p :
  inv offsetIsFirst (configureEncoders cfg env v p).
Proof. unfold configureEncoders, negotiateAudio. inv_auto fail offset_leaf. Qed.

Lemma offsetUnset_configureEncoders cfg env v p :
  inv offsetUnset (configureEncoders cfg env v p).
Proof. unfold configureEncoders, negotiateAudio. inv_auto fail offset_leaf. Qed.

Lemma offsetIsFirst_tryBlock cfg env :
  JS.truthyOpt (durationSeconds env) = true -> inv offsetIsFirst (tryBlock cfg env).
Proof.
  intros Hknown. unfold tryBlock.
  apply inv_bind; [unfold openSource; inv_auto fail offset_leaf |]. intros opened.
  apply inv_bind; [unfold analyzeAudio; inv_auto fail offset_leaf |]. intros probe.
  eapply hoare_bind
    with (Q := fun ctx s => offsetIsFirst s /\ ctxDuration ctx = durationSeconds env).
  { eapply hoare_conseq;
      [apply (hoare_and _ _ _ _ _ _ _
                (offsetIsFirst_configureEncoders cfg env (fst opened) probe)
                (returns_configureEncoders cfg env (fst opened) probe)) | | | ]; cbn.
    - auto.
    - intros ctx s (Hs & _ & Hd & _). auto.
    - intros e s [Hs _]. exact Hs. }
  intros ctx. apply hoare_pure. intros Hctx.
  destruct (durationSeconds env) as [d |] eqn:Hd; [| discriminate].
  cbn [JS.truthyOpt] in Hknown.
  apply inv_bind; [apply (offsetIsFirst_encode env ctx d Hctx Hknown) |]. intros u.
  unfold finalize, setProgress. inv_auto fail offset_leaf.
Qed.

Lemma offsetUnset_events ctx tasks e :
  JS.truthyOpt (ctxDuration ctx) = false -> inv offsetUnset (handleEvent ctx tasks e).
Proof.
  intros Hunknown.
  unfold handleEvent, videoStep, audioStep, encodeVideo, encodeAudio.
  inv_auto
    ltac:(idtac;
          match goal with
          | |- inv _ (updateProgress (ctxDuration ctx) ?ts) =>
              rewrite (updateProgress_unknown _ ts Hunknown); apply inv_ret
          end)
    offset_leaf.
Qed.

Lemma offsetUnset_tryBlock cfg env :
  JS.truthyOpt (durationSeconds env) = false -> inv offsetUnset (tryBlock cfg env).
Proof.
  intros Hunknown. unfold tryBlock.
  apply inv_bind; [unfold openSource; inv_auto fail offset_leaf |]. intros opened.
  apply inv_bind; [unfold analyzeAudio; inv_auto fail offset_leaf |]. intros probe.
  eapply hoare_bind
    with (Q := fun ctx s => offsetUnset s /\ ctxDuration ctx = durationSeconds env).
  { eapply hoare_conseq;
      [apply (hoare_and _ _ _ _ _ _ _
                (offsetUnset_configureEncoders cfg env (fst opened) probe)
                (returns_configureEncoders cfg env (fst opened) probe)) | | | ]; cbn.
    - auto.
    - intros ctx s (Hs & _ & Hd & _). auto.
    - intros e s [Hs _]. exact Hs. }
  intros ctx. apply hoare_pure. intros Hctx. rewrite <- Hctx in Hunknown.
  apply inv_bind.
  - unfold encode, audioTaskStart, encodeAudio.
    inv_auto
      ltac:(idtac;
            match goal with
            | |- inv _ (handleEvent _ _ _) => apply (offsetUnset_events _ _ _ Hunknown)
            | |- inv _ (updateProgress (ctxDuration ctx) ?ts) =>
                rewrite (updateProgress_unknown _ ts Hunknown); apply inv_ret
            end)
      offset_leaf.
  - intros u. unfold finalize, setProgress. inv_auto fail offset_leaf.
Qed.

Lemma offset_rest (I : St -> Prop) env e :
  inv I (finallyBlock env) -> inv I (catchBlock e) ->
  forall s, I s -> I (snd ((catchBlock e ;; finallyBlock env) s)).
Proof.
  intros Hfinally Hcatch s Hs. rewrite catch_finally.
  apply (inv_snd _ _ _ Hfinally). apply (inv_snd _ _ _ Hcatch Hs).
Qed.

(** X10: progress is measured from the first unit that is submitted to an
    encoder, whichever track it comes from: in a run whose duration is
    known, [progressOffsetUs] ends as the timestamp of the first video frame
    or audio sample submitted (the buffered audio sample when there is one),
    and stays unset when nothing was submitted; in a run whose duration is
    not known it is never set. *)
Theorem X10_progress_offset (cfg : Settings) (env : Env) (previous : option Z) :
  progressOffsetUs (snd (runConversion cfg env (initialSt previous)))
  = if JS.truthyOpt (durationSeconds env)
    then hd_error (unitTimestamps (trace (snd (runConversion cfg env (initialSt previous)))))
    else None.
Proof.
  assert (Hfinally : forall I : St -> Prop,
            (I = offsetIsFirst \/ I = offsetUnset) -> inv I (finallyBlock env)).
  { intros I [-> | ->]; unfold finallyBlock, stopProgressTimer; inv_auto fail offset_leaf. }
  assert (Hcatch : forall (I : St -> Prop) e,
            (I = offsetIsFirst \/ I = offsetUnset) -> inv I (catchBlock e)).
  { intros I e [-> | ->]; unfold catchBlock; inv_auto fail offset_leaf. }
  assert (Hstart : offsetIsFirst (snd (prologue env (initialSt previous))) /\
                   offsetUnset (snd (prologue env (initialSt previous)))).
  { unfold prologue, resetOutput, setProgress, setError, emit, modify, gets, when,
      bind, ret. destruct (inputUrl env); split; reflexivity. }
  destruct (JS.truthyOpt (durationSeconds env)) eqn:Hknown.
  - assert (Hrun := runConversion_hoare offsetIsFirst offsetIsFirst
              (fun _ => offsetIsFirst) offsetIsFirst (fun _ => offsetIsFirst)
              cfg env (initialSt previous) (proj1 Hstart)
              (offsetIsFirst_tryBlock cfg env Hknown)
              (fun s' => inv_snd _ _ _ (Hfinally _ (or_introl eq_refl)))
              (fun e => offset_rest _ env e (Hfinally _ (or_introl eq_refl))
                          (Hcatch _ e (or_introl eq_refl)))).
    destruct (fst (runConversion cfg env (initialSt previous))) eqn:Hout.
    + destruct (runConversion_cases cfg env (initialSt previous))
        as [(_ & [-> | [message ->]]) | [(s' & _ & _ & Hr) | (e & s' & _ & _ & Hr)]];
        try (rewrite Hr in Hout; discriminate); reflexivity.
    + exact Hrun.
    + destruct Hrun as (e & _ & Hs). exact Hs.
  - assert (Hrun := runConversion_hoare offsetUnset offsetUnset
              (fun _ => offsetUnset) offsetUnset (fun _ => offsetUnset)
              cfg env (initialSt previous) (proj2 Hstart)
              (offsetUnset_tryBlock cfg env Hknown)
              (fun s' => inv_snd _ _ _ (Hfinally _ (or_intror eq_refl)))
              (fun e => offset_rest _ env e (Hfinally _ (or_intror eq_refl))
                          (Hcatch _ e (or_intror eq_refl)))).
    destruct (fst (runConversion cfg env (initialSt previous))) eqn:Hout.
    + destruct (runConversion_cases cfg env (initialSt previous))
        as [(_ & [-> | [message ->]]) | [(s' & _ & _ & Hr) | (e & s' & _ & _ & Hr)]];
        try (rewrite Hr in Hout; discriminate); reflexivity.
    + exact Hrun.
    + destruct Hrun as (e & _ & Hs). exact Hs.
Qed.

(** ** The encoder output callbacks *)

Section OutputFacts.

Context {Chunk Meta : Type}.

Lemma outputs_length message (calls : list (Chunk * option Meta)) :
  forall held, List.length (outputs message held calls) = List.length calls.
Proof.
  induction calls as [| [chunk meta] rest IH]; intros held; cbn.
  - reflexivity.
  - rewrite IH. reflexivity.
Qed.

Lemma noMetadata_cons (chunk : Chunk) (rest : list (Chunk * option Meta)) i :
  noMetadata rest i -> noMetadata ((chunk, None) :: rest) (S i).
Proof.
  intros Hrest [| k] c m Hk Hnth; cbn in Hnth.
  - injection Hnth as _ <-. reflexivity.
  - apply (Hrest k c m); [lia | exact Hnth].
Qed.

Lemma outputs_added message (calls : list (Chunk * option Meta)) :
  forall held i chunk meta,
    nth_error (outputs message held calls) i = Some (Added chunk meta) ->
    (exists given, nth_error calls i = Some (chunk, given)) /\
    ((held = Some meta /\ noMetadata calls i) \/ latestMetadata calls i meta).
Proof.
  induction calls as [| [chunk0 meta0] rest IH]; intros held i chunk meta Hnth.
  - destruct i; discriminate.
  - destruct i as [| i]; cbn in Hnth.
    + destruct meta0 as [m0 |].
      * injection Hnth as <- <-. split; [exists (Some m0); reflexivity |].
        right. exists 0%nat, chunk0. split; [lia |]. split; [reflexivity |].
        intros k c m Hk. lia.
      * destruct held as [h |]; [| discriminate].
        injection Hnth as <- <-. split; [exists None; reflexivity |].
        left. split; [reflexivity |].
        intros k c m Hk Hc. assert (k = 0%nat) as -> by lia.
        cbn in Hc. injection Hc as _ <-. reflexivity.
    + destruct (IH _ i chunk meta Hnth) as [Hgiven [[Hheld Hnone] | Hlatest]].
      * split; [exact Hgiven |].
        destruct meta0 as [m0 |]; cbn in Hheld.
        -- injection Hheld as ->. right. exists 0%nat, chunk0.
           split; [lia |]. split; [reflexivity |].
           intros [| k] c m Hk Hc; [lia |]. cbn in Hc.
           apply (Hnone k c m); [lia | exact Hc].
        -- left. split; [exact Hheld |]. apply noMetadata_cons. exact Hnone.
      * split; [exact Hgiven |]. right.
        destruct Hlatest as (j & c & Hj & Hc & Hafter).
        exists (S j), c. split; [lia |]. split; [exact Hc |].
        intros [| k] c' m' Hk Hc'; [lia |]. cbn in Hc'.
        apply (Hafter k c' m'); [lia | exact Hc'].
Qed.

Lemma outputs_missing message (calls : list (Chunk * option Meta)) :
  forall held i thrown,
    nth_error (outputs message held calls) i = Some (Missing thrown) ->
    thrown = message /\ held = None /\ noMetadata calls i.
Proof.
  induction calls as [| [chunk0 meta0] rest IH]; intros held i thrown Hnth.
  - destruct i; discriminate.
  - destruct i as [| i]; cbn in Hnth.
    + destruct meta0 as [m0 |]; [discriminate |].
      destruct held as [h |]; [discriminate |].
      injection Hnth as <-. split; [reflexivity |]. split; [reflexivity |].
      intros k c m Hk Hc. assert (k = 0%nat) as -> by lia.
      cbn in Hc. injection Hc as _ <-. reflexivity.
    + destruct (IH _ i thrown Hnth) as (Hthrown & Hheld & Hnone).
      destruct meta0 as [m0 |]; [discriminate |]. cbn in Hheld.
      split; [exact Hthrown |]. split; [exact Hheld |].
      apply noMetadata_cons. exact Hnone.
Qed.

End OutputFacts.

(** X11: an encoder's [output] callback answers every call, in order. A
    chunk that reaches the muxer is the chunk of that call, with the
    metadata that the calls so far delivered last; a call throws exactly
    while no call has delivered metadata yet, so only the calls before the
    first metadata lose their chunk, and with the message of that
    encoder. *)
Theorem X11_output_callback (Chunk Meta : Type) (message : string)
    (calls : list (Chunk * option Meta)) :
  List.length (outputs message None calls) = List.length calls /\
  (forall i chunk meta,
     nth_error (outputs message None calls) i = Some (Added chunk meta) ->
     (exists given, nth_error calls i = Some (chunk, given)) /\
     latestMetadata calls i meta) /\
  (forall i thrown,
     nth_error (outputs message None calls) i = Some (Missing thrown) ->
     thrown = message /\ noMetadata calls i) /\
  (forall i chunk meta,
     nth_error calls i = Some (chunk, meta) -> ~ noMetadata calls i ->
     exists held, nth_error (outputs message None calls) i = Some (Added chunk held)).
Proof.
  split; [apply outputs_length |]. split; [| split].
  - intros i chunk meta Hnth.
    destruct (outputs_added message calls None i chunk meta Hnth)
      as [Hgiven [[Hheld _] | Hlatest]]; [discriminate |].
    split; assumption.
  - intros i thrown Hnth.
    destruct (outputs_missing message calls None i thrown Hnth) as (Ht & _ & Hnone).
    split; assumption.
  - intros i chunk meta Hcall Hsome.
    assert (Hlt : (i < List.length (outputs message None calls))%nat).
    { rewrite outputs_length. apply nth_error_Some. rewrite Hcall. discriminate. }
    apply nth_error_Some in Hlt.
    destruct (nth_error (outputs message None calls) i) as [[c m | thrown] |] eqn:Hnth;
      [| | contradiction].
    + destruct (outputs_added message calls None i c m Hnth) as [[given Hgiven] _].
      rewrite Hcall in Hgiven. injection Hgiven as <- _. exists m. reflexivity.
    + destruct (outputs_missing message calls None i thrown Hnth) as (_ & _ & Hnone).
      contradiction.
Qed.

Lemma X11_output_callback_witness :
  nth_error
    (outputs "Missing video encoder metadata."
       None [(1%nat, None); (2%nat, Some 7%nat); (3%nat, None)]) 2
  = Some (Added 3%nat 7%nat) /\
  latestMetadata [(1%nat, None); (2%nat, Some 7%nat); (3%nat, None)] 2 7%nat /\
  noMetadata [(1%nat, None); (2%nat, Some 7%nat); (3%nat, None)] 0.
Proof.
  destruct (X11_output_callback nat nat "Missing video encoder metadata."
              [(1%nat, None); (2%nat, Some 7%nat); (3%nat, None)])
    as (_ & Hadded & Hmissing & _).
  split; [reflexivity |]. split.
  - apply (Hadded 2%nat 3%nat 7%nat). reflexivity.
  - apply (Hmissing 0%nat "Missing video encoder metadata."%string). reflexivity.
Defined.

(** ** File names *)

Lemma sameName_true (a b : Name) : sameName a b = true <-> a = b.
Proof.
  unfold sameName. destruct (list_eq_dec ascii_dec a b); split; auto; discriminate.
Qed.

(** A character folds to one of the characters of the suffix in lower case
    exactly when it does in upper case. *)
Lemma fold_char (c : ascii) :
  (lowerChar c = "."%char <-> upperChar c = "."%char) /\
  (lowerChar c = "w"%char <-> upperChar c = "W"%char) /\
  (lowerChar c = "e"%char <-> upperChar c = "E"%char) /\
  (lowerChar c = "b"%char <-> upperChar c = "B"%char) /\
  (lowerChar c = "m"%char <-> upperChar c = "M"%char).
Proof.
  destruct c as [[] [] [] [] [] [] [] []];
    vm_compute; repeat split; intros H; first [reflexivity | discriminate H].
Qed.

(** On five characters the two case-insensitive tests agree. *)
Lemma fold_suffix (x : Name) :
  map lowerChar x = list_ascii_of_string ".webm" <->
  map upperChar x = list_ascii_of_string ".WEBM".
Proof.
  destruct x as [| c1 [| c2 [| c3 [| c4 [| c5 [| c6 rest]]]]]];
    try (split; discriminate).
  cbn [map list_ascii_of_string].
  destruct (fold_char c1) as (H1 & _).
  destruct (fold_char c2) as (_ & H2 & _).
  destruct (fold_char c3) as (_ & _ & H3 & _).
  destruct (fold_char c4) as (_ & _ & _ & H4 & _).
  destruct (fold_char c5) as (_ & _ & _ & _ & H5).
  split; intros H; injection H as E1 E2 E3 E4 E5;
    f_equal; [apply H1 | f_equal; [apply H2 | f_equal; [apply H3 | f_equal;
      [apply H4 | f_equal; apply H5]]] | apply H1 | f_equal; [apply H2 | f_equal;
      [apply H3 | f_equal; [apply H4 | f_equal; apply H5]]]]; assumption.
Qed.

Lemma endsWith_matchesWebm (name : Name) :
  endsWith (toLowerCase name) (list_ascii_of_string ".webm") = matchesWebm name.
Proof.
  unfold endsWith, matchesWebm, toLowerCase. rewrite length_map.
  change (List.length (list_ascii_of_string ".webm")) with 5%nat.
  destruct (5 <=? List.length name)%nat; [| reflexivity]. cbn [andb].
  rewrite skipn_map.
  destruct (sameName (map upperChar (skipn (List.length name - 5) name))
              (list_ascii_of_string ".WEBM")) eqn:Hupper.
  - apply sameName_true. apply fold_suffix. apply sameName_true. exact Hupper.
  - destruct (sameName (map lowerChar (skipn (List.length name - 5) name))
                (list_ascii_of_string ".webm")) eqn:Hlower; [| reflexivity].
    apply sameName_true in Hlower. apply fold_suffix in Hlower.
    apply sameName_true in Hlower. congruence.
Qed.

(** X12: the test of the file name in [handleFile] and the pattern of the
    download name agree. A name that ends in [.webm], in any mix of upper
    and lower case, gets no warning and is offered for download with these
    five characters replaced by [.mp4]; any other name is offered
    unchanged, so that a file accepted with the warning keeps its own name
    and extension for the MP4 that is produced. *)
Theorem X12_download_name (type name : Name) :
  endsWith (toLowerCase name) (list_ascii_of_string ".webm") = matchesWebm name /\
  (matchesWebm name = true ->
   handleFileError type name = None /\
   exists stem extension,
     name = stem ++ extension /\
     toLowerCase extension = list_ascii_of_string ".webm" /\
     downloadName (Some name) = stem ++ list_ascii_of_string ".mp4") /\
  (matchesWebm name = false -> downloadName (Some name) = name) /\
  (handleFileError type name <> None -> downloadName (Some name) = name).
Proof.
  pose proof (endsWith_matchesWebm name) as Hsame.
  split; [exact Hsame |]. split; [| split].
  - intros Hmatch. split.
    + unfold handleFileError, looksLikeWebm. rewrite Hsame, Hmatch, orb_true_r.
      reflexivity.
    + exists (firstn (List.length name - 5) name), (skipn (List.length name - 5) name).
      split; [symmetry; apply firstn_skipn |]. split.
      * unfold matchesWebm in Hmatch. apply andb_true_iff in Hmatch.
        destruct Hmatch as [_ Hmatch]. apply sameName_true in Hmatch.
        apply fold_suffix. exact Hmatch.
      * unfold downloadName, replaceWebm. rewrite Hmatch. reflexivity.
  - intros Hmatch. unfold downloadName, replaceWebm. rewrite Hmatch. reflexivity.
  - intros Hwarned. unfold handleFileError, looksLikeWebm in Hwarned.
    rewrite Hsame in Hwarned. unfold downloadName, replaceWebm.
    destruct (matchesWebm name); [| reflexivity].
    rewrite orb_true_r in Hwarned. contradiction.
Qed.

Lemma X12_download_name_witness :
  matchesWebm (list_ascii_of_string "Clip.WebM") = true /\
  handleFileError (list_ascii_of_string "application/octet-stream")
    (list_ascii_of_string "Clip.WebM") = None /\
  handleFileError (list_ascii_of_string "video/x-matroska")
    (list_ascii_of_string "clip.mkv") <> None /\
  downloadName (Some (list_ascii_of_string "clip.mkv")) = list_ascii_of_string "clip.mkv".
Proof.
  assert (Hmatch : matchesWebm (list_ascii_of_string "Clip.WebM") = true) by reflexivity.
  assert (Hwarned : handleFileError (list_ascii_of_string "video/x-matroska")
                      (list_ascii_of_string "clip.mkv") <> None)
    by (vm_compute; discriminate).
  destruct (X12_download_name (list_ascii_of_string "application/octet-stream")
              (list_ascii_of_string "Clip.WebM")) as (_ & Hyes & _).
  destruct (X12_download_name (list_ascii_of_string "video/x-matroska")
              (list_ascii_of_string "clip.mkv")) as (_ & _ & _ & Hno).
  split; [exact Hmatch |]. split; [exact (proj1 (Hyes Hmatch)) |].
  split; [exact Hwarned | exact (Hno Hwarned)].
Defined.

(** ** [formatDuration] *)

Lemma floor_shift (x : Q) (n : Z) : Qfloor (x - inject_Z n) = Qfloor x - n.
Proof.
  pose proof (Qfloor_le x) as H1. pose proof (Qlt_floor x) as H2.
  pose proof (Qfloor_le (x - inject_Z n)) as H3.
  pose proof (Qlt_floor (x - inject_Z n)) as H4.
  assert (Ha : (inject_Z (Qfloor (x - inject_Z n) + n) < inject_Z (Qfloor x + 1))%Q).
  { rewrite inject_Z_plus. lra. }
  assert (Hb : (inject_Z (Qfloor x) < inject_Z (Qfloor (x - inject_Z n) + n + 1))%Q).
  { rewrite !inject_Z_plus in *. lra. }
  rewrite <- Zlt_Qlt in Ha, Hb. lia.
Qed.

Lemma trunc_floor (x : Q) : (0 <= x)%Q -> trunc x = Qfloor x.
Proof.
  intros H. unfold trunc. destruct x as [n d]. unfold Qfloor.
  unfold Qle in H. cbn in H. rewrite Z.mul_1_r in H.
  apply Z.quot_div_nonneg; lia.
Qed.

(** Minutes and seconds of a duration that is not negative. *)
Lemma remainder_floor (q : Q) :
  (0 <= q)%Q ->
  JS.floor (remainderQ q 60) = JS.floor q - 60 * JS.floor (q / 60) /\
  0 <= JS.floor (remainderQ q 60) < 60 /\ 0 <= JS.floor (q / 60).
Proof.
  intros Hq. unfold JS.floor, remainderQ.
  assert (Hdiv : (0 <= q / 60)%Q).
  { unfold Qdiv. apply Qmult_le_0_compat; [exact Hq | vm_compute; discriminate]. }
  rewrite (trunc_floor _ Hdiv).
  assert (Heq : (q - 60 * inject_Z (Qfloor (q / 60))
                 == q - inject_Z (60 * Qfloor (q / 60)))%Q).
  { rewrite inject_Z_mult. reflexivity. }
  rewrite Heq, floor_shift.
  pose proof (Qfloor_le (q / 60)) as H1. pose proof (Qlt_floor (q / 60)) as H2.
  pose proof (Qfloor_le q) as H3. pose proof (Qlt_floor q) as H4.
  rewrite inject_Z_plus in H2, H4.
  assert (Hq60 : (q == q / 60 * 60)%Q) by (field).
  assert (H0 : 0 <= Qfloor (q / 60)).
  { rewrite <- (Qfloor_Z 0). apply Qfloor_resp_le. exact Hdiv. }
  split; [reflexivity |]. split; [| exact H0].
  change (inject_Z 1) with 1%Q in *.
  set (x := (q / 60)%Q) in *.
  assert (Hlow : (inject_Z (60 * Qfloor x) < inject_Z (Qfloor q + 1))%Q).
  { rewrite inject_Z_mult, inject_Z_plus.
    change (inject_Z 60) with 60%Q. change (inject_Z 1) with 1%Q. lra. }
  assert (Hhigh : (inject_Z (Qfloor q) < inject_Z (60 * Qfloor x + 60))%Q).
  { rewrite inject_Z_plus, inject_Z_mult.
    change (inject_Z 60) with 60%Q. lra. }
  rewrite <- Zlt_Qlt in Hlow, Hhigh. lia.
Qed.

Lemma two_digits (r : Z) :
  0 <= r < 60 -> String.length (padStart 2 "0" (toStringZ r)) = 2%nat.
Proof.
  intros Hr.
  assert (Hall : forallb
            (fun n => Nat.eqb (String.length (padStart 2 "0" (toStringZ (Z.of_nat n)))) 2)
            (seq 0 60) = true) by (vm_compute; reflexivity).
  rewrite forallb_forall in Hall.
  specialize (Hall (Z.to_nat r)). rewrite Z2Nat.id in Hall by lia.
  apply Nat.eqb_eq. apply Hall. apply in_seq. lia.
Qed.

(** X13: [formatDuration] shows the dash exactly for a missing duration,
    for zero, for [NaN] and for an infinite one. For a positive duration it
    shows minutes that are not negative and a remainder of exactly two
    digits, below 60, and the two recompose to the whole seconds of the
    duration: [60 * minutes + remainder = floor(seconds)]. *)
Theorem X13_format_duration :
  (forall seconds,
     formatDuration seconds = Dash <->
     (seconds = None \/ seconds = Some NaN \/
      (exists negative, seconds = Some (Infinite negative)) \/
      exists q, seconds = Some (Finite q) /\ (q == 0)%Q)) /\
  (forall q,
     (0 < q)%Q ->
     exists remainder,
       formatDuration (Some (Finite q))
       = Clock (JS.floor (q / 60)) (padStart 2 "0" (toStringZ remainder)) /\
       0 <= JS.floor (q / 60) /\
       0 <= remainder < 60 /\
       60 * JS.floor (q / 60) + remainder = JS.floor q /\
       String.length (padStart 2 "0" (toStringZ remainder)) = 2%nat).
Proof.
  split.
  - intros [[q | | negative] |]; unfold formatDuration; cbn [truthyNum isFinite negb orb].
    + unfold JS.truthy. rewrite orb_false_r, negb_involutive.
      destruct (Qeq_bool q 0) eqn:Hzero.
      * split; [| reflexivity]. intros _. right. right. right.
        exists q. split; [reflexivity | apply Qeq_bool_iff; exact Hzero].
      * split; [discriminate |].
        intros [H | [H | [[n H] | (q' & H & Hq')]]]; try discriminate.
        injection H as ->. apply Qeq_bool_iff in Hq'. congruence.
    + split; auto.
    + split; [| reflexivity]. intros _. right. right. left. exists negative. reflexivity.
    + split; auto.
  - intros q Hq.
    destruct (remainder_floor q (Qlt_le_weak _ _ Hq)) as (Hrem & Hrange & Hminutes).
    exists (JS.floor (remainderQ q 60)).
    split; [| split; [exact Hminutes | split; [exact Hrange | split; [lia |]]]].
    + unfold formatDuration. cbn [truthyNum isFinite negb orb].
      unfold JS.truthy.
      destruct (Qeq_bool q 0) eqn:Hzero; [| reflexivity].
      apply Qeq_bool_iff in Hzero. lra.
    + apply two_digits. exact Hrange.
Qed.

Lemma X13_format_duration_witness :
  (0 < 1255 # 10)%Q /\
  formatDuration (Some (Finite (1255 # 10))) = Clock 2 "05" /\
  formatDuration (Some (Finite 0)) = Dash /\
  exists remainder,
    formatDuration (Some (Finite (1255 # 10)))
    = Clock (JS.floor ((1255 # 10) / 60)) (padStart 2 "0" (toStringZ remainder)) /\
    60 * JS.floor ((1255 # 10) / 60) + remainder = JS.floor (1255 # 10).
Proof.
  assert (Hq : (0 < 1255 # 10)%Q) by reflexivity.
  destruct X13_format_duration as [Hdash Hclock].
  destruct (Hclock (1255 # 10) Hq) as (remainder & Hshown & _ & _ & Hsum & _).
  split; [exact Hq |]. split; [reflexivity |]. split.
  - apply Hdash. right. right. right. exists 0%Q. split; reflexivity.
  - exists remainder. split; [exact Hshown | exact Hsum].
Defined.

(** ** Bitrates across the quality presets *)

Lemma baseBitrate_floor (v : VideoSource) : 1500000 <= baseBitrate v.
Proof. unfold baseBitrate. lia. Qed.

Lemma scaled_le (base : Z) (low high : Q) :
  0 <= base -> (low <= high)%Q ->
  JS.round (inject_Z base * low) <= JS.round (inject_Z base * high).
Proof.
  intros Hbase Hscale. apply round_le.
  rewrite !(Qmult_comm (inject_Z base)).
  apply Qmult_le_compat_r; [exact Hscale |].
  rewrite Zle_Qle in Hbase. exact Hbase.
Qed.

(** X14: for every source the three quality presets order the video
    bitrate, small below balanced below high; the balanced preset passes
    the base bitrate on unchanged; and no preset takes the video bitrate
    below 1,050,000 (small), 1,500,000 (balanced) or 2,025,000 (high) bits
    per second. The audio bitrates are ordered the same way. *)
Theorem X14_bitrate_by_preset (v : VideoSource) :
  videoBitrate v (qualityPreset 2) <= videoBitrate v (qualityPreset 1) /\
  videoBitrate v (qualityPreset 1) <= videoBitrate v (qualityPreset 0) /\
  videoBitrate v (qualityPreset 1) = baseBitrate v /\
  1050000 <= videoBitrate v (qualityPreset 2) /\
  1500000 <= videoBitrate v (qualityPreset 1) /\
  2025000 <= videoBitrate v (qualityPreset 0) /\
  audioBitrate (qualityPreset 2) < audioBitrate (qualityPreset 1) /\
  audioBitrate (qualityPreset 1) < audioBitrate (qualityPreset 0).
Proof.
  pose proof (baseBitrate_floor v) as Hbase.
  assert (Hpos : 0 <= baseBitrate v) by lia.
  assert (Hbalanced : videoBitrate v (qualityPreset 1) = baseBitrate v).
  { unfold videoBitrate. cbn [qualityPreset qualityPresets nth QualityPreset.bitrateScale].
    transitivity (JS.round (inject_Z (baseBitrate v))); [| apply round_inject_Z].
    unfold JS.round. apply Qfloor_comp. ring. }
  assert (Hsmall : 1050000 <= videoBitrate v (qualityPreset 2)).
  { unfold videoBitrate. cbn [qualityPreset qualityPresets nth QualityPreset.bitrateScale].
    apply round_ge. rewrite Zle_Qle in Hbase.
    change (inject_Z 1500000) with 1500000%Q in Hbase.
    change (inject_Z 1050000) with 1050000%Q. lra. }
  assert (Hhigh : 2025000 <= videoBitrate v (qualityPreset 0)).
  { unfold videoBitrate. cbn [qualityPreset qualityPresets nth QualityPreset.bitrateScale].
    apply round_ge. rewrite Zle_Qle in Hbase.
    change (inject_Z 1500000) with 1500000%Q in Hbase.
    change (inject_Z 2025000) with 2025000%Q. lra. }
  repeat split; try assumption; try lia.
  - unfold videoBitrate. apply scaled_le; [exact Hpos |].
    unfold Qle. simpl. lia.
  - unfold videoBitrate. apply scaled_le; [exact Hpos |].
    unfold Qle. simpl. lia.
Qed.

(** ** The state of the page *)

Lemma wellFormed_step (p : Page.t) (e : Page.Event) :
  Page.wellFormed p -> Page.wellFormed (Page.step p e).
Proof.
  intros [Hduration Hfile].
  destruct e as [files url | files url | | d | d]; cbn [Page.step].
  - destruct files as [| file rest]; cbn; [split; assumption |].
    split; [exact Hduration | split; discriminate].
  - destruct files as [| file rest]; cbn; [split; assumption |].
    split; [exact Hduration | split; discriminate].
  - split; cbn; [left; reflexivity | split; reflexivity].
  - unfold Page.onLoadedMetadata.
    destruct d as [q | | negative]; cbn; [| split; assumption | split; assumption].
    split; [right; exists q; reflexivity | exact Hfile].
  - unfold Page.storeDuration, Page.durationSeconds.
    destruct d as [q | | negative]; cbn [isFinite].
    + destruct (truthyNum (Finite q) && negb (Page.truthyDuration (Page.duration p)));
        [| split; assumption].
      split; [right; exists q; reflexivity | exact Hfile].
    + destruct Hduration as [Hnone | [q Hq]].
      * rewrite Hnone. split; [left; exact Hnone | exact Hfile].
      * rewrite Hq.
        destruct (truthyNum (Finite q) && negb (Page.truthyDuration (Some (Finite q))));
          (split; [right; exists q; first [reflexivity | exact Hq] | exact Hfile]).
    + destruct Hduration as [Hnone | [q Hq]].
      * rewrite Hnone. split; [left; exact Hnone | exact Hfile].
      * rewrite Hq.
        destruct (truthyNum (Finite q) && negb (Page.truthyDuration (Some (Finite q))));
          (split; [right; exists q; first [reflexivity | exact Hq] | exact Hfile]).
Qed.

Lemma wellFormed_fold (events : list Page.Event) :
  forall p, Page.wellFormed p -> Page.wellFormed (fold_left Page.step events p).
Proof.
  induction events as [| e rest IH]; intros p Hp; cbn [fold_left].
  - exact Hp.
  - apply IH. apply wellFormed_step. exact Hp.
Qed.

(** X15: whatever happens to the page (files picked or dropped, clearing,
    metadata of the preview, conversions), the duration it holds is missing
    or finite, so that [formatDuration] shows the dash exactly when it is
    missing or zero; the file and its object URL are set and cleared
    together; clearing forgets a file that was picked and is idempotent;
    and picking another file keeps the duration of the previous one. *)
Theorem X15_page_state (events : list Page.Event) :
  Page.wellFormed (Page.after events) /\
  (formatDuration (Page.duration (Page.after events)) = Dash <->
   (Page.duration (Page.after events) = None \/
    exists q, Page.duration (Page.after events) = Some (Finite q) /\ (q == 0)%Q)) /\
  Page.handleClear (Page.handleClear (Page.after events))
  = Page.handleClear (Page.after events) /\
  (forall file url,
     Page.handleClear (Page.handleFile file url (Page.after events))
     = Page.handleClear (Page.after events)) /\
  (forall file url,
     Page.duration (Page.handleFile file url (Page.after events))
     = Page.duration (Page.after events)).
Proof.
  assert (Hwell : Page.wellFormed (Page.after events)).
  { apply wellFormed_fold. split; cbn; [left; reflexivity | split; reflexivity]. }
  split; [exact Hwell |]. split; [| repeat split].
  destruct Hwell as [[Hnone | [q Hq]] _].
  - rewrite Hnone. cbn. split; auto.
  - rewrite Hq. unfold formatDuration. cbn [truthyNum isFinite negb orb].
    unfold JS.truthy. rewrite orb_false_r, negb_involutive.
    destruct (Qeq_bool q 0) eqn:Hzero.
    + split; [| reflexivity]. intros _. right. exists q.
      split; [reflexivity | apply Qeq_bool_iff; exact Hzero].
    + split; [discriminate |].
      intros [H | (q' & H & Hq')]; [discriminate |].
      injection H as ->. apply Qeq_bool_iff in Hq'. congruence.
Qed.

Lemma X15_page_state_witness :
  Page.duration
    (Page.after [Page.LoadedMetadata (Infinite false); Page.Converting (Finite 12);
                 Page.FileInput [{| Page.name := list_ascii_of_string "b.webm";
                                    Page.type := list_ascii_of_string "video/webm" |}] 2])
  = Some (Finite 12) /\
  formatDuration
    (Page.duration
       (Page.after [Page.LoadedMetadata (Infinite false); Page.Converting (Finite 12);
                    Page.FileInput [{| Page.name := list_ascii_of_string "b.webm";
                                       Page.type := list_ascii_of_string "video/webm" |}] 2]))
  <> Dash /\
  Page.wellFormed
    (Page.after [Page.LoadedMetadata (Infinite false); Page.Converting (Finite 12);
                 Page.FileInput [{| Page.name := list_ascii_of_string "b.webm";
                                    Page.type := list_ascii_of_string "video/webm" |}] 2]).
Proof.
  destruct (X15_page_state
              [Page.LoadedMetadata (Infinite false); Page.Converting (Finite 12);
               Page.FileInput [{| Page.name := list_ascii_of_string "b.webm";
                                  Page.type := list_ascii_of_string "video/webm" |}] 2])
    as (Hwell & Hdash & _).
  split; [reflexivity |]. split; [| exact Hwell].
  intros Hshown. apply Hdash in Hshown.
  destruct Hshown as [Hnone | (q & Hq & Hzero)]; [discriminate Hnone |].
  injection Hq as <-. revert Hzero. vm_compute. discriminate.
Defined.
